(** * core-transaction: the transaction state machine and its coordinator

    A shallow embedding of [src/lib/core-transaction.js].

    - JavaScript objects that the library mutates (the [Transaction]
      instances) live in a heap, a [gmap] from addresses to records; the
      address of a transaction is its [id], which the constructor draws
      from the module counter [transactionId], so it is unique per object.
      References between transactions ([parentTransaction], the entries of
      [innerTransactions]) are addresses, so aliasing is kept.
    - The module variables [transactionId], [transactions] (the registry)
      and [DefaultTransactionImplementationClass] are fields of the state.
    - Functions of the library are state transformers that either return or
      throw ([M]).  Promise chains are composed from their settlements
      ([then_], [catch_], [finally_]).
    - The code supplied by the caller is opaque to the library: an
      implementation hook or an [onCommit]/[onRollback] callback is modelled
      by how one call of it completes ([Behaviour]), the protected code
      [processFn] by an arbitrary state transformer.

    What is left out or simplified:
    - the logger is an event sink: a log call is recorded, not formatted;
    - a thenable is given by how it settles.  A promise of the chain of
      [execute] that is resolved with a thenable is taken at its settlement;
      a continuation the library attaches to the result of a hook
      ([thenDetached]) is queued at once when that result is no thenable and
      then runs before the next callback of the chain ([drain]); attached to
      a thenable that fulfils, it waits ([awaited]) until the thenable
      fulfils, which is a step of its own at any later time
      ([hookFulfils]); that the derived promise of a rejecting result has
      no handler is recorded when the continuation is attached;
    - the line that an [onCommit]/[onRollback] callback's rejected promise
      gets logged with is recorded when the callback is called;
    - an implementation class is its six hooks, which its constructor
      hands to [super(parentTransaction, hooks, options)] as the README
      asks, and the prototype chain of its instances, from which the
      handler takes its methods ([getInstanceMethods]); what a method of
      the class does when called is not modelled. *)

From stdpp Require Import base option list strings gmap pretty.

Open Scope string_scope.

(** ** JavaScript values, as far as the library looks at them *)

Inductive Value : Type :=
| VUndefined
| VNull
| VBool (b : bool)
| VNum (n : Z)
| VStr (s : string)
| VError (message : string)       (* new Error(message) *)
| VReferenceError (ident : string) (* raised by an unbound identifier *)
| VTypeError                      (* raised by a property read on undefined/null *)
| VPlainObject                    (* an object without a callable [then] *)
| VFulfils (v : Value)            (* a thenable that fulfils with v *)
| VRejects (e : Value)            (* a thenable that rejects with e *)
| VNeverSettles.                  (* a thenable that stays pending *)

#[global] Instance Value_eq_dec : EqDecision Value.
Proof. solve_decision. Defined.

(** JavaScript truthiness ([!x], [x || y]). *)
Definition truthy (v : Value) : bool :=
  match v with
  | VUndefined | VNull => false
  | VBool b => b
  | VNum n => negb (Z.eqb n 0)
  | VStr s => negb (String.eqb s "")
  | _ => true
  end.

(** [_.isObject(v) && _.isFunction(v.then)]. *)
Definition isThenable (v : Value) : bool :=
  match v with
  | VFulfils _ | VRejects _ | VNeverSettles => true
  | _ => false
  end.

(** [_.isObject(v)]. *)
Definition isObject (v : Value) : bool :=
  match v with
  | VError _ | VReferenceError _ | VTypeError | VPlainObject
  | VFulfils _ | VRejects _ | VNeverSettles => true
  | _ => false
  end.

(** State of a promise once everything it waits for is known. *)
Inductive Settlement : Type :=
| Fulfilled (v : Value)
| Rejected (e : Value)
| Pending.

#[global] Instance Settlement_eq_dec : EqDecision Settlement.
Proof. solve_decision. Defined.

(** Resolving a promise with [v]: a thenable is adopted, anything else
    fulfils the promise. *)
Fixpoint settle (v : Value) : Settlement :=
  match v with
  | VFulfils v' => settle v'
  | VRejects e => Rejected e
  | VNeverSettles => Pending
  | _ => Fulfilled v
  end.

(** How one call of a function supplied by the caller completes. *)
Inductive Behaviour : Type :=
| Returns (v : Value)
| Throws (e : Value).

#[global] Instance Behaviour_eq_dec : EqDecision Behaviour.
Proof. solve_decision. Defined.

(** ** Prototype chains and the methods they hold *)

(** An own property of a prototype object as
    [Object.getOwnPropertyDescriptor] shows it: a data property whose value
    is a function (the function is told by [f]), a data property holding
    anything else, or an accessor, whose descriptor has no [value]. *)
Inductive Property : Type :=
| PMethod (f : nat)
| PValue (v : Value)
| PAccessor.

#[global] Instance Property_eq_dec : EqDecision Property.
Proof. solve_decision. Defined.

(** A prototype object: its identity and its own properties, in the order
    of [Object.getOwnPropertyNames]. *)
Record Prototype : Type := {
  p_address : nat;
  p_own : list (string * Property);
}.

#[global] Instance Prototype_eq_dec : EqDecision Prototype.
Proof. solve_decision. Defined.

(** [hasMethod(proto, name)], with the value [proto[name]] it guards. *)
Definition hasMethod (p : Property) : option nat :=
  match p with
  | PMethod f => Some f
  | _ => None
  end.

(** What one round of the loop of [getInstanceMethods] pushes. *)
Definition ownMethods (proto : Prototype) : list (string * nat) :=
  omap (λ entry, if String.eqb entry.1 "constructor" then None
                 else (λ f, (entry.1, f)) <$> hasMethod entry.2)
       (p_own proto).

(** [getInstanceMethods(obj, stop)]: [chain] is the prototype chain of
    [obj], from [Object.getPrototypeOf(obj)] to the last object before
    null. *)
Fixpoint getInstanceMethods (chain : list Prototype) (stop : nat) : list (string * nat) :=
  match chain with
  | [] => []
  | proto :: rest =>
      if decide (p_address proto = stop) then []
      else ownMethods proto ++ getInstanceMethods rest stop
  end.

(** [Transaction.prototype] with the methods the class declares, and
    [Object.prototype]. *)
Definition transactionPrototype : Prototype :=
  {| p_address := 1;
     p_own := [("constructor", PMethod 10); ("getLogger", PMethod 11);
               ("startInner", PMethod 12); ("rollback", PMethod 13);
               ("execute", PMethod 14)] |}.

Definition objectPrototype : Prototype :=
  {| p_address := 0;
     p_own := [("constructor", PMethod 1); ("hasOwnProperty", PMethod 2);
               ("toString", PMethod 3); ("__proto__", PAccessor)] |}.

(** The prototype of a class that declares nothing but its constructor,
    and the prototype chain of the instances of a class that extends
    [Transaction] directly. *)
Definition plainPrototype (a : nat) : Prototype :=
  {| p_address := a; p_own := [("constructor", PMethod a)] |}.

Definition extendsTransaction (proto : Prototype) : list Prototype :=
  [proto; transactionPrototype; objectPrototype].

(** ** Implementation classes and options *)

(** A class extending [Transaction]: its constructor hands the six hooks
    to [super(parentTransaction, hooks, options)]; [c_chain] is the
    prototype chain of its instances, from the prototype of the class to
    the last object before null. *)
Record Class : Type := {
  className : string;
  c_chain : list Prototype;
  c_processBegin : Behaviour;
  c_processCommit : Behaviour;
  c_processRollback : Behaviour;
  c_processInnerBegin : Behaviour;
  c_processInnerCommit : Behaviour;
  c_processInnerRollback : Behaviour;
}.

#[global] Instance Class_eq_dec : EqDecision Class.
Proof. solve_decision. Defined.

(** [_.noop] returns undefined. *)
Definition noop : Behaviour := Returns VUndefined.

(** The class [DefaultTransactionImplementationClass] as declared. *)
Definition LibraryDefaultClass : Class :=
  {| className := "DefaultTransactionImplementationClass";
     c_chain := extendsTransaction (plainPrototype 4);
     c_processBegin := noop; c_processCommit := noop; c_processRollback := noop;
     c_processInnerBegin := noop; c_processInnerCommit := noop;
     c_processInnerRollback := noop |}.

(** An options object.  Every key is read for its truthiness only, so an
    absent key and an undefined one are both [None]; the exception is
    [DefaultImplementationClass], which [_.assign] copies when the key is
    present, whatever its value: [None] is an absent key, [Some None] a key
    holding undefined. *)
Record Options : Type := {
  o_name : option string;
  o_onCommit : option Behaviour;
  o_onRollback : option Behaviour;
  o_implementationClass : option Class;
  o_DefaultImplementationClass : option (option Class);
}.

#[global] Instance Options_eq_dec : EqDecision Options.
Proof. solve_decision. Defined.

Definition emptyOptions : Options :=
  {| o_name := None; o_onCommit := None; o_onRollback := None;
     o_implementationClass := None; o_DefaultImplementationClass := None |}.

(** [_.assign({DefaultImplementationClass: d}, options)]. *)
Definition assignDefault (d : option Class) (o : Options) : Options :=
  {| o_name := o_name o; o_onCommit := o_onCommit o;
     o_onRollback := o_onRollback o;
     o_implementationClass := o_implementationClass o;
     o_DefaultImplementationClass :=
       Some (match o_DefaultImplementationClass o with
             | Some x => x
             | None => d
             end) |}.

(** ** Transactions *)

Inductive Status : Type := running | committed | rolledback.

#[global] Instance Status_eq_dec : EqDecision Status.
Proof. solve_decision. Defined.

(** [class TransactionHandler]: what the constructor assigns first, [id]
    and [parent] (the parent's handler, by the id of the parent) beside
    [rollback] and [startInner] bound to the transaction at address [h_id],
    and the methods the [_.forEach] then assigns, in the order of
    [getInstanceMethods]. *)
Record TransactionHandler : Type := {
  h_id : nat;
  h_parent : option nat;
  h_methods : list (string * nat);
}.

#[global] Instance TransactionHandler_eq_dec : EqDecision TransactionHandler.
Proof. solve_decision. Defined.

(** A property of a handler object. *)
Inductive HandlerProperty : Type :=
| HId (n : nat)               (* this.id *)
| HRollback                   (* thisTransaction.rollback.bind(thisTransaction) *)
| HStartInner                 (* thisTransaction.startInner.bind(thisTransaction) *)
| HParent (p : option nat)    (* the parent's handler, or null *)
| HDelegate (f : nat).        (* (...params) => method.apply(thisTransaction, params) *)

#[global] Instance HandlerProperty_eq_dec : EqDecision HandlerProperty.
Proof. solve_decision. Defined.

(** The four properties the constructor of [TransactionHandler] assigns
    first. *)
Definition ownHandlerProperties (h : TransactionHandler) : gmap string HandlerProperty :=
  <["parent" := HParent (h_parent h)]>
    (<["startInner" := HStartInner]>
       (<["rollback" := HRollback]>
          (<["id" := HId (h_id h)]> ∅))).

(** The handler object when the constructor returns: the [_.forEach]
    assigns a delegate for every entry of [getInstanceMethods], in order. *)
Definition handlerProperties (h : TransactionHandler) (chain : list Prototype) (stop : nat)
  : gmap string HandlerProperty :=
  foldl (λ thisObj m, <[m.1 := HDelegate m.2]> thisObj)
        (ownHandlerProperties h) (getInstanceMethods chain stop).

(** The handler object: the properties a reader of the handler finds. *)
Definition handlerObject (h : TransactionHandler) : gmap string HandlerProperty :=
  foldl (λ thisObj m, <[m.1 := HDelegate m.2]> thisObj)
        (ownHandlerProperties h) (h_methods h).

(** [parentTransactionHandler.id] as a key of the registry: the number,
    when the property still holds it; a delegate is the key of no entry. *)
Definition handlerId (h : TransactionHandler) : option nat :=
  match handlerObject h !! "id" with
  | Some (HId n) => Some n
  | _ => None
  end.

(** An entry of [innerCommitStack]: the closure [() => callback(result)]
    with the transaction and the result it captured. *)
Record Deferred : Type := {
  d_transaction : nat;
  d_result : Value;
}.

#[global] Instance Deferred_eq_dec : EqDecision Deferred.
Proof. solve_decision. Defined.

(** [thisTransaction.impl]. *)
Record Impl : Type := {
  processBeginHook : Behaviour;
  processCommitHook : Behaviour;
  processRollbackHook : Behaviour;
  implParent : option nat;
}.

#[global] Instance Impl_eq_dec : EqDecision Impl.
Proof. solve_decision. Defined.

Record Transaction : Type := {
  id : nat;
  parentTransaction : option nat;
  level : nat;
  status : Status;
  options : Options;
  innerTransactions : list nat;
  innerCommitStack : list Deferred;
  impl : Impl;
  name : string;
  display : string;
  handler : option TransactionHandler;
  prototypeChain : list Prototype;   (* Object.getPrototypeOf(this), and on *)
}.

Definition set_status (st : Status) (t : Transaction) : Transaction :=
  {| id := id t; parentTransaction := parentTransaction t; level := level t;
     status := st; options := options t;
     innerTransactions := innerTransactions t;
     innerCommitStack := innerCommitStack t; impl := impl t;
     name := name t; display := display t; handler := handler t;
     prototypeChain := prototypeChain t |}.

Definition set_innerTransactions (l : list nat) (t : Transaction) : Transaction :=
  {| id := id t; parentTransaction := parentTransaction t; level := level t;
     status := status t; options := options t;
     innerTransactions := l;
     innerCommitStack := innerCommitStack t; impl := impl t;
     name := name t; display := display t; handler := handler t;
     prototypeChain := prototypeChain t |}.

Definition set_innerCommitStack (l : list Deferred) (t : Transaction) : Transaction :=
  {| id := id t; parentTransaction := parentTransaction t; level := level t;
     status := status t; options := options t;
     innerTransactions := innerTransactions t;
     innerCommitStack := l; impl := impl t;
     name := name t; display := display t; handler := handler t;
     prototypeChain := prototypeChain t |}.

Definition set_handler (h : TransactionHandler) (t : Transaction) : Transaction :=
  {| id := id t; parentTransaction := parentTransaction t; level := level t;
     status := status t; options := options t;
     innerTransactions := innerTransactions t;
     innerCommitStack := innerCommitStack t; impl := impl t;
     name := name t; display := display t; handler := Some h;
     prototypeChain := prototypeChain t |}.

(** ** What a caller can pass to the coordinator functions *)

Inductive Arg : Type :=
| AValue (v : Value)
| AHandler (h : TransactionHandler)   (* instanceof TransactionHandler *)
| AOptions (o : Options).

Definition argTruthy (a : Arg) : bool :=
  match a with
  | AValue v => truthy v
  | _ => true
  end.

Definition isHandler (a : Arg) : bool :=
  match a with
  | AHandler _ => true
  | _ => false
  end.

(** The recognised keys of the object given as [options]; [_.assign]
    copies nothing the library reads from any other value. *)
Definition optionsOf (a : Arg) : Options :=
  match a with
  | AOptions o => o
  | _ => emptyOptions
  end.

(** ** Observable events and deferred jobs *)

Inductive LogLevel : Type := info | warn | trace | error.

#[global] Instance LogLevel_eq_dec : EqDecision LogLevel.
Proof. solve_decision. Defined.

Inductive LogMessage : Type :=
| MsgBegin
| MsgInnerNotCompleted       (* committing before an inner transaction completed *)
| MsgCommitAfterParent       (* inner committing after its parent *)
| MsgCommit
| MsgOnCommit
| MsgOnCommitFailed (e : Value)   (* irrecoverable failure as on Commit failed *)
| MsgRollBack (e : Value)
| MsgRollBackError (e : Value)
| MsgOnRollback
| MsgOnRollbackFailed (e : Value). (* irrecoverable failure as on rollback failed *)

#[global] Instance LogMessage_eq_dec : EqDecision LogMessage.
Proof. solve_decision. Defined.

Inductive HookName : Type := hookBegin | hookCommit | hookRollback.

#[global] Instance HookName_eq_dec : EqDecision HookName.
Proof. solve_decision. Defined.

Inductive Event : Type :=
| EvLog (lvl : LogLevel) (tx : nat) (msg : LogMessage)
| EvHook (h : HookName) (tx : nat)
| EvOnCommit (tx : nat) (result : Value)
| EvOnRollback (tx : nat)
| EvUnhandledRejection (e : Value).

#[global] Instance Event_eq_dec : EqDecision Event.
Proof. solve_decision. Defined.

(** Continuations the library attaches with [.then] to a hook's result
    without chaining them into the transaction's own promise. *)
Inductive Job : Type :=
| JOnCommit (tx : nat) (result : Value)
| JOnRollback (tx : nat).

(** ** The state of the module and of the objects it created *)

Record State : Type := {
  transactionId : nat;
  transactions : gmap nat nat;
  DefaultTransactionImplementationClass : Class;
  heap : gmap nat Transaction;
  globals : gmap string Arg;
  microtasks : list Job;
  awaited : list Job;
  events : list Event;
}.

Definition with_heap (f : gmap nat Transaction → gmap nat Transaction) (s : State) : State :=
  {| transactionId := transactionId s; transactions := transactions s;
     DefaultTransactionImplementationClass := DefaultTransactionImplementationClass s;
     heap := f (heap s); globals := globals s;
     microtasks := microtasks s; awaited := awaited s;
     events := events s |}.

Definition with_transactions (f : gmap nat nat → gmap nat nat) (s : State) : State :=
  {| transactionId := transactionId s; transactions := f (transactions s);
     DefaultTransactionImplementationClass := DefaultTransactionImplementationClass s;
     heap := heap s; globals := globals s;
     microtasks := microtasks s; awaited := awaited s;
     events := events s |}.

Definition with_transactionId (n : nat) (s : State) : State :=
  {| transactionId := n; transactions := transactions s;
     DefaultTransactionImplementationClass := DefaultTransactionImplementationClass s;
     heap := heap s; globals := globals s;
     microtasks := microtasks s; awaited := awaited s;
     events := events s |}.

Definition with_default (c : Class) (s : State) : State :=
  {| transactionId := transactionId s; transactions := transactions s;
     DefaultTransactionImplementationClass := c;
     heap := heap s; globals := globals s;
     microtasks := microtasks s; awaited := awaited s;
     events := events s |}.

Definition with_microtasks (q : list Job) (s : State) : State :=
  {| transactionId := transactionId s; transactions := transactions s;
     DefaultTransactionImplementationClass := DefaultTransactionImplementationClass s;
     heap := heap s; globals := globals s;
     microtasks := q; awaited := awaited s; events := events s |}.

Definition with_awaited (q : list Job) (s : State) : State :=
  {| transactionId := transactionId s; transactions := transactions s;
     DefaultTransactionImplementationClass := DefaultTransactionImplementationClass s;
     heap := heap s; globals := globals s;
     microtasks := microtasks s; awaited := q; events := events s |}.

Definition emit (e : Event) (s : State) : State :=
  {| transactionId := transactionId s; transactions := transactions s;
     DefaultTransactionImplementationClass := DefaultTransactionImplementationClass s;
     heap := heap s; globals := globals s;
     microtasks := microtasks s; awaited := awaited s;
     events := events s ++ [e] |}.

(** The module as loaded: [let transactionId = 1; const transactions = {}]. *)
Definition initialState : State :=
  {| transactionId := 1; transactions := ∅;
     DefaultTransactionImplementationClass := LibraryDefaultClass;
     heap := ∅; globals := ∅; microtasks := []; awaited := []; events := [] |}.

(** ** Functions that return or throw *)

Inductive Result (A : Type) : Type :=
| Ok (a : A)
| Thrown (e : Value).
Arguments Ok {A} a.
Arguments Thrown {A} e.

Definition M (A : Type) : Type := State → Result A * State.

Definition ret {A} (a : A) : M A := λ s, (Ok a, s).
Definition throw {A} (e : Value) : M A := λ s, (Thrown e, s).
Definition bind {A B} (m : M A) (k : A → M B) : M B :=
  λ s, match m s with
       | (Ok a, s') => k a s'
       | (Thrown e, s') => (Thrown e, s')
       end.
Definition modify (f : State → State) : M unit := λ s, (Ok tt, f s).
Definition gets {A} (f : State → A) : M A := λ s, (Ok (f s), s).

Notation "'let*' x := m 'in' k" := (bind m (λ x, k))
  (at level 10, x binder, m at level 100, k at level 200, only parsing).
Notation "m ;; k" := (bind m (λ _, k))
  (at level 100, k at level 200, right associativity, only parsing).

(** [thisTransaction.logger.<lvl>(...)]. *)
Definition logger (lvl : LogLevel) (tx : nat) (msg : LogMessage) : M unit :=
  modify (emit (EvLog lvl tx msg)).

(** Reading the object behind a reference. *)
Definition deref (a : nat) : M Transaction :=
  λ s, match heap s !! a with
       | Some t => (Ok t, s)
       | None => (Thrown VTypeError, s)
       end.

Definition statusOf (s : State) (a : nat) : option Status :=
  status <$> heap s !! a.

Definition hasStatus (s : State) (st : Status) (a : nat) : bool :=
  bool_decide (statusOf s a = Some st).

(** [_.some(list, (trans) => trans.status === st)]. *)
Definition someStatus (s : State) (st : Status) (l : list nat) : bool :=
  existsb (hasStatus s st) l.

(** ** class Transaction *)

Definition formatName (composed : string) : string :=
  "System Trans [" ++ composed ++ "]".

(** [name || dflt]. *)
Definition nameOr (n : option string) (dflt : string) : string :=
  match n with
  | Some x => if String.eqb x "" then dflt else x
  | None => dflt
  end.

(** The hooks the constructor keeps in [impl]: the inner ones when a
    parent is given, the main ones otherwise. *)
Definition implOf (c : Class) (parent : option nat) : Impl :=
  match parent with
  | Some p =>
      {| processBeginHook := c_processInnerBegin c;
         processCommitHook := c_processInnerCommit c;
         processRollbackHook := c_processInnerRollback c;
         implParent := Some p |}
  | None =>
      {| processBeginHook := c_processBegin c;
         processCommitHook := c_processCommit c;
         processRollbackHook := c_processRollback c;
         implParent := None |}
  end.

(** [parentTransaction.innerTransactions.push(thisTransaction)]. *)
Definition pushInner (i : nat) (q : Transaction) : Transaction :=
  set_innerTransactions (innerTransactions q ++ [i]) q.

(** [new Impl(parentTransaction, options)]: the constructor of
    [Transaction], with [constructInnerTransaction] and
    [constructMainTransaction]; returns the address of the new object. *)
Definition newTransaction (c : Class) (parent : option nat) (opts : Options) : M nat :=
  let* i := gets transactionId in
  modify (with_transactionId (S i));;
  match parent with
  | Some p =>
      let* pt := deref p in
      let lvl := level pt + 1 in
      let nm := name pt ++ "/" ++ nameOr (o_name opts) ("Level " ++ pretty lvl) in
      let t :=
        {| id := i; parentTransaction := Some p; level := lvl;
           status := running; options := opts;
           innerTransactions := []; innerCommitStack := [];
           impl := implOf c parent;
           name := nm; display := formatName nm; handler := None;
           prototypeChain := c_chain c |} in
      modify (with_heap (λ h, <[i := t]> (alter (pushInner i) p h)));;
      ret i
  | None =>
      let nm := nameOr (o_name opts) "id" ++ " #" ++ pretty i in
      let t :=
        {| id := i; parentTransaction := None; level := 0;
           status := running; options := opts;
           innerTransactions := []; innerCommitStack := [];
           impl := implOf c parent;
           name := nm; display := formatName nm; handler := None;
           prototypeChain := c_chain c |} in
      modify (with_heap (λ h, <[i := t]> h));;
      ret i
  end.

(** [rollback(err)]. *)
Definition rollback (tx : nat) (err : Value) : M Value :=
  modify (with_heap (alter (set_status rolledback) tx));;
  throw (if truthy err then err else VError "ROLL_BACK").

(** The object returned by [createTransaction]; [then] and [execute] are
    the same function of the transaction it closes over. *)
Record Thenable : Type := { th_transaction : nat }.

(** [Impl = innerOptions.implementationClass
           || innerOptions.DefaultImplementationClass
           || DefaultTransactionImplementationClass]. *)
Definition chosenClass (innerOptions : Options) (s : State) : Class :=
  match o_implementationClass innerOptions with
  | Some c => c
  | None =>
      match o_DefaultImplementationClass innerOptions with
      | Some (Some c) => c
      | _ => DefaultTransactionImplementationClass s
      end
  end.

Definition createTransaction (parent : option nat) (innerOptions : Options) : M Thenable :=
  let* c := gets (chosenClass innerOptions) in
  let* a := newTransaction c parent innerOptions in
  let* t := deref a in
  modify (with_transactions (λ r, <[id t := a]> r));;
  ret {| th_transaction := a |}.

(** [this.options.DefaultImplementationClass], undefined when absent. *)
Definition readDefaultImplementationClass (o : Options) : option Class :=
  match o_DefaultImplementationClass o with
  | Some x => x
  | None => None
  end.

(** [startInner(innerOptions)]. *)
Definition startInner (tx : nat) (innerOptions : Arg) : M Thenable :=
  let* t := deref tx in
  createTransaction (Some tx)
    (assignDefault (readDefaultImplementationClass (options t)) (optionsOf innerOptions)).

(** ** The coordinator *)

(** The n-th actual argument, undefined when the call has fewer. *)
Definition argument (n : nat) (arguments : list Arg) : Arg :=
  default (AValue VUndefined) (arguments !! n).

(** [requirement === 'literal'] in the [switch]. *)
Definition isString (a : Arg) (literal : string) : bool :=
  match a with
  | AValue (VStr x) => String.eqb x literal
  | _ => false
  end.

(** [defineTransaction(requirement, parentTransactionHandler, options)],
    called with the actual arguments [arguments]. *)
Definition defineTransaction (arguments : list Arg) : M Thenable :=
  let requirement := argument 0 arguments in
  let parentTransactionHandler := argument 1 arguments in
  let options := argument 2 arguments in
  let* r :=
    (if isString requirement "REUSE" then
       match parentTransactionHandler with
       | AHandler h =>
           let* registry := gets transactions in
           ret (n ← handlerId h; registry !! n, options)
       | _ => throw (VError "PARENT_TRANSACTION_NOT_PROVIDED")
       end
     else if isString requirement "NEW" then
       if isHandler parentTransactionHandler
       then throw (VError "PARENT_TRANSACTION_MAY_NOT_BE_PROVIDED")
       else ret (None,
                 if Nat.eqb (length arguments) 2 then parentTransactionHandler
                 else options)
     else if isString requirement "REUSE_OR_NEW" then
       ret (None, options)
     else throw (VError "TRANSACTION_REQUIREMENT_UNKNOWN")) in
  let '(parent, options) := r in
  let* d := gets DefaultTransactionImplementationClass in
  createTransaction parent (assignDefault (Some d) (optionsOf options)).

(** [startTransaction(options)]. *)
Definition startTransaction (options : Arg) : M Thenable :=
  defineTransaction [AValue (VStr "NEW"); options].

(** Names bound in the scope of the module: its declarations and the
    parameters of the wrapper Node puts around a module. *)
Definition moduleScope : list string :=
  ["exports"; "require"; "module"; "__filename"; "__dirname";
   "Promise"; "_"; "zlog"; "logger"; "transactionId"; "transactions";
   "TransactionHandler"; "getInstanceMethods"; "Transaction";
   "constructInnerTransaction"; "constructMainTransaction"; "formatName";
   "DefaultTransactionImplementationClass"; "defineTransaction";
   "createTransaction"; "startTransaction"; "reUseOrCreateTransaction";
   "getCoreTransactionClass"; "setTransactionImplementationClass"].

(** Reading an identifier that no enclosing scope of the module binds: it
    is a property of the global object, or a ReferenceError. *)
Definition readFreeIdentifier (x : string) : M Arg :=
  λ s, match globals s !! x with
       | Some a => (Ok a, s)
       | None => (Thrown (VReferenceError x), s)
       end.

(** [function reUseOrCreateTransaction() {
       return defineTransaction('REUSE_OR_NEW', parentTransaction, options); }]
    The function declares no parameter: whatever the call passes is in
    [arguments] only, and the two identifiers of the body are free. *)
Definition reUseOrCreateTransaction (arguments : list Arg) : M Thenable :=
  let* parentTransaction := readFreeIdentifier "parentTransaction" in
  let* options := readFreeIdentifier "options" in
  defineTransaction [AValue (VStr "REUSE_OR_NEW"); parentTransaction; options].

(** [setTransactionImplementationClass(implClass)]. *)
Definition setTransactionImplementationClass (implClass : Class) : M unit :=
  modify (with_default implClass).

(** ** Promise chains *)

(** [p.then(f)]: [f] runs on the value [p] fulfils with, and the new
    promise is resolved with what [f] returns or rejected with what it
    throws. *)
Definition then_ (p : Settlement) (f : Value → M Value) : State → Settlement * State :=
  λ s, match p with
       | Fulfilled v =>
           match f v s with
           | (Ok r, s') => (settle r, s')
           | (Thrown e, s') => (Rejected e, s')
           end
       | Rejected e => (Rejected e, s)
       | Pending => (Pending, s)
       end.

(** [p.catch(f)]. *)
Definition catch_ (p : Settlement) (f : Value → M Value) : State → Settlement * State :=
  λ s, match p with
       | Rejected e =>
           match f e s with
           | (Ok r, s') => (settle r, s')
           | (Thrown e', s') => (Rejected e', s')
           end
       | Fulfilled v => (Fulfilled v, s)
       | Pending => (Pending, s)
       end.

(** [p.finally(f)], for an [f] that does not throw. *)
Definition finally_ (p : Settlement) (f : State → State) : State → Settlement * State :=
  λ s, match p with
       | Pending => (Pending, s)
       | _ => (p, f s)
       end.

(** ** execute(processFn) *)

(** [callback(result)] of [onCommit]: runs [options.onCommit]; whatever
    goes wrong is logged, nothing is thrown. *)
Definition callback (tx : nat) (result : Value) (s : State) : State :=
  match heap s !! tx with
  | None => s
  | Some t =>
      let s1 := emit (EvLog info tx MsgOnCommit) s in
      match o_onCommit (options t) with
      | None => emit (EvLog error tx (MsgOnCommitFailed VTypeError)) s1
      | Some b =>
          let s2 := emit (EvOnCommit tx result) s1 in
          match b with
          | Throws e => emit (EvLog error tx (MsgOnCommitFailed e)) s2
          | Returns v =>
              match settle v with
              | Rejected e => emit (EvLog error tx (MsgOnCommitFailed e)) s2
              | _ => s2
              end
          end
      end
  end.

(** An entry of an [innerCommitStack], called: [fn()]. *)
Definition runDeferred (d : Deferred) (s : State) : State :=
  callback (d_transaction d) (d_result d) s.

(** [onCommit(result)], the continuation of the commit hook. *)
Definition onCommit (tx : nat) (result : Value) (s : State) : State :=
  match heap s !! tx with
  | None => s
  | Some t =>
      match o_onCommit (options t) with
      | None => s
      | Some _ =>
          match parentTransaction t with
          | Some p =>
              with_heap
                (alter (λ q, set_innerCommitStack
                               (innerCommitStack q ++ innerCommitStack t
                                  ++ [{| d_transaction := tx; d_result := result |}]) q) p) s
          | None =>
              callback tx result
                (foldl (λ acc d, runDeferred d acc) s (innerCommitStack t))
          end
      end
  end.

(** [onRollback()], the continuation of the rollback hook. *)
Definition onRollback (tx : nat) (s : State) : State :=
  match heap s !! tx with
  | None => s
  | Some t =>
      match o_onRollback (options t) with
      | None => s
      | Some b =>
          let s1 := emit (EvOnRollback tx) (emit (EvLog info tx MsgOnRollback) s) in
          match b with
          | Throws e => emit (EvLog error tx (MsgOnRollbackFailed e)) s1
          | Returns v =>
              match settle v with
              | Rejected e => emit (EvLog error tx (MsgOnRollbackFailed e)) s1
              | _ => s1
              end
          end
      end
  end.

Definition runJob (j : Job) (s : State) : State :=
  match j with
  | JOnCommit tx result => onCommit tx result s
  | JOnRollback tx => onRollback tx s
  end.

(** Runs the queued continuations, oldest first. *)
Definition drain (s : State) : State :=
  foldl (λ acc j, runJob j acc) (with_microtasks [] s) (microtasks s).

(** [Promise.resolve(hookResult).then(job)], not chained any further.
    For a result that is no thenable the promise is fulfilled already and
    the job is queued at once; for a thenable that fulfils, the job waits
    until it does; a rejection has no handler; a result that never settles
    leaves nothing behind. *)
Definition thenDetached (hookResult : Value) (j : Job) : M unit :=
  match settle hookResult with
  | Fulfilled _ =>
      if isThenable hookResult
      then modify (λ s, with_awaited (awaited s ++ [j]) s)
      else modify (λ s, with_microtasks (microtasks s ++ [j]) s)
  | Rejected e => modify (emit (EvUnhandledRejection e))
  | Pending => ret tt
  end.

(** A thenable that a hook returned fulfils: the continuation that waited
    for it, the [n]-th of those waiting, runs. *)
Definition hookFulfils (n : nat) (s : State) : State :=
  match awaited s !! n with
  | Some j => runJob j (with_awaited (delete n (awaited s)) s)
  | None => s
  end.

(** Calling one of [impl]'s hooks. *)
Definition callHook (h : HookName) (tx : nat) (b : Behaviour) : M Value :=
  modify (emit (EvHook h tx));;
  match b with
  | Returns v => ret v
  | Throws e => throw e
  end.

(** [processBegin()]: always returns a promise. *)
Definition processBegin (tx : nat) : State → Settlement * State :=
  λ s, match (let* t := deref tx in
              logger info tx MsgBegin;;
              callHook hookBegin tx (processBeginHook (impl t))) s with
       | (Ok result, s') => (settle result, s')
       | (Thrown err, s') => (Rejected err, s')
       end.

(** [new TransactionHandler(thisTransaction)]. *)
Definition newTransactionHandler (s : State) (t : Transaction) : TransactionHandler :=
  {| h_id := id t;
     h_parent := p ← parentTransaction t; pt ← heap s !! p; h_id <$> handler pt;
     h_methods := getInstanceMethods (prototypeChain t) (p_address transactionPrototype) |}.

(** [processExecution()]: what it returns, paired with the value it left
    in the variable [processResult] of [execute]. *)
Definition processExecution (tx : nat) (processFn : TransactionHandler → M Value)
  : M (Value * Value) :=
  let* t := deref tx in
  let* h := gets (λ s, newTransactionHandler s t) in
  modify (with_heap (alter (set_handler h) tx));;
  let* result := processFn h in
  if isObject result && isThenable result
  then ret (result, result)
  else ret (VRejects (VStr "TRANSACTION_EXECUTION_NOT_RETURNING_A_PROMISE"), VUndefined).

(** [processCommit(result)]. *)
Definition processCommit (tx : nat) (result : Value) : M Value :=
  let* t := deref tx in
  let* anyRunning := gets (λ s, someStatus s running (innerTransactions t)) in
  if anyRunning then
    logger error tx MsgInnerNotCompleted;;
    throw (VError "INNER_TRANSACTION_NOT_AWAITED")
  else
    let* parentDone :=
      gets (λ s, match parentTransaction t with
                 | Some p => negb (hasStatus s running p)
                 | None => false
                 end) in
    if parentDone then
      logger error tx MsgCommitAfterParent;;
      throw (VError "INNER_TRANSACTION_NOT_AWAITED")
    else
      let* anyRolledBack := gets (λ s, someStatus s rolledback (innerTransactions t)) in
      if anyRolledBack then
        throw (VError "INNER_TRANSACTION_ROLLED_BACK")
      else
        logger info tx MsgCommit;;
        let* r := callHook hookCommit tx (processCommitHook (impl t)) in
        thenDetached r (JOnCommit tx result);;
        modify (with_heap (alter (set_status committed) tx));;
        match parentTransaction t with
        | Some p =>
            (* _.remove(parent.innerTransactions, thisTransaction) *)
            modify (with_heap
                      (alter (λ q, set_innerTransactions
                                     (filter (λ a, a ≠ tx) (innerTransactions q)) q) p))
        | None => ret tt
        end;;
        ret result.

(** [err.message], [err.stack]: reading a property of undefined or null
    throws. *)
Definition isNullish (v : Value) : bool :=
  match v with
  | VUndefined | VNull => true
  | _ => false
  end.

(** [processRollback(err)]. *)
Definition processRollback (tx : nat) (err : Value) : M Value :=
  let* t := deref tx in
  if isNullish err then throw VTypeError
  else
    logger warn tx (MsgRollBack err);;
    logger trace tx (MsgRollBackError err);;
    let* r := callHook hookRollback tx (processRollbackHook (impl t)) in
    thenDetached r (JOnRollback tx);;
    rollback tx err.

(** A callback of the chain followed by the continuations it queued,
    which run before the callback of the next promise of the chain. *)
Definition andDrain (f : Value → M Value) (v : Value) : M Value :=
  λ s, let '(r, s') := f v s in (r, drain s').

(** The chain once the promise of the execution step is known to settle
    as [p1]: [.then(processCommit).then(() => processResult)
    .catch(processRollback)]. *)
Definition settleExecution (tx : nat) (p1 : Settlement) (processResult : Value)
  : State → Settlement * State :=
  λ s,
    let '(p2, s2) := then_ p1 (andDrain (processCommit tx)) s in
    let '(p3, s3) := then_ p2 (λ _, ret processResult) s2 in
    catch_ p3 (andDrain (processRollback tx)) s3.

(** [execute(processFn)]. *)
Definition execute (tx : nat) (processFn : TransactionHandler → M Value)
  : State → Settlement * State :=
  λ s,
    let '(p0, s0) := processBegin tx s in
    match p0 with
    | Fulfilled _ =>
        match processExecution tx processFn s0 with
        | (Ok (returned, processResult), s1) =>
            settleExecution tx (settle returned) processResult s1
        | (Thrown e, s1) => settleExecution tx (Rejected e) VUndefined s1
        end
    | _ => settleExecution tx p0 VUndefined s0
    end.

(** [then]/[execute] of the object returned by [createTransaction]:
    [transaction.execute(callback)
       .finally(() => delete transactions[transaction.id])]. *)
Definition thenableExecute (th : Thenable) (processFn : TransactionHandler → M Value)
  : State → Settlement * State :=
  λ s,
    let '(p, s') := execute (th_transaction th) processFn s in
    finally_ p (with_transactions (delete (th_transaction th))) s'.

(** Addresses are handed out by the counter: every object has an address
    below it. *)
Definition fresh (s : State) : Prop :=
  ∀ a, is_Some (heap s !! a) → a < transactionId s.

(** What [createTransaction] leaves behind when it made a root
    transaction with options [o] out of state [s]: a new object under the
    id the counter held, built from the class the options choose, the
    counter advanced, the object registered, and nothing else changed. *)
Definition isNewRootWith (s : State) (o : Options) (out : Result Thenable * State) : Prop :=
  ∃ s' t,
    out = (Ok {| th_transaction := transactionId s |}, s')
    ∧ heap s' !! transactionId s = Some t
    ∧ id t = transactionId s
    ∧ parentTransaction t = None
    ∧ level t = 0
    ∧ status t = running
    ∧ options t = o
    ∧ impl t = implOf (chosenClass o s) None
    ∧ prototypeChain t = c_chain (chosenClass o s)
    ∧ innerTransactions t = [] ∧ innerCommitStack t = [] ∧ handler t = None
    ∧ transactionId s' = S (transactionId s)
    ∧ transactions s' = <[transactionId s := transactionId s]> (transactions s)
    ∧ transactions s' !! transactionId s = Some (transactionId s)
    ∧ (∀ a, a ≠ transactionId s → heap s' !! a = heap s !! a)
    ∧ (fresh s → heap s !! transactionId s = None).

Definition isNewRoot (s : State) (out : Result Thenable * State) : Prop :=
  ∃ o, isNewRootWith s o out.


(** A transaction with its [innerCommitStack] emptied: what the
    continuations of the hooks leave untouched. *)
Definition eraseStack (t : Transaction) : Transaction := set_innerCommitStack [] t.

(** The state after the two log calls and the hook call of
    [processRollback]. *)
Definition rollbackAnnounced (tx : nat) (err : Value) (s : State) : State :=
  emit (EvHook hookRollback tx)
    (emit (EvLog trace tx (MsgRollBackError err))
       (emit (EvLog warn tx (MsgRollBack err)) s)).

(** The state after [thenDetached]. *)
Definition detached (hookResult : Value) (j : Job) (s : State) : State :=
  match settle hookResult with
  | Fulfilled _ =>
      if isThenable hookResult
      then with_awaited (awaited s ++ [j]) s
      else with_microtasks (microtasks s ++ [j]) s
  | Rejected e => emit (EvUnhandledRejection e) s
  | Pending => s
  end.

(** The state after the commit step's log and hook calls. *)
Definition commitAnnounced (tx : nat) (s : State) : State :=
  emit (EvHook hookCommit tx) (emit (EvLog info tx MsgCommit) s).

(** [_.remove(parent.innerTransactions, thisTransaction)], when there is a
    parent. *)
Definition detachFromParent (tx : nat) (parent : option nat) (s : State) : State :=
  match parent with
  | Some p =>
      with_heap (alter (λ q, set_innerTransactions
                               (filter (λ a, a ≠ tx) (innerTransactions q)) q) p) s
  | None => s
  end.


(** The three pre-checks of [processCommit], as the code evaluates them. *)
Definition anyInner (s : State) (t : Transaction) (st : Status) : Prop :=
  ∃ a, a ∈ innerTransactions t ∧ statusOf s a = Some st.


Definition parentRunning (s : State) (t : Transaction) : Prop :=
  ∀ p, parentTransaction t = Some p → statusOf s p = Some running.


(** What [createTransaction] leaves behind when it made an inner
    transaction of [p], instantiated from class [c] with options [o]. *)
Definition isNewInner (s : State) (p : nat) (c : Class) (o : Options)
    (out : Result Thenable * State) : Prop :=
  ∃ s' t,
    out = (Ok {| th_transaction := transactionId s |}, s')
    ∧ heap s' !! transactionId s = Some t
    ∧ parentTransaction t = Some p
    ∧ status t = running
    ∧ impl t = implOf c (Some p)
    ∧ options t = o.

(** The class an inner transaction gets when its own options name none:
    the [DefaultImplementationClass] of the parent's options, or the
    module's default. *)
Definition inheritedClass (s : State) (t : Transaction) : Class :=
  match readDefaultImplementationClass (options t) with
  | Some d => d
  | None => DefaultTransactionImplementationClass s
  end.

(** ** The operations as a sequence of synchronous steps

    Every run of the library is a sequence of its synchronous steps: the
    calls the caller makes (the coordinator functions, [startInner] and
    [rollback] through a handler) and the callbacks of the promise chain of
    [execute], in whatever order the promises settle, among them the
    thenables that hooks returned. *)

Inductive Op : Type :=
| OpDefineTransaction (arguments : list Arg)
| OpReUseOrCreateTransaction (arguments : list Arg)
| OpSetTransactionImplementationClass (c : Class)
| OpStartInner (tx : nat) (innerOptions : Arg)
| OpRollback (tx : nat) (err : Value)
| OpProcessBegin (tx : nat)
| OpProcessExecution (tx : nat) (returned : Behaviour)
| OpProcessCommit (tx : nat) (result : Value)
| OpProcessRollback (tx : nat) (err : Value)
| OpContinuations
| OpUnregister (tx : nat)
| OpExecute (tx : nat) (returned : Behaviour)
| OpHookFulfils (n : nat).

(** Protected code without effects of its own. *)
Definition behaves (b : Behaviour) : TransactionHandler → M Value :=
  λ _, match b with
       | Returns v => ret v
       | Throws e => throw e
       end.

Definition step (op : Op) (s : State) : State :=
  match op with
  | OpDefineTransaction arguments => (defineTransaction arguments s).2
  | OpReUseOrCreateTransaction arguments => (reUseOrCreateTransaction arguments s).2
  | OpSetTransactionImplementationClass c => (setTransactionImplementationClass c s).2
  | OpStartInner tx innerOptions => (startInner tx innerOptions s).2
  | OpRollback tx err => (rollback tx err s).2
  | OpProcessBegin tx => (processBegin tx s).2
  | OpProcessExecution tx returned => (processExecution tx (behaves returned) s).2
  | OpProcessCommit tx result => (processCommit tx result s).2
  | OpProcessRollback tx err => (processRollback tx err s).2
  | OpContinuations => drain s
  | OpUnregister tx => with_transactions (delete tx) s
  | OpExecute tx returned =>
      (thenableExecute {| th_transaction := tx |} (behaves returned) s).2
  | OpHookFulfils n => hookFulfils n s
  end.

Definition run (ops : list Op) (s : State) : State :=
  foldl (λ acc op, step op acc) s ops.

(** A status that has left [running] has not come back to it. *)
Definition noRevival (s s' : State) : Prop :=
  ∀ a st, statusOf s a = Some st → st ≠ running →
          ∃ st', statusOf s' a = Some st' ∧ st' ≠ running.

(** What every step of the library keeps: the global object is not
    written to, addresses stay below the counter, and no status comes back
    to [running]. *)
Definition sound (s s' : State) : Prop :=
  globals s' = globals s ∧ (fresh s → fresh s' ∧ noRevival s s').

Definition soundM {A} (m : M A) : Prop := ∀ s, sound s (m s).2.

Definition soundS (c : State → Settlement * State) : Prop := ∀ s, sound s (c s).2.

(** ** Protected code and implementation classes of the scenarios *)

(** The promise a caller holds for a chain that settles as [p]. *)
Definition promiseOf (p : Settlement) : Value :=
  match p with
  | Fulfilled v => VFulfils v
  | Rejected e => VRejects e
  | Pending => VNeverSettles
  end.

Definition asPromise (c : State → Settlement * State) : M Value :=
  λ s, let '(p, s') := c s in (Ok (promiseOf p), s').

(** [promise.catch((err) => err)]. *)
Definition caught (v : Value) : Value :=
  match settle v with
  | Rejected e => promiseOf (settle e)
  | p => promiseOf p
  end.

(** [() => Promise.resolve()] and [() => Promise.reject('A PROCESS ERROR')]
    of the test suite. *)
Definition successfullProcess : TransactionHandler → M Value :=
  λ _, ret (VFulfils VUndefined).

Definition failedProcess : TransactionHandler → M Value :=
  λ _, ret (VRejects (VStr "A PROCESS ERROR")).

Definition noArgument : Arg := AValue VUndefined.

Definition withOnCommit : Options :=
  {| o_name := None; o_onCommit := Some (Returns (VBool true)); o_onRollback := None;
     o_implementationClass := None; o_DefaultImplementationClass := None |}.

Definition withCallbacks : Options :=
  {| o_name := None; o_onCommit := Some (Returns (VBool true));
     o_onRollback := Some (Returns (VBool true));
     o_implementationClass := None; o_DefaultImplementationClass := None |}.

Definition withClass (c : Class) : Options :=
  {| o_name := None; o_onCommit := Some (Returns (VBool true));
     o_onRollback := Some (Returns (VBool true));
     o_implementationClass := Some c; o_DefaultImplementationClass := None |}.

(** An implementation whose commit and rollback hooks return promises
    that reject. *)
Definition rejectingHooksClass : Class :=
  {| className := "RejectingHooks";
     c_chain := extendsTransaction (plainPrototype 5);
     c_processBegin := noop;
     c_processCommit := Returns (VRejects (VError "COMMIT_FAILED"));
     c_processRollback := Returns (VRejects (VError "ROLLBACK_FAILED"));
     c_processInnerBegin := noop; c_processInnerCommit := noop;
     c_processInnerRollback := noop |}.


(** An implementation whose rollback hook throws. *)
Definition rollbackThrowsClass : Class :=
  {| className := "RollbackThrows";
     c_chain := extendsTransaction (plainPrototype 7);
     c_processBegin := noop; c_processCommit := noop;
     c_processRollback := Throws (VError "ROLLBACK_FAILED");
     c_processInnerBegin := noop; c_processInnerCommit := noop;
     c_processInnerRollback := noop |}.

(** An implementation told apart from the default by what its hooks
    return. *)
Definition otherClass : Class :=
  {| className := "Other";
     c_chain := extendsTransaction (plainPrototype 8);
     c_processBegin := Returns (VStr "other"); c_processCommit := Returns (VStr "other");
     c_processRollback := Returns (VStr "other");
     c_processInnerBegin := Returns (VStr "other");
     c_processInnerCommit := Returns (VStr "other");
     c_processInnerRollback := Returns (VStr "other") |}.

(** The state after [startTransaction(options)] on a freshly loaded
    module: the transaction has id 1. *)
Definition started (options : Arg) : State :=
  (startTransaction options initialState).2.

Definition root : Thenable := {| th_transaction := 1 |}.

(** The object at an address of a scenario state. *)
Definition blank : Transaction :=
  {| id := 0; parentTransaction := None; level := 0; status := running;
     options := emptyOptions; innerTransactions := []; innerCommitStack := [];
     impl := implOf LibraryDefaultClass None; name := ""; display := "";
     handler := None; prototypeChain := [] |}.

Definition objectAt (s : State) (a : nat) : Transaction :=
  default blank (heap s !! a).

(** [startTransaction().execute(successfullProcess)]. *)
Definition committedRoot : State :=
  (thenableExecute root successfullProcess (started noArgument)).2.

(** [startTransaction().execute((h) => h.startInner({onCommit})
      .execute(successfullProcess))]: the root has no [onCommit], its
    inner transaction has one. *)
Definition innerWithOnCommit : TransactionHandler → M Value :=
  λ h, let* th := startInner (h_id h) (AOptions withOnCommit) in
       asPromise (thenableExecute th successfullProcess).


(** The same without the idle one: the test "should rollback due to inner
    transaction rollback even if the inner transaction promise does not
    reject". *)
Definition oneRolledBack : TransactionHandler → M Value :=
  λ h, let* th := startInner (h_id h) noArgument in
       let* p := asPromise (thenableExecute th failedProcess) in
       ret (caught p).

(** [execute((h) => { let inner;
      return h.startInner().execute((hi) => { inner = hi; return Promise.resolve(); })
        .then(() => { try { inner.rollback(); } catch (err) {} }); })]:
    the inner transaction commits and its handler's [rollback] is called
    afterwards. *)
Definition rolledBackAfterCommit : TransactionHandler → M Value :=
  λ h, let* th := startInner (h_id h) noArgument in
       let* p := asPromise (thenableExecute th successfullProcess) in
       modify (λ s, (rollback (th_transaction th) VUndefined s).2);;
       ret p.

(** Options that only name a [DefaultImplementationClass]. *)
Definition withOwnDefault (c : Class) : Options :=
  {| o_name := None; o_onCommit := None; o_onRollback := None;
     o_implementationClass := None; o_DefaultImplementationClass := Some (Some c) |}.


(** A root with [onCommit], an inner transaction without, and below it
    one with [onCommit]; all awaited. *)
Definition leafUnderPlainMiddle : TransactionHandler → M Value :=
  λ h, let* middle := startInner (h_id h) noArgument in
       asPromise (thenableExecute middle innerWithOnCommit).

(** [startInner().execute(...)] whose promise the protected code drops:
    only the synchronous part of [execute], the begin step, has run when
    the protected code returns. *)
Definition startedOnly (h : TransactionHandler) : M unit :=
  let* th := startInner (h_id h) noArgument in
  modify (λ s, (processBegin (th_transaction th) s).2).

(** "should fail due to a transaction process not returning a promise". *)
Definition innerWithoutReturn : TransactionHandler → M Value :=
  λ h, startedOnly h;; ret VUndefined.

(** "should not commit the main transaction due to inner transaction has
    not completed and was not awaited". *)
Definition innerNotAwaited : TransactionHandler → M Value :=
  λ h, startedOnly h;; ret (VFulfils VUndefined).

(** "should commit all transactions". *)
Definition innerAwaited : TransactionHandler → M Value :=
  λ h, let* th := startInner (h_id h) noArgument in
       asPromise (thenableExecute th successfullProcess).

(** "should rollback due to inner transaction rollback". *)
Definition innerFails : TransactionHandler → M Value :=
  λ h, let* th := startInner (h_id h) noArgument in
       asPromise (thenableExecute th failedProcess).

(** The state in which the commit step of transaction 1 runs, for
    options [options] and protected code [processFn]. *)
Definition atCommitTimeWith (options : Arg) (processFn : TransactionHandler → M Value)
  : State :=
  (processExecution 1 processFn (processBegin 1 (started options)).2).2.

Definition atCommitTime (processFn : TransactionHandler → M Value) : State :=
  atCommitTimeWith noArgument processFn.

(** The runs and states the statements below are evaluated on. *)

Definition handlerOfRoot : TransactionHandler :=
  {| h_id := 1; h_parent := None; h_methods := [] |}.

Definition lostOnCommitRun : Settlement * State :=
  thenableExecute root innerWithOnCommit (started noArgument).

Definition lostUnderMiddleRun : Settlement * State :=
  thenableExecute root leafUnderPlainMiddle (started (AOptions withOnCommit)).

Definition rejectingHooksStarted : State :=
  started (AOptions (withClass rejectingHooksClass)).






Definition rolledBackOffTheList : State := atCommitTime rolledBackAfterCommit.

Definition rollbackThrowsStarted : State :=
  started (AOptions (withClass rollbackThrowsClass)).


Definition ownDefaultRun : Result Thenable * State :=
  startInner 1 (AOptions (withOwnDefault otherClass)) rejectingHooksStarted.

(** The operations up to the point where the protected code of the first
    transaction runs. *)
Definition upToExecution : list Op :=
  [OpDefineTransaction [AValue (VStr "NEW")]; OpProcessBegin 1;
   OpProcessExecution 1 (Returns (VFulfils VUndefined))].

(** A second round of [execute] on a committed transaction, and an inner
    transaction started from it. *)
Definition afterTheCommit : list Op :=
  [OpProcessBegin 1; OpProcessExecution 1 (Returns (VFulfils VUndefined));
   OpProcessCommit 1 VUndefined; OpContinuations; OpStartInner 1 noArgument].

(** ** What the constructor fixes for good, and the shape of the heap *)

(** The fields no function of the library assigns after the constructor. *)
Definition sameIdentity (t t' : Transaction) : Prop :=
  id t' = id t ∧ parentTransaction t' = parentTransaction t ∧ level t' = level t
  ∧ options t' = options t ∧ impl t' = impl t ∧ name t' = name t
  ∧ display t' = display t ∧ prototypeChain t' = prototypeChain t.

(** [h] is a handler made for [t]: bound to it, with the methods of its
    classes, and with the handler of its parent, if with any. *)
Definition handlerOf (t : Transaction) (h : TransactionHandler) : Prop :=
  h_id h = id t
  ∧ h_methods h = getInstanceMethods (prototypeChain t) (p_address transactionPrototype)
  ∧ ∀ p, h_parent h = Some p → parentTransaction t = Some p.

(** Every object of [s] is still there in [s'], with these fields as they
    were. *)
Definition persists (s s' : State) : Prop :=
  ∀ a t, heap s !! a = Some t → ∃ t', heap s' !! a = Some t' ∧ sameIdentity t t'.

(** The shape the library gives the heap and the registry. *)
Record wellFormed (s : State) : Prop := {
  wf_id : ∀ a t, heap s !! a = Some t → id t = a ∧ 0 < a ∧ a < transactionId s;
  wf_counter : 0 < transactionId s;
  wf_parent : ∀ a t p, heap s !! a = Some t → parentTransaction t = Some p →
      ∃ tp, heap s !! p = Some tp ∧ level t = level tp + 1 ∧ p < a
            ∧ implParent (impl t) = Some p
            ∧ ∃ suffix, name t = (name tp ++ "/" ++ suffix)%string;
  wf_root : ∀ a t, heap s !! a = Some t → parentTransaction t = None →
      level t = 0 ∧ implParent (impl t) = None;
  wf_display : ∀ a t, heap s !! a = Some t → display t = formatName (name t);
  wf_handler : ∀ a t h, heap s !! a = Some t → handler t = Some h → handlerOf t h;
  wf_registry : ∀ k v, transactions s !! k = Some v → k = v ∧ is_Some (heap s !! v);
  wf_inner : ∀ a t c, heap s !! a = Some t → c ∈ innerTransactions t →
      ∃ tc, heap s !! c = Some tc ∧ parentTransaction tc = Some a;
}.

(** What a step does to a well-formed state. *)
Definition steady (s s' : State) : Prop :=
  wellFormed s →
  wellFormed s' ∧ persists s s' ∧ (transactionId s ≤ transactionId s')%nat.

Definition steadyM {A} (m : M A) : Prop := ∀ s, steady s (m s).2.

Definition steadyS (c : State → Settlement * State) : Prop := ∀ s, steady s (c s).2.

(** An object and what a setter made of it. *)
Definition touched (q t' : Transaction) : Prop :=
  sameIdentity q t'
  ∧ (∀ c, c ∈ innerTransactions t' → c ∈ innerTransactions q)
  ∧ (∀ h, handler t' = Some h → handler q = Some h ∨ handlerOf q h).

(** A step that rewrites objects in place: same addresses, same counter,
    same registry. *)
Definition inPlace (s s' : State) : Prop :=
  (∀ b q, heap s !! b = Some q → ∃ t', heap s' !! b = Some t' ∧ touched q t')
  ∧ (∀ b t', heap s' !! b = Some t' → ∃ q, heap s !! b = Some q ∧ touched q t')
  ∧ transactionId s' = transactionId s
  ∧ transactions s' = transactions s.

(** The transaction reached from [a] by following [parentTransaction]
    [n] times. *)
Fixpoint ancestor (s : State) (n : nat) (a : nat) : option nat :=
  match n with
  | 0 => Some a
  | S n' => t ← heap s !! a; p ← parentTransaction t; ancestor s n' p
  end.

(** A root, an inner transaction of it and one below that, the upper two
    inside their protected code. *)
Definition nestedOps : list Op :=
  [OpDefineTransaction [AValue (VStr "NEW"); AOptions withOnCommit];
   OpProcessBegin 1; OpProcessExecution 1 (Returns (VFulfils VUndefined));
   OpStartInner 1 noArgument;
   OpProcessBegin 2; OpProcessExecution 2 (Returns (VFulfils VUndefined));
   OpStartInner 2 (AOptions withOnCommit)].

Definition nested : State := run nestedOps initialState.

(** What the upper two do next: the one in the middle commits. *)
Definition middleCommits : list Op :=
  [OpProcessCommit 2 VUndefined; OpContinuations; OpUnregister 2].

(** The first transaction inside its protected code. *)
Definition executing : State := run upToExecution initialState.

(** Options that only give a name. *)
Definition named (n : string) : Options :=
  {| o_name := Some n; o_onCommit := None; o_onRollback := None;
     o_implementationClass := None; o_DefaultImplementationClass := None |}.

(** The state after the begin step: its log line and the call of the
    begin hook. *)
Definition begun (tx : nat) (s : State) : State :=
  emit (EvHook hookBegin tx) (emit (EvLog info tx MsgBegin) s).

(** The state in which the protected code of [tx] starts: the begin
    step has run and the handler is in place. *)
Definition entered (tx : nat) (t : Transaction) (s : State) : State :=
  with_heap (alter (set_handler (newTransactionHandler s t)) tx) (begun tx s).





(** An implementation whose commit and rollback hooks return promises
    that fulfil. *)
Definition promisingHooksClass : Class :=
  {| className := "PromisingHooks";
     c_chain := extendsTransaction (plainPrototype 11);
     c_processBegin := noop;
     c_processCommit := Returns (VFulfils VUndefined);
     c_processRollback := Returns (VFulfils VUndefined);
     c_processInnerBegin := noop;
     c_processInnerCommit := Returns (VFulfils VUndefined);
     c_processInnerRollback := Returns (VFulfils VUndefined) |}.

(** Options that name both an [implementationClass] and a
    [DefaultImplementationClass], and roots made with an override. *)
Definition withClassAndDefault (c d : Class) : Options :=
  {| o_name := None; o_onCommit := None; o_onRollback := None;
     o_implementationClass := Some c; o_DefaultImplementationClass := Some (Some d) |}.

Definition overriddenWithDefault : State :=
  started (AOptions (withClassAndDefault otherClass promisingHooksClass)).

Definition overridden : State := started (AOptions (withClass otherClass)).



(** [() => Promise.reject()]. *)
Definition rejectsWithoutReason : TransactionHandler → M Value :=
  λ _, ret (VRejects VUndefined).

(** [() => { throw 'A PROCESS ERROR'; }]. *)
Definition throwingProcess : TransactionHandler → M Value :=
  λ _, throw (VStr "A PROCESS ERROR").

(** A root with both callbacks, not yet executed. *)
Definition startedWithCallbacks : State := started (AOptions withCallbacks).

(** ** The methods a handler exposes *)

(** [obj[name]] for an object without own properties: the property of the
    first prototype of the chain that has one of that name. *)
Fixpoint getProperty (chain : list Prototype) (name : string) : option Property :=
  match chain with
  | [] => None
  | proto :: rest =>
      match list_find (λ entry, entry.1 = name) (p_own proto) with
      | Some (_, entry) => Some entry.2
      | None => getProperty rest name
      end
  end.

(** The prototype of [TransactionImplementation] of the test suite, which
    adds [query] to what [Transaction] declares. *)
Definition implementationPrototype : Prototype :=
  {| p_address := 2;
     p_own := [("constructor", PMethod 20); ("query", PMethod 21)] |}.

(** A class extending [TransactionImplementation] that overrides [query]
    and declares a method [id], a getter and a constant. *)
Definition extendedPrototype : Prototype :=
  {| p_address := 3;
     p_own := [("constructor", PMethod 30); ("query", PMethod 31); ("id", PMethod 32);
               ("client", PAccessor)] |}.

Definition extendedChain : list Prototype :=
  [extendedPrototype; implementationPrototype; transactionPrototype; objectPrototype].


(** The class [TransactionImplementation] of the test suite, and a class
    extending it that declares a method named [id]. *)
Definition queryClass : Class :=
  {| className := "TransactionImplementation";
     c_chain := extendsTransaction implementationPrototype;
     c_processBegin := noop; c_processCommit := noop; c_processRollback := noop;
     c_processInnerBegin := noop; c_processInnerCommit := noop;
     c_processInnerRollback := noop |}.

Definition extendedClass : Class :=
  {| className := "Extended";
     c_chain := extendedChain;
     c_processBegin := noop; c_processCommit := noop; c_processRollback := noop;
     c_processInnerBegin := noop; c_processInnerCommit := noop;
     c_processInnerRollback := noop |}.

(** A root of class [extendedClass] inside its protected code, and its
    handler. *)
Definition extendedOps : list Op :=
  [OpDefineTransaction [AValue (VStr "NEW"); AOptions (withClass extendedClass)];
   OpProcessBegin 1; OpProcessExecution 1 (Returns (VFulfils VUndefined))].

Definition extendedExecuting : State := run extendedOps initialState.

Definition extendedHandler : TransactionHandler :=
  {| h_id := 1; h_parent := None;
     h_methods := [("query", 31); ("id", 32); ("query", 21)] |}.

(** The calls of [onCommit] callbacks among recorded events, in order:
    the transaction and the result each was called with. *)
Definition onCommitCalls (l : list Event) : list (nat * Value) :=
  omap (λ e, match e with
             | EvOnCommit tx result => Some (tx, result)
             | _ => None
             end) l.

(** [thisTransaction.options.onCommit] holds something to call. *)
Definition hasOnCommit (s : State) (a : nat) : bool :=
  match heap s !! a with
  | Some t => bool_decide (is_Some (o_onCommit (options t)))
  | None => false
  end.

(** The call a deferred entry stands for. *)
Definition deferredCall (d : Deferred) : nat * Value := (d_transaction d, d_result d).

(** All three levels of [nestedOps] with [onCommit], the lower two
    committed: the state in which the root commits, and the root's commit
    continuation run on it. *)
Definition nestedWithOnCommit : list Op :=
  [OpDefineTransaction [AValue (VStr "NEW"); AOptions withOnCommit];
   OpProcessBegin 1; OpProcessExecution 1 (Returns (VFulfils VUndefined));
   OpStartInner 1 (AOptions withOnCommit);
   OpProcessBegin 2; OpProcessExecution 2 (Returns (VFulfils VUndefined));
   OpStartInner 2 (AOptions withOnCommit);
   OpExecute 3 (Returns (VFulfils (VStr "leaf")));
   OpProcessCommit 2 (VStr "middle"); OpContinuations].

Definition rootAboutToCommit : State := run nestedWithOnCommit initialState.

(** ** What the lists of a transaction hold *)

(** [innerTransactions] lists a transaction once, and none that has
    committed; an entry of [innerCommitStack] stands for a transaction with
    an [onCommit] option. *)
Record orderly (s : State) : Prop := {
  or_nodup : ∀ a t, heap s !! a = Some t → NoDup (innerTransactions t);
  or_open : ∀ a t c, heap s !! a = Some t → c ∈ innerTransactions t →
      statusOf s c ≠ Some committed;
  or_stack : ∀ a t d, heap s !! a = Some t → d ∈ innerCommitStack t →
      hasOnCommit s (d_transaction d) = true;
}.

Definition neat (s s' : State) : Prop :=
  steady s s' ∧ (wellFormed s → orderly s → orderly s').

Definition neatM {A} (m : M A) : Prop := ∀ s, neat s (m s).2.

Definition neatS (c : State → Settlement * State) : Prop := ∀ s, neat s (c s).2.

(** An object after a step that neither commits it nor touches its
    [innerTransactions], and adds to its [innerCommitStack] only entries
    with an [onCommit]. *)
Definition carried (s : State) (q t' : Transaction) : Prop :=
  innerTransactions t' = innerTransactions q
  ∧ options t' = options q
  ∧ (status t' = committed → status q = committed)
  ∧ (∀ d, d ∈ innerCommitStack t' →
          d ∈ innerCommitStack q ∨ hasOnCommit s (d_transaction d) = true).

(** The module variables and the set of objects: what [execute] leaves
    alone. *)
Definition sameModule (s s' : State) : Prop :=
  transactionId s' = transactionId s
  ∧ transactions s' = transactions s
  ∧ DefaultTransactionImplementationClass s' = DefaultTransactionImplementationClass s
  ∧ globals s' = globals s
  ∧ ∀ a, is_Some (heap s' !! a) ↔ is_Some (heap s !! a).

Definition sameModuleM {A} (m : M A) : Prop := ∀ s, sameModule s (m s).2.

(** * Properties *)

(** Closed statements about a run of the model are settled by running it. *)
Ltac by_evaluation := repeat split; vm_compute; reflexivity.

Lemma bind_ret {A B} (a : A) (k : A → M B) (s : State) : bind (ret a) k s = k a s.
Proof. reflexivity. Qed.

Lemma bind_gets {A B} (f : State → A) (k : A → M B) (s : State) :
  bind (gets f) k s = k (f s) s.
Proof. reflexivity. Qed.

Lemma bind_modify {B} (f : State → State) (k : unit → M B) (s : State) :
  bind (modify f) k s = k tt (f s).
Proof. reflexivity. Qed.

Lemma bind_throw {A B} (e : Value) (k : A → M B) (s : State) :
  bind (throw e) k s = (Thrown e, s).
Proof. reflexivity. Qed.

Lemma bind_assoc {A B C} (m : M A) (f : A → M B) (g : B → M C) (s : State) :
  bind (bind m f) g s = bind m (λ x, bind (f x) g) s.
Proof. unfold bind. by destruct (m s) as [[a|e] s']. Qed.

Lemma bind_deref {B} (a : nat) (t : Transaction) (k : Transaction → M B) (s : State) :
  heap s !! a = Some t → bind (deref a) k s = k t s.
Proof. intros H. unfold bind, deref. by rewrite H. Qed.

Lemma createTransaction_root_with (o : Options) (s : State) :
  isNewRootWith s o (createTransaction None o s).
Proof.
  unfold isNewRootWith, createTransaction, newTransaction, bind, gets, modify, ret, deref.
  cbn. rewrite lookup_insert_eq. cbn.
  eexists _, _. split; [reflexivity|]. cbn.
  rewrite !lookup_insert_eq. repeat split; try reflexivity.
  - intros a Ha. by rewrite lookup_insert_ne.
  - intros Hf. destruct (heap s !! transactionId s) as [q|] eqn:E; [|done].
    specialize (Hf _ (mk_is_Some _ _ E)). lia.
Qed.

Lemma createTransaction_root (o : Options) (s : State) :
  isNewRoot s (createTransaction None o s).
Proof. exists o. apply createTransaction_root_with. Qed.

(** ** The scenarios of the test suite, on the model *)

Example test_should_commit :
  (thenableExecute root successfullProcess (started noArgument)).1 = Fulfilled VUndefined
  ∧ statusOf committedRoot 1 = Some committed
  ∧ transactions committedRoot = ∅.
Proof. by_evaluation. Qed.

Example test_should_commit_and_call_the_onCommit_option :
  events (thenableExecute root successfullProcess (started (AOptions withCallbacks))).2
  = [EvLog info 1 MsgBegin; EvHook hookBegin 1; EvLog info 1 MsgCommit;
     EvHook hookCommit 1; EvLog info 1 MsgOnCommit; EvOnCommit 1 VUndefined].
Proof. by_evaluation. Qed.

Example test_should_rollback_and_call_onRollback_option :
  (thenableExecute root failedProcess (started (AOptions withCallbacks))).1
  = Rejected (VStr "A PROCESS ERROR")
  ∧ events (thenableExecute root failedProcess (started (AOptions withCallbacks))).2
    = [EvLog info 1 MsgBegin; EvHook hookBegin 1;
       EvLog warn 1 (MsgRollBack (VStr "A PROCESS ERROR"));
       EvLog trace 1 (MsgRollBackError (VStr "A PROCESS ERROR"));
       EvHook hookRollback 1; EvLog info 1 MsgOnRollback; EvOnRollback 1].
Proof. by_evaluation. Qed.

Example test_should_commit_all_transactions :
  (thenableExecute root innerAwaited (started noArgument)).1 = Fulfilled VUndefined.
Proof. by_evaluation. Qed.

Example test_should_rollback_due_to_inner_transaction_rollback :
  (thenableExecute root innerFails (started noArgument)).1
  = Rejected (VStr "A PROCESS ERROR").
Proof. by_evaluation. Qed.

Example test_should_rollback_even_if_the_inner_promise_does_not_reject :
  (thenableExecute root oneRolledBack (started (AOptions withCallbacks))).1
  = Rejected (VError "INNER_TRANSACTION_ROLLED_BACK")
  ∧ EvOnCommit 1 VUndefined
    ∉ events (thenableExecute root oneRolledBack (started (AOptions withCallbacks))).2.
Proof.
  split; [vm_compute; reflexivity|].
  apply (bool_decide_unpack _). vm_compute. exact I.
Qed.

Example test_should_fail_due_to_a_process_not_returning_a_promise :
  (thenableExecute root innerWithoutReturn (started noArgument)).1
  = Rejected (VStr "TRANSACTION_EXECUTION_NOT_RETURNING_A_PROMISE").
Proof. by_evaluation. Qed.

Example test_should_not_commit_when_inner_was_not_awaited :
  (thenableExecute root innerNotAwaited (started noArgument)).1
  = Rejected (VError "INNER_TRANSACTION_NOT_AWAITED").
Proof. by_evaluation. Qed.

Example test_inner_started_after_the_commit_is_refused :
  (thenableExecute {| th_transaction := 2 |} successfullProcess
     (startInner 1 noArgument committedRoot).2).1
  = Rejected (VError "INNER_TRANSACTION_NOT_AWAITED").
Proof. by_evaluation. Qed.

(** ** The requirement policies of the coordinator *)

Lemma isString_true (a : Arg) (lit : string) :
  isString a lit = true ↔ a = AValue (VStr lit).
Proof.
  destruct a as [[]| |]; cbn; try (split; [discriminate | congruence]).
  rewrite String.eqb_eq. split; congruence.
Qed.

Lemma isString_false (a : Arg) (lit : string) :
  a ≠ AValue (VStr lit) → isString a lit = false.
Proof.
  intros Hne. destruct (isString a lit) eqn:E; [|done].
  by apply isString_true in E.
Qed.

(** C8: under [NEW], [defineTransaction] fails with
    [PARENT_TRANSACTION_MAY_NOT_BE_PROVIDED] when a handler is passed and
    otherwise creates a root transaction: a new object under the id the
    counter held (an address no object had, given that the addresses in use
    are below the counter), without parent, at level 0, running, with the
    options given and the module's default class added to them, built from
    the class these options choose, registered, with the counter advanced
    and every other object untouched; under [REUSE] it
    fails with [PARENT_TRANSACTION_NOT_PROVIDED] when the second argument
    is absent or is no TransactionHandler; for a requirement other than the
    three strings it fails with [TRANSACTION_REQUIREMENT_UNKNOWN]. *)
Theorem defineTransaction_requirement_checks (s : State) (arguments : list Arg) :
  let requirement := argument 0 arguments in
  let parentTransactionHandler := argument 1 arguments in
  (requirement = AValue (VStr "NEW") → isHandler parentTransactionHandler = true →
     defineTransaction arguments s
     = (Thrown (VError "PARENT_TRANSACTION_MAY_NOT_BE_PROVIDED"), s))
  ∧ (requirement = AValue (VStr "NEW") → isHandler parentTransactionHandler = false →
     isNewRootWith s
       (assignDefault (Some (DefaultTransactionImplementationClass s))
          (optionsOf (if Nat.eqb (length arguments) 2 then parentTransactionHandler
                      else argument 2 arguments)))
       (defineTransaction arguments s))
  ∧ (requirement = AValue (VStr "REUSE") → isHandler parentTransactionHandler = false →
     defineTransaction arguments s
     = (Thrown (VError "PARENT_TRANSACTION_NOT_PROVIDED"), s))
  ∧ (requirement ≠ AValue (VStr "NEW") → requirement ≠ AValue (VStr "REUSE") →
     requirement ≠ AValue (VStr "REUSE_OR_NEW") →
     defineTransaction arguments s
     = (Thrown (VError "TRANSACTION_REQUIREMENT_UNKNOWN"), s)).
Proof.
  intros requirement parentTransactionHandler.
  unfold defineTransaction. fold requirement parentTransactionHandler.
  repeat split.
  - intros -> Hh. cbn. rewrite Hh. reflexivity.
  - intros -> Hh. cbn. rewrite Hh. exact (createTransaction_root_with _ s).
  - intros -> Hh. cbn. by destruct parentTransactionHandler.
  - intros H1 H2 H3.
    rewrite (isString_false _ _ H1), (isString_false _ _ H2), (isString_false _ _ H3).
    reflexivity.
Qed.

(** C9: [defineTransaction('REUSE', handle, options)] with a handler
    whose id the registry no longer holds raises nothing: the lookup gives
    no parent and a fresh root transaction is created: a new object under
    the id the counter held (an address no object had, given that the
    addresses in use are below the counter), at level 0 and without parent,
    running, built from the class the options choose and registered, with
    the counter advanced and every other object, the handler's own
    transaction among them, untouched.  The id of the handler is what its
    [id] property holds: the number the constructor assigned, or nothing
    the registry can hold when the class declares a method named [id]. *)
Theorem defineTransaction_reuse_after_settlement
    (s : State) (arguments : list Arg) (h : TransactionHandler) :
  argument 0 arguments = AValue (VStr "REUSE") →
  argument 1 arguments = AHandler h →
  (∀ n, handlerId h = Some n → transactions s !! n = None) →
  isNewRootWith s
    (assignDefault (Some (DefaultTransactionImplementationClass s))
       (optionsOf (argument 2 arguments)))
    (defineTransaction arguments s).
Proof.
  intros H0 H1 Hreg. unfold defineTransaction. rewrite H0, H1. cbn -[handlerId].
  assert ((n ← handlerId h; transactions s !! n) = None) as ->.
  { destruct (handlerId h) as [n|]; [|done]. cbn. by apply Hreg. }
  exact (createTransaction_root_with _ s).
Qed.


(** ** The continuations only queue or run callbacks *)

Lemma callback_heap tx r s : heap (callback tx r s) = heap s.
Proof.
  unfold callback. destruct (heap s !! tx) as [t|]; [|done].
  destruct (o_onCommit (options t)) as [[v|e]|]; cbn; try done.
  by destruct (settle v).
Qed.

Lemma callback_events tx r s : events s `prefix_of` events (callback tx r s).
Proof.
  unfold callback. destruct (heap s !! tx) as [t|]; [|done].
  destruct (o_onCommit (options t)) as [[v|e]|]; cbn;
    try destruct (settle v); cbn;
    rewrite <- ?(assoc_L (++)); by apply prefix_app_r.
Qed.

Lemma callback_microtasks tx r s : microtasks (callback tx r s) = microtasks s.
Proof.
  unfold callback. destruct (heap s !! tx) as [t|]; [|done].
  destruct (o_onCommit (options t)) as [[v|e]|]; cbn; try done.
  by destruct (settle v).
Qed.

Lemma runDeferred_all_heap (l : list Deferred) s :
  heap (foldl (λ acc d, runDeferred d acc) s l) = heap s.
Proof.
  revert s. induction l as [|d l IH]; intros s; cbn; [done|].
  rewrite IH. apply callback_heap.
Qed.

Lemma runDeferred_all_events (l : list Deferred) s :
  events s `prefix_of` events (foldl (λ acc d, runDeferred d acc) s l).
Proof.
  revert s. induction l as [|d l IH]; intros s; cbn; [done|].
  etrans; [apply (callback_events (d_transaction d) (d_result d))|apply IH].
Qed.

Lemma runDeferred_all_microtasks (l : list Deferred) s :
  microtasks (foldl (λ acc d, runDeferred d acc) s l) = microtasks s.
Proof.
  revert s. induction l as [|d l IH]; intros s; cbn; [done|].
  rewrite IH. apply callback_microtasks.
Qed.

Lemma eraseStack_set_innerCommitStack l t :
  eraseStack (set_innerCommitStack l t) = eraseStack t.
Proof. done. Qed.

Lemma onCommit_heap tx r s a :
  eraseStack <$> heap (onCommit tx r s) !! a = eraseStack <$> heap s !! a.
Proof.
  unfold onCommit. destruct (heap s !! tx) as [t|]; [|done].
  destruct (o_onCommit (options t)); [|done].
  destruct (parentTransaction t) as [p|].
  - cbn. destruct (decide (p = a)) as [->|Hne].
    + rewrite lookup_alter_eq. by destruct (heap s !! a).
    + by rewrite lookup_alter_ne.
  - by rewrite callback_heap, runDeferred_all_heap.
Qed.

Lemma onCommit_events tx r s : events s `prefix_of` events (onCommit tx r s).
Proof.
  unfold onCommit. destruct (heap s !! tx) as [t|]; [|done].
  destruct (o_onCommit (options t)); [|done].
  destruct (parentTransaction t) as [p|]; [done|].
  etrans; [apply runDeferred_all_events|apply callback_events].
Qed.

Lemma onRollback_heap tx s : heap (onRollback tx s) = heap s.
Proof.
  unfold onRollback. destruct (heap s !! tx) as [t|]; [|done].
  destruct (o_onRollback (options t)) as [[v|e]|]; cbn; try done.
  by destruct (settle v).
Qed.

Lemma onRollback_events tx s : events s `prefix_of` events (onRollback tx s).
Proof.
  unfold onRollback. destruct (heap s !! tx) as [t|]; [|done].
  destruct (o_onRollback (options t)) as [[v|e]|]; cbn; try done;
    try destruct (settle v); cbn;
    rewrite <- ?(assoc_L (++)); by apply prefix_app_r.
Qed.

Lemma runJob_heap j s a :
  eraseStack <$> heap (runJob j s) !! a = eraseStack <$> heap s !! a.
Proof.
  destruct j; cbn; [apply onCommit_heap|by rewrite onRollback_heap].
Qed.

Lemma runJob_events j s : events s `prefix_of` events (runJob j s).
Proof. destruct j; [apply onCommit_events|apply onRollback_events]. Qed.

Lemma runJobs_heap (q : list Job) s a :
  eraseStack <$> heap (foldl (λ acc j, runJob j acc) s q) !! a = eraseStack <$> heap s !! a.
Proof.
  revert s. induction q as [|j q IH]; intros s; cbn; [done|].
  rewrite IH. apply runJob_heap.
Qed.

Lemma runJobs_events (q : list Job) s :
  events s `prefix_of` events (foldl (λ acc j, runJob j acc) s q).
Proof.
  revert s. induction q as [|j q IH]; intros s; cbn; [done|].
  etrans; [apply (runJob_events j)|apply IH].
Qed.

Lemma drain_heap s a : eraseStack <$> heap (drain s) !! a = eraseStack <$> heap s !! a.
Proof. unfold drain. by rewrite runJobs_heap. Qed.

Lemma drain_events s : events s `prefix_of` events (drain s).
Proof. unfold drain. apply (runJobs_events (microtasks s) (with_microtasks [] s)). Qed.


Lemma drain_statusOf s a : statusOf (drain s) a = statusOf s a.
Proof.
  unfold statusOf. pose proof (drain_heap s a) as E.
  destruct (heap (drain s) !! a) as [t'|], (heap s !! a) as [t|]; try done.
  cbn in *. injection E as ?. congruence.
Qed.

Lemma eraseStack_fields t t' :
  eraseStack t' = eraseStack t →
  id t' = id t ∧ parentTransaction t' = parentTransaction t ∧ status t' = status t
  ∧ options t' = options t ∧ innerTransactions t' = innerTransactions t
  ∧ impl t' = impl t.
Proof.
  intros E. injection E as ?. by repeat split.
Qed.

(** ** The steps of [execute] *)

Lemma thenDetached_run r j s : thenDetached r j s = (Ok tt, detached r j s).
Proof. unfold thenDetached, detached. by destruct (settle r), (isThenable r). Qed.

Lemma bind_thenDetached {B} r j (k : unit → M B) s :
  bind (thenDetached r j) k s = k tt (detached r j s).
Proof. unfold bind. by rewrite thenDetached_run. Qed.

Lemma detached_heap r j s : heap (detached r j s) = heap s.
Proof. unfold detached. by destruct (settle r), (isThenable r). Qed.

Lemma someStatus_true s st l :
  someStatus s st l = true ↔ ∃ a, a ∈ l ∧ statusOf s a = Some st.
Proof.
  unfold someStatus, hasStatus. rewrite existsb_exists. split.
  - intros (a & Hin & Hb). exists a. split; [by apply list_elem_of_In|].
    by apply bool_decide_eq_true in Hb.
  - intros (a & Hin & Hst). exists a. split; [by apply list_elem_of_In|].
    by apply bool_decide_eq_true.
Qed.

Lemma someStatus_false s st l :
  (¬ ∃ a, a ∈ l ∧ statusOf s a = Some st) → someStatus s st l = false.
Proof.
  intros H. destruct (someStatus s st l) eqn:E; [|done].
  by apply someStatus_true in E.
Qed.


Lemma parentDone_false s t :
  parentRunning s t →
  match parentTransaction t with
  | Some p => negb (hasStatus s running p)
  | None => false
  end = false.
Proof.
  intros H. unfold parentRunning in H.
  destruct (parentTransaction t) as [p|]; [|done].
  unfold hasStatus. rewrite bool_decide_eq_true_2; [done|]. by apply H.
Qed.

Section Steps.
Context (s : State) (tx : nat) (t : Transaction).
Hypothesis Ht : heap s !! tx = Some t.




Lemma processCommit_passes (result : Value) :
  ¬ anyInner s t running → parentRunning s t → ¬ anyInner s t rolledback →
  processCommit tx result s
  = match processCommitHook (impl t) with
    | Throws e => (Thrown e, commitAnnounced tx s)
    | Returns r =>
        (Ok result,
         detachFromParent tx (parentTransaction t)
           (with_heap (alter (set_status committed) tx)
              (detached r (JOnCommit tx result) (commitAnnounced tx s))))
    end.
Proof.
  intros Hr Hp Hb. unfold processCommit.
  rewrite (bind_deref _ _ _ _ Ht), bind_gets.
  rewrite (someStatus_false _ _ _ Hr), bind_gets.
  rewrite (parentDone_false _ _ Hp), bind_gets.
  rewrite (someStatus_false _ _ _ Hb).
  unfold logger, callHook. rewrite !bind_modify.
  destruct (processCommitHook (impl t)) as [r|e]; [|done].
  rewrite bind_assoc, bind_modify, bind_ret, bind_thenDetached, bind_modify.
  by destruct (parentTransaction t).
Qed.

Lemma processRollback_nullish (err : Value) :
  isNullish err = true → processRollback tx err s = (Thrown VTypeError, s).
Proof.
  intros He. unfold processRollback. rewrite (bind_deref _ _ _ _ Ht). by rewrite He.
Qed.


Lemma processBegin_run :
  processBegin tx s
  = (match processBeginHook (impl t) with
     | Returns v => settle v
     | Throws e => Rejected e
     end, emit (EvHook hookBegin tx) (emit (EvLog info tx MsgBegin) s)).
Proof.
  unfold processBegin. rewrite (bind_deref _ _ _ _ Ht).
  unfold logger, callHook. rewrite !bind_modify.
  by destruct (processBeginHook (impl t)).
Qed.
End Steps.

Lemma settleExecution_rejected tx e pr s :
  settleExecution tx (Rejected e) pr s
  = (match (processRollback tx e s).1 with
     | Ok r => settle r
     | Thrown e' => Rejected e'
     end, drain (processRollback tx e s).2).
Proof.
  unfold settleExecution, then_, catch_, andDrain.
  by destruct (processRollback tx e s) as [[r|e'] s'].
Qed.


Lemma detached_events r j s : events s `prefix_of` events (detached r j s).
Proof.
  unfold detached. destruct (settle r), (isThenable r); cbn; try done;
    by apply prefix_app_r.
Qed.







Lemma execute_enters tx t processFn s :
  heap s !! tx = Some t →
  (∃ b x, processBeginHook (impl t) = Returns b ∧ settle b = Fulfilled x) →
  execute tx processFn s
  = match processFn (newTransactionHandler s t) (entered tx t s) with
    | (Ok pr, s1) =>
        if isObject pr && isThenable pr
        then settleExecution tx (settle pr) pr s1
        else settleExecution tx
               (Rejected (VStr "TRANSACTION_EXECUTION_NOT_RETURNING_A_PROMISE")) VUndefined s1
    | (Thrown e, s1) => settleExecution tx (Rejected e) VUndefined s1
    end.
Proof.
  intros Ht (b & x & Hb & Hx). unfold execute.
  rewrite (processBegin_run _ _ _ Ht), Hb, Hx.
  unfold processExecution. rewrite (bind_deref tx t); [|exact Ht].
  rewrite bind_gets, bind_modify. unfold bind.
  change (newTransactionHandler (emit _ (emit _ s)) t) with (newTransactionHandler s t).
  fold (begun tx s). fold (entered tx t s).
  destruct (processFn (newTransactionHandler s t) (entered tx t s)) as [[pr|e] s1]; [|done].
  by destruct (isObject pr && isThenable pr).
Qed.

Lemma isThenable_isObject v : isThenable v = true → isObject v && isThenable v = true.
Proof. by destruct v. Qed.



Lemma filter_ne_not_elem (tx : nat) (l : list nat) : tx ∉ filter (λ a, a ≠ tx) l.
Proof. rewrite list_elem_of_filter. by intros [? _]. Qed.






(** ** Inner transactions and their class *)

Lemma createTransaction_inner (p : nat) (tp : Transaction) (o : Options) (s : State) :
  heap s !! p = Some tp →
  isNewInner s p (chosenClass o s) o (createTransaction (Some p) o s).
Proof.
  intros Hp. unfold isNewInner, createTransaction.
  rewrite bind_gets. unfold newTransaction.
  rewrite bind_assoc, bind_gets, bind_assoc, bind_modify, bind_assoc.
  rewrite (bind_deref p tp); [|exact Hp].
  rewrite bind_assoc, bind_modify, bind_ret.
  erewrite bind_deref; [|cbn; apply lookup_insert_eq].
  rewrite bind_modify. unfold ret.
  eexists _, _. split; [reflexivity|]. cbn.
  rewrite lookup_insert_eq. by repeat split.
Qed.

Lemma startInner_run (tx : nat) (t : Transaction) (innerOptions : Arg) (s : State) :
  heap s !! tx = Some t →
  startInner tx innerOptions s
  = createTransaction (Some tx)
      (assignDefault (readDefaultImplementationClass (options t)) (optionsOf innerOptions)) s.
Proof. intros Ht. unfold startInner. by rewrite (bind_deref _ _ _ _ Ht). Qed.

(** C10, amended: the parent's own [implementationClass] is not
    copied into the options of an inner transaction; [startInner] hands
    down the [DefaultImplementationClass] of the parent's options only, and
    a [DefaultImplementationClass] key of [innerOptions] replaces it.  So,
    for a parent created with an [implementationClass] override and
    [innerOptions] without [implementationClass]: when [innerOptions] has
    no [DefaultImplementationClass] key either, the inner transaction is
    instantiated from the [DefaultImplementationClass] of the parent's
    options, or the module's default if that is undefined; when
    [innerOptions] has the key, the inner transaction is instantiated from
    the class it holds, or the module's default if it holds undefined. *)
Theorem startInner_inherits_default_class
    (s : State) (tx : nat) (t : Transaction) (override : Class) (innerOptions : Arg) :
  heap s !! tx = Some t →
  o_implementationClass (options t) = Some override →
  o_implementationClass (optionsOf innerOptions) = None →
  (o_DefaultImplementationClass (optionsOf innerOptions) = None →
   isNewInner s tx (inheritedClass s t)
     (assignDefault (readDefaultImplementationClass (options t)) (optionsOf innerOptions))
     (startInner tx innerOptions s)
   ∧ o_implementationClass
       (assignDefault (readDefaultImplementationClass (options t)) (optionsOf innerOptions))
     = None
   ∧ o_DefaultImplementationClass
       (assignDefault (readDefaultImplementationClass (options t)) (optionsOf innerOptions))
     = Some (readDefaultImplementationClass (options t)))
  ∧ (∀ d, o_DefaultImplementationClass (optionsOf innerOptions) = Some d →
     isNewInner s tx (default (DefaultTransactionImplementationClass s) d)
       (assignDefault (readDefaultImplementationClass (options t)) (optionsOf innerOptions))
       (startInner tx innerOptions s)
     ∧ o_implementationClass
         (assignDefault (readDefaultImplementationClass (options t)) (optionsOf innerOptions))
       = None
     ∧ o_DefaultImplementationClass
         (assignDefault (readDefaultImplementationClass (options t)) (optionsOf innerOptions))
       = Some d).
Proof.
  intros Ht _ Hnone. rewrite (startInner_run _ _ _ _ Ht). split.
  - intros Hdef. split; [|split; [exact Hnone|by cbn; rewrite Hdef]].
    replace (inheritedClass s t)
      with (chosenClass (assignDefault (readDefaultImplementationClass (options t))
                           (optionsOf innerOptions)) s).
    + by eapply createTransaction_inner.
    + unfold chosenClass, inheritedClass, assignDefault. cbn. rewrite Hnone, Hdef.
      by destruct (readDefaultImplementationClass (options t)).
  - intros d Hdef. split; [|split; [exact Hnone|by cbn; rewrite Hdef]].
    replace (default (DefaultTransactionImplementationClass s) d)
      with (chosenClass (assignDefault (readDefaultImplementationClass (options t))
                           (optionsOf innerOptions)) s).
    + by eapply createTransaction_inner.
    + unfold chosenClass, assignDefault. cbn. rewrite Hnone, Hdef. by destruct d.
Qed.

(** ** Hooks that fail *)


Lemma detachFromParent_statusOf tx parent s a :
  statusOf (detachFromParent tx parent s) a = statusOf s a.
Proof.
  destruct parent as [p|]; [|done]. unfold statusOf. cbn.
  rewrite lookup_alter. case_decide; [subst|done]. by destruct (heap s !! a).
Qed.


Lemma detachFromParent_events tx parent s :
  events (detachFromParent tx parent s) = events s.
Proof. by destruct parent. Qed.



(** ** The status of a transaction *)

Lemma sound_refl s : sound s s.
Proof. split; [done|]. intros Hf. split; [done|]. intros a st H Hne. by exists st. Qed.

Lemma sound_trans s1 s2 s3 : sound s1 s2 → sound s2 s3 → sound s1 s3.
Proof.
  intros [G12 H12] [G23 H23]. split; [congruence|]. intros Hf.
  destruct (H12 Hf) as [Hf2 N12]. destruct (H23 Hf2) as [Hf3 N23].
  split; [done|]. intros a st H Hne.
  destruct (N12 a st H Hne) as (st2 & H2 & Hne2). by apply (N23 a st2).
Qed.

(** A step that leaves the heap, the counter and the globals alone. *)
Lemma sound_same_heap s s' :
  heap s' = heap s → transactionId s' = transactionId s → globals s' = globals s →
  sound s s'.
Proof.
  intros Hh Hi Hg. split; [done|]. intros Hf. split.
  - intros a Ha. rewrite Hh in Ha. rewrite Hi. by apply Hf.
  - intros a st H Hne. exists st. unfold statusOf in *. by rewrite Hh.
Qed.

(** A step that rewrites one object without bringing it back to
    [running]. *)
Lemma sound_alter (g : Transaction → Transaction) a s :
  (∀ t, status t ≠ running → status (g t) ≠ running) →
  sound s (with_heap (alter g a) s).
Proof.
  intros Hg. split; [done|]. intros Hf. split.
  - intros b Hb. apply Hf. cbn in Hb. rewrite lookup_alter in Hb.
    case_decide; [subst|done]. by apply fmap_is_Some in Hb.
  - intros b st H Hne. unfold statusOf in *. cbn. rewrite lookup_alter.
    case_decide; [subst|by exists st].
    destruct (heap s !! b) as [t|]; [|done]. cbn in *.
    exists (status (g t)). split; [done|]. apply Hg. congruence.
Qed.

Lemma soundM_ret {A} (a : A) : soundM (ret a).
Proof. intros s. apply sound_refl. Qed.

Lemma soundM_throw {A} e : soundM (@throw A e).
Proof. intros s. apply sound_refl. Qed.

Lemma soundM_gets {A} (f : State → A) : soundM (gets f).
Proof. intros s. apply sound_refl. Qed.

Lemma soundM_deref a : soundM (deref a).
Proof. intros s. unfold deref. destruct (heap s !! a); apply sound_refl. Qed.

Lemma soundM_modify (f : State → State) : (∀ s, sound s (f s)) → soundM (modify f).
Proof. intros H s. apply H. Qed.

Lemma soundM_bind {A B} (m : M A) (k : A → M B) :
  soundM m → (∀ a, soundM (k a)) → soundM (bind m k).
Proof.
  intros Hm Hk s. unfold bind. specialize (Hm s).
  destruct (m s) as [[a|e] s1]; [|exact Hm].
  eapply sound_trans; [exact Hm|apply Hk].
Qed.

Lemma soundM_logger lvl tx msg : soundM (logger lvl tx msg).
Proof. apply soundM_modify. intros s. by apply sound_same_heap. Qed.

Lemma sound_emit ev s : sound s (emit ev s).
Proof. by apply sound_same_heap. Qed.

Lemma soundM_callHook h tx b : soundM (callHook h tx b).
Proof.
  apply soundM_bind; [apply soundM_modify, sound_emit|].
  intros _. destruct b; [apply soundM_ret|apply soundM_throw].
Qed.

Lemma soundM_thenDetached r j : soundM (thenDetached r j).
Proof.
  unfold thenDetached. destruct (settle r).
  - destruct (isThenable r); apply soundM_modify; intros s; by apply sound_same_heap.
  - apply soundM_modify, sound_emit.
  - apply soundM_ret.
Qed.

Create HintDb sound.
#[local] Hint Resolve sound_refl sound_emit soundM_ret soundM_throw soundM_gets
  soundM_deref soundM_logger soundM_callHook soundM_thenDetached : sound.

(** Peels the binds of a function of the library whose head steps the
    hints cover. *)
Ltac sound_chain := repeat (apply soundM_bind; [solve [auto with sound]|intros]).

Lemma soundM_rollback tx err : soundM (rollback tx err).
Proof.
  apply soundM_bind; [|auto with sound].
  apply soundM_modify. intros s. by apply sound_alter.
Qed.

Lemma soundM_processRollback tx err : soundM (processRollback tx err).
Proof.
  apply soundM_bind; [auto with sound|]. intros t.
  destruct (isNullish err); [auto with sound|].
  sound_chain. apply soundM_rollback.
Qed.

Lemma soundM_processCommit tx result : soundM (processCommit tx result).
Proof.
  sound_chain. case_match; [sound_chain; auto with sound|].
  sound_chain. case_match; [sound_chain; auto with sound|].
  sound_chain. case_match; [auto with sound|].
  sound_chain.
  apply soundM_bind; [apply soundM_modify; intros s; by apply sound_alter|]. intros _.
  apply soundM_bind; [|auto with sound].
  case_match; [|auto with sound].
  apply soundM_modify. intros s. by apply sound_alter.
Qed.

Lemma callback_transactionId tx r s : transactionId (callback tx r s) = transactionId s.
Proof.
  unfold callback. destruct (heap s !! tx) as [t|]; [|done].
  destruct (o_onCommit (options t)) as [[v|e]|]; cbn; try done.
  by destruct (settle v).
Qed.

Lemma callback_globals tx r s : globals (callback tx r s) = globals s.
Proof.
  unfold callback. destruct (heap s !! tx) as [t|]; [|done].
  destruct (o_onCommit (options t)) as [[v|e]|]; cbn; try done.
  by destruct (settle v).
Qed.

Lemma sound_callback tx r s : sound s (callback tx r s).
Proof.
  apply sound_same_heap;
    [apply callback_heap|apply callback_transactionId|apply callback_globals].
Qed.

Lemma sound_runDeferred_all (l : list Deferred) s :
  sound s (foldl (λ acc d, runDeferred d acc) s l).
Proof.
  revert s. induction l as [|d l IH]; intros s; cbn; [apply sound_refl|].
  eapply sound_trans; [apply (sound_callback (d_transaction d) (d_result d))|apply IH].
Qed.

Lemma sound_onCommit tx r s : sound s (onCommit tx r s).
Proof.
  unfold onCommit. destruct (heap s !! tx) as [t|]; [|apply sound_refl].
  destruct (o_onCommit (options t)); [|apply sound_refl].
  destruct (parentTransaction t) as [p|].
  - by apply sound_alter.
  - eapply sound_trans; [apply sound_runDeferred_all|apply sound_callback].
Qed.

Lemma sound_onRollback tx s : sound s (onRollback tx s).
Proof.
  unfold onRollback. destruct (heap s !! tx) as [t|]; [|apply sound_refl].
  destruct (o_onRollback (options t)) as [[v|e]|]; [| |apply sound_refl].
  - destruct (settle v); by apply sound_same_heap.
  - by apply sound_same_heap.
Qed.

Lemma sound_runJob j s : sound s (runJob j s).
Proof. destruct j; [apply sound_onCommit|apply sound_onRollback]. Qed.

Lemma sound_runJobs (q : list Job) s : sound s (foldl (λ acc j, runJob j acc) s q).
Proof.
  revert s. induction q as [|j q IH]; intros s; cbn; [apply sound_refl|].
  eapply sound_trans; [apply sound_runJob|apply IH].
Qed.

Lemma sound_drain s : sound s (drain s).
Proof.
  unfold drain. eapply sound_trans; [|apply sound_runJobs]. by apply sound_same_heap.
Qed.

Lemma sound_hookFulfils n s : sound s (hookFulfils n s).
Proof.
  unfold hookFulfils. destruct (awaited s !! n) as [j|]; [|apply sound_refl].
  eapply sound_trans; [|apply sound_runJob]. by apply sound_same_heap.
Qed.

(** The constructor puts the new object at an unused address. *)
Lemma sound_allocate (t : Transaction) (g : Transaction → Transaction) (p : option nat) s :
  (∀ q, status (g q) = status q) →
  sound s
    (with_heap (λ h, <[transactionId s := t]>
                       (match p with Some a => alter g a h | None => h end))
       (with_transactionId (S (transactionId s)) s)).
Proof.
  intros Hg. split; [done|]. intros Hf.
  assert (∀ a, is_Some (match p with Some b => alter g b (heap s) | None => heap s end !! a)
               → is_Some (heap s !! a)) as Hdom.
  { intros a. destruct p as [b|]; [|done]. rewrite lookup_alter.
    case_decide; [subst|done]. by rewrite fmap_is_Some. }
  split.
  - intros a Ha. cbn in *. destruct (decide (a = transactionId s)) as [->|Hne]; [lia|].
    rewrite lookup_insert_ne in Ha by done. apply Hdom, Hf in Ha. lia.
  - intros a st H Hne. exists st. split; [|done]. unfold statusOf in *. cbn.
    assert (a ≠ transactionId s) as Ha.
    { intros ->. destruct (heap s !! transactionId s) eqn:E; [|done].
      assert (transactionId s < transactionId s) by (apply Hf; by rewrite E). lia. }
    rewrite lookup_insert_ne by done. destruct p as [b|]; [|done].
    rewrite lookup_alter. case_decide; [subst|done].
    destruct (heap s !! a) as [q|]; [|done]. cbn in *. by rewrite Hg.
Qed.

Lemma sound_counter (n : nat) s :
  (transactionId s ≤ n)%nat → sound s (with_transactionId n s).
Proof.
  intros Hn. split; [done|]. intros Hf. split.
  - intros a Ha. apply Hf in Ha. cbn. lia.
  - intros a st H Hne. by exists st.
Qed.

Lemma soundM_newTransaction c parent o : soundM (newTransaction c parent o).
Proof.
  intros s. unfold newTransaction. rewrite bind_gets, bind_modify.
  destruct parent as [p|].
  - unfold bind at 1, deref. cbn [heap with_transactionId].
    destruct (heap s !! p) as [pt|]; [|apply sound_counter; lia].
    rewrite bind_modify. cbn [ret snd].
    apply (sound_allocate _ (pushInner (transactionId s)) (Some p)). done.
  - rewrite bind_modify. cbn [ret snd].
    apply (sound_allocate _ (λ q, q) None). done.
Qed.

Lemma soundM_createTransaction parent o : soundM (createTransaction parent o).
Proof.
  apply soundM_bind; [apply soundM_gets|]. intros c.
  apply soundM_bind; [apply soundM_newTransaction|]. intros a.
  apply soundM_bind; [apply soundM_deref|]. intros t.
  apply soundM_bind; [|intros; apply soundM_ret].
  apply soundM_modify. intros s. by apply sound_same_heap.
Qed.

Lemma soundM_startInner tx o : soundM (startInner tx o).
Proof.
  apply soundM_bind; [apply soundM_deref|]. intros t. apply soundM_createTransaction.
Qed.

Lemma soundM_defineTransaction arguments : soundM (defineTransaction arguments).
Proof.
  unfold defineTransaction. apply soundM_bind.
  - destruct (isString _ "REUSE").
    { destruct (argument 1 arguments); try apply soundM_throw.
      apply soundM_bind; [apply soundM_gets|intros; apply soundM_ret]. }
    destruct (isString _ "NEW").
    { destruct (isHandler _); [apply soundM_throw|apply soundM_ret]. }
    destruct (isString _ "REUSE_OR_NEW"); [apply soundM_ret|apply soundM_throw].
  - intros [parent o]. apply soundM_bind; [apply soundM_gets|]. intros d.
    apply soundM_createTransaction.
Qed.

Lemma soundM_reUseOrCreateTransaction arguments :
  soundM (reUseOrCreateTransaction arguments).
Proof.
  assert (∀ x, soundM (readFreeIdentifier x)) as Hread.
  { intros x s. unfold readFreeIdentifier. destruct (globals s !! x); apply sound_refl. }
  apply soundM_bind; [apply Hread|]. intros p.
  apply soundM_bind; [apply Hread|]. intros o. apply soundM_defineTransaction.
Qed.

Lemma soundS_processBegin tx : soundS (processBegin tx).
Proof.
  intros s. unfold processBegin.
  assert (soundM (let* t := deref tx in
                  logger info tx MsgBegin;;
                  callHook hookBegin tx (processBeginHook (impl t)))) as H.
  { apply soundM_bind; [apply soundM_deref|]. intros t.
    apply soundM_bind; [apply soundM_logger|]. intros _. apply soundM_callHook. }
  specialize (H s).
  destruct (bind (deref tx) _ s) as [[r|e] s']; exact H.
Qed.

Lemma soundM_processExecution tx processFn :
  (∀ h, soundM (processFn h)) → soundM (processExecution tx processFn).
Proof.
  intros Hfn. apply soundM_bind; [apply soundM_deref|]. intros t.
  apply soundM_bind; [apply soundM_gets|]. intros h.
  apply soundM_bind; [apply soundM_modify; intros s; by apply sound_alter|]. intros _.
  apply soundM_bind; [apply Hfn|]. intros r.
  destruct (isObject r && isThenable r); apply soundM_ret.
Qed.

Lemma soundM_andDrain f v : soundM (f v) → soundM (andDrain f v).
Proof.
  intros H s. unfold andDrain. specialize (H s). destruct (f v s) as [r s'].
  eapply sound_trans; [exact H|apply sound_drain].
Qed.

Lemma soundS_then_ p f : (∀ v, soundM (f v)) → soundS (then_ p f).
Proof.
  intros H s. unfold then_. destruct p as [v| |]; try apply sound_refl.
  specialize (H v s). by destruct (f v s) as [[r|e] s'].
Qed.

Lemma soundS_catch_ p f : (∀ v, soundM (f v)) → soundS (catch_ p f).
Proof.
  intros H s. unfold catch_. destruct p as [|v|]; try apply sound_refl.
  specialize (H v s). by destruct (f v s) as [[r|e] s'].
Qed.

Lemma soundS_settleExecution tx p1 pr : soundS (settleExecution tx p1 pr).
Proof.
  intros s. unfold settleExecution.
  pose proof (soundS_then_ p1 (andDrain (processCommit tx))
                (λ v, soundM_andDrain _ v (soundM_processCommit tx v)) s) as H2.
  destruct (then_ p1 _ s) as [p2 s2].
  pose proof (soundS_then_ p2 (λ _, ret pr) (λ _, soundM_ret pr) s2) as H3.
  destruct (then_ p2 _ s2) as [p3 s3].
  pose proof (soundS_catch_ p3 (andDrain (processRollback tx))
                (λ v, soundM_andDrain _ v (soundM_processRollback tx v)) s3) as H4.
  eapply sound_trans; [exact H2|]. eapply sound_trans; [exact H3|exact H4].
Qed.

Lemma soundS_execute tx processFn :
  (∀ h, soundM (processFn h)) → soundS (execute tx processFn).
Proof.
  intros Hfn s. unfold execute.
  pose proof (soundS_processBegin tx s) as H0.
  destruct (processBegin tx s) as [p0 s0]. cbn [snd] in H0.
  eapply sound_trans; [exact H0|].
  destruct p0 as [v|e|]; try apply soundS_settleExecution.
  pose proof (soundM_processExecution tx processFn Hfn s0) as H1.
  destruct (processExecution tx processFn s0) as [[[returned pr]|e] s1]; cbn [snd] in H1;
    (eapply sound_trans; [exact H1|apply soundS_settleExecution]).
Qed.

Lemma soundS_thenableExecute th processFn :
  (∀ h, soundM (processFn h)) → soundS (thenableExecute th processFn).
Proof.
  intros Hfn s. unfold thenableExecute.
  pose proof (soundS_execute (th_transaction th) processFn Hfn s) as H.
  destruct (execute _ processFn s) as [p s']. cbn [snd] in H.
  eapply sound_trans; [exact H|].
  unfold finally_. destruct p; cbn [snd]; try apply sound_refl; by apply sound_same_heap.
Qed.

Lemma soundM_behaves b h : soundM (behaves b h).
Proof. destruct b; [apply soundM_ret|apply soundM_throw]. Qed.

Lemma sound_step op s : sound s (step op s).
Proof.
  destruct op; cbn [step].
  - apply soundM_defineTransaction.
  - apply soundM_reUseOrCreateTransaction.
  - by apply sound_same_heap.
  - apply soundM_startInner.
  - apply soundM_rollback.
  - apply soundS_processBegin.
  - apply soundM_processExecution, soundM_behaves.
  - apply soundM_processCommit.
  - apply soundM_processRollback.
  - apply sound_drain.
  - by apply sound_same_heap.
  - apply soundS_thenableExecute, soundM_behaves.
  - apply sound_hookFulfils.
Qed.

Lemma sound_run ops s : sound s (run ops s).
Proof.
  revert s. induction ops as [|op ops IH]; intros s; cbn; [apply sound_refl|].
  eapply sound_trans; [apply sound_step|apply IH].
Qed.

Lemma createTransaction_running parent o s th s' :
  createTransaction parent o s = (Ok th, s') →
  statusOf s' (th_transaction th) = Some running.
Proof.
  destruct parent as [p|].
  - destruct (heap s !! p) as [tp|] eqn:Hp.
    + destruct (createTransaction_inner p tp o s Hp) as (s1 & t & E & Ht & _ & Hst & _).
      rewrite E. intros [= <- <-]. unfold statusOf. cbn [th_transaction].
      by rewrite Ht, <- Hst.
    + unfold createTransaction, newTransaction.
      rewrite bind_gets, bind_assoc, bind_gets, bind_assoc, bind_modify, bind_assoc.
      unfold bind at 1, deref. cbn [heap with_transactionId]. by rewrite Hp.
  - destruct (createTransaction_root_with o s) as (s1 & t & E & Ht & _ & _ & _ & Hst & _).
    rewrite E. intros [= <- <-]. unfold statusOf. cbn [th_transaction].
      by rewrite Ht, <- Hst.
Qed.

Lemma rollback_status tx err s st :
  statusOf s tx = Some st → statusOf (rollback tx err s).2 tx = Some rolledback.
Proof.
  unfold statusOf, rollback. rewrite bind_modify. cbn. rewrite lookup_alter_eq.
  by destruct (heap s !! tx).
Qed.

(** C4, amended: a transaction is created [running]; once its status has
    left [running], no sequence of operations brings it back; but a
    terminal value is not final, since [rollback(err)] sets [rolledback]
    whatever the status was, so after a commit it moves the status from
    [committed] to [rolledback]. *)
Theorem status_leaves_running_for_good :
  (∀ parent o s th s',
      createTransaction parent o s = (Ok th, s') →
      statusOf s' (th_transaction th) = Some running)
  ∧ (∀ ops s a st,
      fresh s → statusOf s a = Some st → st ≠ running →
      ∃ st', statusOf (run ops s) a = Some st' ∧ st' ≠ running)
  ∧ (∀ s a err st,
      statusOf s a = Some st →
      statusOf (run [OpRollback a err] s) a = Some rolledback).
Proof.
  split; [|split].
  - apply createTransaction_running.
  - intros ops s a st Hf H Hne. destruct (sound_run ops s) as [_ N].
    destruct (N Hf) as [_ N']. by apply (N' a st).
  - intros s a err st H. exact (rollback_status a err s st H).
Qed.

(** ** [reUseOrCreateTransaction] *)

(** Neither identifier is declared by the module. *)
Example identifiers_are_free :
  ("parentTransaction" ∉ moduleScope) ∧ ("options" ∉ moduleScope).
Proof. split; apply (bool_decide_unpack _); vm_compute; exact I. Qed.

Lemma reUseOrCreateTransaction_unbound (s : State) (arguments : list Arg) :
  globals s !! "parentTransaction" = None →
  reUseOrCreateTransaction arguments s
  = (Thrown (VReferenceError "parentTransaction"), s).
Proof.
  intros Hg. unfold reUseOrCreateTransaction, bind, readFreeIdentifier. by rewrite Hg.
Qed.

Lemma run_globals (ops : list Op) (s : State) : globals (run ops s) = globals s.
Proof. apply sound_run. Qed.

(** C1 (the code departs from it): [reUseOrCreateTransaction] does not
    read its arguments: its body reads two identifiers that nothing binds,
    so after any sequence of operations on the freshly loaded module a call
    throws a ReferenceError and creates nothing, whatever it is given.  And
    [defineTransaction('REUSE_OR_NEW', handler, ...)] itself never looks
    the handler up: also with the handler of a registered transaction it
    creates a root transaction, not an inner one. *)
Theorem reUseOrCreateTransaction_unbound_and_detached :
  (∀ ops arguments,
      reUseOrCreateTransaction arguments (run ops initialState)
      = (Thrown (VReferenceError "parentTransaction"), run ops initialState))
  ∧ (∀ s arguments h,
      argument 0 arguments = AValue (VStr "REUSE_OR_NEW") →
      argument 1 arguments = AHandler h →
      isNewRoot s (defineTransaction arguments s)).
Proof.
  split.
  - intros ops arguments. apply reUseOrCreateTransaction_unbound.
    rewrite run_globals. apply lookup_empty.
  - intros s arguments h H0 H1. unfold defineTransaction. rewrite H0. cbn.
    exact (createTransaction_root _ s).
Qed.

(** ** The deferred [onCommit] callbacks *)

(** Without an [onCommit] option of its own, a transaction's commit
    continuation does nothing: it neither runs nor hands on what its
    [innerCommitStack] holds. *)
Lemma onCommit_without_option tx result s t :
  heap s !! tx = Some t → o_onCommit (options t) = None → onCommit tx result s = s.
Proof. intros Ht Ho. unfold onCommit. by rewrite Ht, Ho. Qed.

(** When the root has an [onCommit] too, the inner's callback is run at
    the root's commit, before the root's own. *)
Example inner_onCommit_fires_under_root_with_onCommit :
  events (thenableExecute root innerWithOnCommit (started (AOptions withOnCommit))).2
  = [EvLog info 1 MsgBegin; EvHook hookBegin 1;
     EvLog info 2 MsgBegin; EvHook hookBegin 2;
     EvLog info 2 MsgCommit; EvHook hookCommit 2;
     EvLog info 1 MsgCommit; EvHook hookCommit 1;
     EvLog info 2 MsgOnCommit; EvOnCommit 2 VUndefined;
     EvLog info 1 MsgOnCommit; EvOnCommit 1 VUndefined].
Proof. by_evaluation. Qed.

(** C2 (the code departs from it): a root without [onCommit] runs
    [startInner({onCommit})] and awaits it; both transactions commit, the
    inner's callback is put on the root's [innerCommitStack], and the
    root's commit never invokes it: no [EvOnCommit] is among the events. *)
Theorem inner_onCommit_lost_under_root_without_onCommit :
  o_onCommit (options (objectAt lostOnCommitRun.2 1)) = None
  ∧ o_onCommit (options (objectAt lostOnCommitRun.2 2)) = Some (Returns (VBool true))
  ∧ parentTransaction (objectAt lostOnCommitRun.2 2) = Some 1
  ∧ lostOnCommitRun.1 = Fulfilled VUndefined
  ∧ statusOf lostOnCommitRun.2 1 = Some committed
  ∧ statusOf lostOnCommitRun.2 2 = Some committed
  ∧ innerCommitStack (objectAt lostOnCommitRun.2 1)
    = [{| d_transaction := 2; d_result := VUndefined |}]
  ∧ events lostOnCommitRun.2
    = [EvLog info 1 MsgBegin; EvHook hookBegin 1;
       EvLog info 2 MsgBegin; EvHook hookBegin 2;
       EvLog info 2 MsgCommit; EvHook hookCommit 2;
       EvLog info 1 MsgCommit; EvHook hookCommit 1].
Proof. by_evaluation. Qed.

(** The same early return in an ancestor between the two: the root has an
    [onCommit] and runs it, the middle transaction has none and keeps the
    leaf's callback on its own stack for ever. *)
Lemma leaf_onCommit_lost_under_middle_without_onCommit :
  lostUnderMiddleRun.1 = Fulfilled VUndefined
  ∧ innerCommitStack (objectAt lostUnderMiddleRun.2 1) = []
  ∧ innerCommitStack (objectAt lostUnderMiddleRun.2 2)
    = [{| d_transaction := 3; d_result := VUndefined |}]
  ∧ events lostUnderMiddleRun.2
    = [EvLog info 1 MsgBegin; EvHook hookBegin 1;
       EvLog info 2 MsgBegin; EvHook hookBegin 2;
       EvLog info 3 MsgBegin; EvHook hookBegin 3;
       EvLog info 3 MsgCommit; EvHook hookCommit 3;
       EvLog info 2 MsgCommit; EvHook hookCommit 2;
       EvLog info 1 MsgCommit; EvHook hookCommit 1;
       EvLog info 1 MsgOnCommit; EvOnCommit 1 VUndefined].
Proof. by_evaluation. Qed.

(** ** Runs on which a statement of the specification fails as written *)


(** C4 as stated fails: [rollback()] called through the handler after the
    commit moves the status from [committed] to [rolledback]. *)
Lemma rollback_after_commit_counterexample :
  statusOf committedRoot 1 = Some committed
  ∧ statusOf (run [OpRollback 1 VUndefined] committedRoot) 1 = Some rolledback.
Proof. by_evaluation. Qed.


(** The other condition of the amended C5: with a rollback hook that
    throws, the commit still fails on the rolled back child, but the chain
    rejects with the hook's error and the status stays [running]. *)
Lemma rolledback_inner_and_throwing_rollback_hook :
  (thenableExecute root oneRolledBack rollbackThrowsStarted).1
  = Rejected (VError "ROLLBACK_FAILED")
  ∧ statusOf (thenableExecute root oneRolledBack rollbackThrowsStarted).2 1 = Some running
  ∧ statusOf (thenableExecute root oneRolledBack rollbackThrowsStarted).2 2
    = Some rolledback.
Proof. by_evaluation. Qed.

(** A child that committed and is rolled back through its handler
    afterwards is [rolledback] but no longer on its parent's list, and the
    parent commits. *)
Lemma rolledback_after_commit_does_not_block :
  parentTransaction (objectAt rolledBackOffTheList 2) = Some 1
  ∧ statusOf rolledBackOffTheList 2 = Some rolledback
  ∧ innerTransactions (objectAt rolledBackOffTheList 1) = []
  ∧ (processCommit 1 VUndefined rolledBackOffTheList).1 = Ok VUndefined
  ∧ (thenableExecute root rolledBackAfterCommit (started noArgument)).1
    = Fulfilled VUndefined
  ∧ statusOf (thenableExecute root rolledBackAfterCommit (started noArgument)).2 1
    = Some committed.
Proof. by_evaluation. Qed.


(** C10 as stated fails: the inner options set no [implementationClass]
    but carry a [DefaultImplementationClass] of their own; the inner
    transaction is instantiated from it, not from the one of the parent's
    options. *)
Lemma startInner_own_default_counterexample :
  o_implementationClass (options (objectAt rejectingHooksStarted 1))
  = Some rejectingHooksClass
  ∧ o_implementationClass (withOwnDefault otherClass) = None
  ∧ inheritedClass rejectingHooksStarted (objectAt rejectingHooksStarted 1)
    = LibraryDefaultClass
  ∧ ownDefaultRun.1 = Ok {| th_transaction := 2 |}
  ∧ impl (objectAt ownDefaultRun.2 2) = implOf otherClass (Some 1)
  ∧ impl (objectAt ownDefaultRun.2 2)
    ≠ implOf (inheritedClass rejectingHooksStarted (objectAt rejectingHooksStarted 1))
        (Some 1).
Proof.
  repeat split; try (vm_compute; reflexivity).
  vm_compute. discriminate.
Qed.

(** ** The theorems at concrete inputs *)

Lemma fresh_initialState : fresh initialState.
Proof. intros a [t Ht]. cbn in Ht. by rewrite lookup_empty in Ht. Qed.

Lemma fresh_committedRoot : fresh committedRoot.
Proof.
  apply (soundS_thenableExecute root successfullProcess); [intros h; apply soundM_ret|].
  apply (soundM_defineTransaction _ initialState), fresh_initialState.
Qed.

Lemma reUseOrCreateTransaction_unbound_and_detached_witness :
  reUseOrCreateTransaction [AHandler handlerOfRoot; AOptions withOnCommit]
    (run upToExecution initialState)
  = (Thrown (VReferenceError "parentTransaction"), run upToExecution initialState)
  ∧ transactions (run upToExecution initialState) !! 1 = Some 1
  ∧ isNewRoot (run upToExecution initialState)
      (defineTransaction
         [AValue (VStr "REUSE_OR_NEW"); AHandler handlerOfRoot; AOptions withOnCommit]
         (run upToExecution initialState)).
Proof.
  split; [|split].
  - apply reUseOrCreateTransaction_unbound_and_detached.
  - vm_compute. reflexivity.
  - apply (proj2 reUseOrCreateTransaction_unbound_and_detached _ _ handlerOfRoot);
      reflexivity.
Defined.

Lemma defineTransaction_requirement_checks_witness :
  defineTransaction [AValue (VStr "NEW"); AHandler handlerOfRoot] initialState
  = (Thrown (VError "PARENT_TRANSACTION_MAY_NOT_BE_PROVIDED"), initialState)
  ∧ isNewRootWith initialState (assignDefault (Some LibraryDefaultClass) withOnCommit)
      (defineTransaction [AValue (VStr "NEW"); AOptions withOnCommit] initialState)
  ∧ defineTransaction [AValue (VStr "REUSE"); AValue VNull; AOptions withOnCommit]
      initialState
    = (Thrown (VError "PARENT_TRANSACTION_NOT_PROVIDED"), initialState)
  ∧ defineTransaction [AValue (VStr "USE"); AValue VUndefined; AOptions withOnCommit]
      initialState
    = (Thrown (VError "TRANSACTION_REQUIREMENT_UNKNOWN"), initialState).
Proof.
  split; [|split; [|split]].
  - apply (defineTransaction_requirement_checks initialState
             [AValue (VStr "NEW"); AHandler handlerOfRoot]); reflexivity.
  - apply (defineTransaction_requirement_checks initialState
             [AValue (VStr "NEW"); AOptions withOnCommit]); reflexivity.
  - apply (defineTransaction_requirement_checks initialState
             [AValue (VStr "REUSE"); AValue VNull; AOptions withOnCommit]); reflexivity.
  - apply (defineTransaction_requirement_checks initialState
             [AValue (VStr "USE"); AValue VUndefined; AOptions withOnCommit]);
      cbn; discriminate.
Defined.

Lemma defineTransaction_reuse_after_settlement_witness :
  transactions committedRoot !! 1 = None
  ∧ handler (objectAt committedRoot 1) = Some handlerOfRoot
  ∧ handlerId handlerOfRoot = Some 1
  ∧ transactionId committedRoot = 2
  ∧ isNewRootWith committedRoot
      (assignDefault (Some (DefaultTransactionImplementationClass committedRoot))
         (optionsOf noArgument))
      (defineTransaction [AValue (VStr "REUSE"); AHandler handlerOfRoot; noArgument]
         committedRoot).
Proof.
  split; [vm_compute; reflexivity|]. split; [vm_compute; reflexivity|].
  split; [vm_compute; reflexivity|]. split; [vm_compute; reflexivity|].
  apply (defineTransaction_reuse_after_settlement committedRoot
           [AValue (VStr "REUSE"); AHandler handlerOfRoot; noArgument] handlerOfRoot);
    [reflexivity|reflexivity|].
  intros n Hn. vm_compute in Hn. injection Hn as <-. vm_compute. reflexivity.
Defined.

Lemma startInner_inherits_default_class_witness :
  (o_implementationClass (options (objectAt overriddenWithDefault 1)) = Some otherClass
   ∧ isNewInner overriddenWithDefault 1 promisingHooksClass
       (assignDefault (Some promisingHooksClass) emptyOptions)
       (startInner 1 noArgument overriddenWithDefault)
   ∧ implOf promisingHooksClass (Some 1) ≠ implOf otherClass (Some 1)
   ∧ implOf promisingHooksClass (Some 1) ≠ implOf LibraryDefaultClass (Some 1))
  ∧ (o_implementationClass (options (objectAt overridden 1)) = Some otherClass
     ∧ isNewInner overridden 1 LibraryDefaultClass
         (assignDefault (Some LibraryDefaultClass) emptyOptions)
         (startInner 1 noArgument overridden)
     ∧ implOf LibraryDefaultClass (Some 1) ≠ implOf otherClass (Some 1))
  ∧ (isNewInner overridden 1 promisingHooksClass
       (assignDefault (Some LibraryDefaultClass) (withOwnDefault promisingHooksClass))
       (startInner 1 (AOptions (withOwnDefault promisingHooksClass)) overridden)
     ∧ inheritedClass overridden (objectAt overridden 1) = LibraryDefaultClass).
Proof.
  split; [|split].
  - split; [vm_compute; reflexivity|]. split; [|split; vm_compute; discriminate].
    destruct (startInner_inherits_default_class overriddenWithDefault 1
                (objectAt overriddenWithDefault 1) otherClass noArgument)
      as ((H & _) & _); [vm_compute; reflexivity..|exact H].
  - split; [vm_compute; reflexivity|]. split; [|vm_compute; discriminate].
    destruct (startInner_inherits_default_class overridden 1
                (objectAt overridden 1) otherClass noArgument)
      as ((H & _) & _); [vm_compute; reflexivity..|exact H].
  - split; [|vm_compute; reflexivity].
    destruct (startInner_inherits_default_class overridden 1
                (objectAt overridden 1) otherClass
                (AOptions (withOwnDefault promisingHooksClass)))
      as (_ & H); [vm_compute; reflexivity..|].
    destruct (H (Some promisingHooksClass)) as (H' & _); [reflexivity|exact H'].
Defined.





Lemma status_leaves_running_for_good_witness :
  statusOf (createTransaction None emptyOptions initialState).2 1 = Some running
  ∧ (∃ st', statusOf (run afterTheCommit committedRoot) 1 = Some st' ∧ st' ≠ running)
  ∧ statusOf (run [OpRollback 1 VUndefined] committedRoot) 1 = Some rolledback.
Proof.
  destruct status_leaves_running_for_good as (H1 & H2 & H3).
  split; [|split].
  - apply (H1 None emptyOptions initialState {| th_transaction := 1 |}).
    vm_compute. reflexivity.
  - apply (H2 _ committedRoot 1 committed); [apply fresh_committedRoot| |discriminate].
    vm_compute. reflexivity.
  - apply (H3 committedRoot 1 VUndefined committed). vm_compute. reflexivity.
Defined.


(** * More of the library *)

(** ** The shape of the heap is kept by every step *)

Lemma sameIdentity_refl t : sameIdentity t t.
Proof. by repeat split. Qed.

Lemma sameIdentity_trans t1 t2 t3 :
  sameIdentity t1 t2 → sameIdentity t2 t3 → sameIdentity t1 t3.
Proof.
  intros (?&?&?&?&?&?&?&?) (?&?&?&?&?&?&?&?). repeat split; congruence.
Qed.

Lemma handlerOf_sameIdentity q t' h : sameIdentity q t' → handlerOf q h → handlerOf t' h.
Proof.
  intros (Ei & Ep & _ & _ & _ & _ & _ & Ec) (Hi & Hm & Hp).
  repeat split; [congruence|congruence|]. intros p Hh. rewrite Ep. by apply Hp.
Qed.

Lemma touched_refl q : touched q q.
Proof. split; [apply sameIdentity_refl|]. split; [done|]. intros h ?. by left. Qed.

Lemma persists_refl s : persists s s.
Proof. intros a t H. exists t. split; [done|apply sameIdentity_refl]. Qed.

Lemma persists_trans s1 s2 s3 : persists s1 s2 → persists s2 s3 → persists s1 s3.
Proof.
  intros H12 H23 a t H. destruct (H12 a t H) as (t2 & H2 & I2).
  destruct (H23 a t2 H2) as (t3 & H3 & I3). exists t3. split; [done|].
  by eapply sameIdentity_trans.
Qed.

Lemma steady_refl s : steady s s.
Proof. intros Hwf. split; [done|]. split; [apply persists_refl|done]. Qed.

Lemma steady_trans s1 s2 s3 : steady s1 s2 → steady s2 s3 → steady s1 s3.
Proof.
  intros H12 H23 Hwf. destruct (H12 Hwf) as (W2 & P12 & L12).
  destruct (H23 W2) as (W3 & P23 & L23).
  split; [done|]. split; [by eapply persists_trans|lia].
Qed.

Lemma steady_inPlace s s' : inPlace s s' → steady s s'.
Proof.
  intros (Hfwd & Hbwd & Hid & Hreg) Hwf. split; [|split; [|lia]].
  - split.
    + intros a t' H'. destruct (Hbwd a t' H') as (q & Hq & (I & _)).
      destruct (wf_id s Hwf a q Hq) as (? & ? & ?). destruct I as (-> & _).
      rewrite Hid. by repeat split.
    + rewrite Hid. by apply wf_counter.
    + intros a t' p H' Hp. destruct (Hbwd a t' H') as (q & Hq & (I & _)).
      destruct I as (_ & Ep & El & _ & Ei & En & _).
      rewrite Ep in Hp. destruct (wf_parent s Hwf a q p Hq Hp)
        as (tp & Htp & Hl & Hlt & Himpl & suffix & Hname).
      destruct (Hfwd p tp Htp) as (tp' & Htp' & ((_ & _ & El' & _ & _ & En' & _) & _)).
      exists tp'. split; [done|]. rewrite El, El', Ei, En, En'. repeat split; try done.
      by exists suffix.
    + intros a t' H' Hp. destruct (Hbwd a t' H') as (q & Hq & (I & _)).
      destruct I as (_ & Ep & El & _ & Ei & _). rewrite Ep in Hp. rewrite El, Ei.
      by apply (wf_root s Hwf a q).
    + intros a t' H'. destruct (Hbwd a t' H') as (q & Hq & (I & _)).
      destruct I as (_ & _ & _ & _ & _ & En & Ed & _). rewrite En, Ed.
      by apply (wf_display s Hwf a q).
    + intros a t' h H' Hh. destruct (Hbwd a t' H') as (q & Hq & (I & _ & Hhd)).
      apply (handlerOf_sameIdentity q t' h I).
      destruct (Hhd h Hh) as [Hold|Hnew]; [by apply (wf_handler s Hwf a q h)|done].
    + intros k v Hk. rewrite Hreg in Hk. destruct (wf_registry s Hwf k v Hk) as [-> [q Hq]].
      split; [done|]. destruct (Hfwd v q Hq) as (t' & Ht' & _). by exists t'.
    + intros a t' c H' Hc. destruct (Hbwd a t' H') as (q & Hq & (_ & Hin & _)).
      destruct (wf_inner s Hwf a q c Hq (Hin c Hc)) as (tc & Htc & Hpc).
      destruct (Hfwd c tc Htc) as (tc' & Htc' & ((_ & Ep & _) & _)).
      exists tc'. split; [done|]. by rewrite Ep.
  - intros a t H. destruct (Hfwd a t H) as (t' & Ht' & (I & _)). by exists t'.
Qed.

(** A step that leaves the heap, the counter and the registry alone. *)
Lemma steady_quiet s s' :
  heap s' = heap s → transactionId s' = transactionId s →
  transactions s' = transactions s → steady s s'.
Proof.
  intros Hh Hi Hr. apply steady_inPlace. repeat split; try done.
  - intros b q Hq. exists q. rewrite Hh. split; [done|apply touched_refl].
  - intros b t' Ht'. exists t'. rewrite <- Hh. split; [done|apply touched_refl].
Qed.

(** A setter applied to one object. *)
Lemma steady_alter_at (g : Transaction → Transaction) a s :
  (∀ q, heap s !! a = Some q → touched q (g q)) → steady s (with_heap (alter g a) s).
Proof.
  intros Hg. apply steady_inPlace. repeat split; try done.
  - intros b q Hq. cbn. rewrite lookup_alter. case_decide; subst; rewrite Hq; cbn.
    + exists (g q). split; [done|by apply Hg].
    + exists q. split; [done|apply touched_refl].
  - intros b t'. cbn. rewrite lookup_alter. case_decide; subst.
    + destruct (heap s !! b) as [q|] eqn:Hq; [|done]. cbn. intros [= <-].
      exists q. split; [done|by apply Hg].
    + intros Hb. exists t'. split; [done|apply touched_refl].
Qed.

Lemma steady_alter (g : Transaction → Transaction) a s :
  (∀ q, touched q (g q)) → steady s (with_heap (alter g a) s).
Proof. intros Hg. apply steady_alter_at. intros q _. apply Hg. Qed.

Lemma touched_set_status st q : touched q (set_status st q).
Proof. split; [by repeat split|]. split; [done|]. intros h ?. by left. Qed.

Lemma touched_set_innerCommitStack l q : touched q (set_innerCommitStack l q).
Proof. split; [by repeat split|]. split; [done|]. intros h ?. by left. Qed.

Lemma touched_remove tx q :
  touched q (set_innerTransactions (filter (λ a, a ≠ tx) (innerTransactions q)) q).
Proof.
  split; [by repeat split|]. split; [|intros h ?; by left].
  intros c. cbn. rewrite list_elem_of_filter. by intros [_ ?].
Qed.

Lemma touched_set_handler h q : handlerOf q h → touched q (set_handler h q).
Proof.
  intros Hh. split; [by repeat split|]. split; [done|].
  intros h' [= <-]. by right.
Qed.

(** The constructor: a new object at the address the counter gives, and
    its address on the parent's list. *)
Lemma steady_allocate (t : Transaction) (parent : option nat) (s : State) :
  id t = transactionId s → handler t = None → innerTransactions t = [] →
  display t = formatName (name t) → parentTransaction t = parent →
  match parent with
  | Some p => ∃ pt, heap s !! p = Some pt ∧ level t = level pt + 1
                    ∧ implParent (impl t) = Some p
                    ∧ ∃ suffix, name t = (name pt ++ "/" ++ suffix)%string
  | None => level t = 0 ∧ implParent (impl t) = None
  end →
  steady s
    (with_heap (λ h, <[transactionId s := t]>
                       (match parent with
                        | Some p => alter (pushInner (transactionId s)) p h
                        | None => h
                        end))
       (with_transactionId (S (transactionId s)) s)).
Proof.
  intros Hid Hh Hin Hd Hpar Hp Hwf.
  set (i := transactionId s) in *.
  set (hm := match parent with
             | Some p => alter (pushInner i) p (heap s)
             | None => heap s
             end).
  assert (∀ b q', hm !! b = Some q' →
            ∃ q, heap s !! b = Some q ∧ sameIdentity q q' ∧ handler q' = handler q
                 ∧ ∀ c, c ∈ innerTransactions q' →
                        c ∈ innerTransactions q ∨ (c = i ∧ parent = Some b)) as F1.
  { intros b q'. unfold hm. destruct parent as [p|].
    - rewrite lookup_alter. case_decide; subst.
      + destruct (heap s !! b) as [q|]; [|done]. cbn. intros [= <-].
        exists q. repeat split; try done. intros c. cbn. rewrite elem_of_app.
        intros [?|Hc]; [by left|]. right. apply list_elem_of_singleton in Hc. by subst.
      + intros Hb. exists q'. repeat split; try done. intros c ?. by left.
    - intros Hb. exists q'. repeat split; try done. intros c ?. by left. }
  assert (∀ b q, heap s !! b = Some q → ∃ q', hm !! b = Some q' ∧ sameIdentity q q') as F2.
  { intros b q Hq. unfold hm. destruct parent as [p|].
    - rewrite lookup_alter. case_decide; subst; rewrite Hq; cbn.
      + exists (pushInner i q). by repeat split.
      + exists q. split; [done|apply sameIdentity_refl].
    - exists q. split; [done|apply sameIdentity_refl]. }
  assert (∀ b q, heap s !! b = Some q → b ≠ i) as Hne.
  { intros b q Hq ->. destruct (wf_id s Hwf _ _ Hq) as (_ & _ & ?). unfold i in *. lia. }
  assert (∀ b q', b ≠ i → hm !! b = Some q' → <[i:=t]> hm !! b = Some q') as Hkeep.
  { intros b q' Hb Hq'. by rewrite lookup_insert_ne. }
  assert (∀ b x, <[i:=t]> hm !! b = Some x →
            (b = i ∧ x = t) ∨ (b ≠ i ∧ hm !! b = Some x)) as Hcase.
  { intros b x. rewrite lookup_insert. case_decide; [subst|].
    - intros [= <-]. by left.
    - intros Hx. by right. }
  split; [|split; [|cbn; lia]].
  - split; cbn [heap with_heap with_transactionId transactionId transactions].
    + intros b x Hx. destruct (Hcase b x Hx) as [[-> ->]|[Hb Hm]].
      * pose proof (wf_counter s Hwf). fold i in H. split; [done|]. lia.
      * destruct (F1 b x Hm) as (q & Hq & (Ei & _) & _).
        destruct (wf_id s Hwf b q Hq) as (? & ? & ?). rewrite Ei. fold i in H1.
        repeat split; try done. lia.
    + lia.
    + intros b x p Hx Hxp. destruct (Hcase b x Hx) as [[-> ->]|[Hb Hm]].
      * rewrite Hpar in Hxp. destruct parent as [p'|]; [|done]. injection Hxp as ->.
        destruct Hp as (pt & Hpt & Hl & Himpl & suffix & Hname).
        destruct (F2 p pt Hpt) as (pt' & Hpt' & (_ & _ & El & _ & _ & En & _)).
        exists pt'. split; [apply Hkeep; [by eapply Hne|done]|].
        rewrite El, En. repeat split; try done.
        -- destruct (wf_id s Hwf p pt Hpt) as (_ & _ & ?). by fold i in H.
        -- by exists suffix.
      * destruct (F1 b x Hm) as (q & Hq & (_ & Ep & El & _ & Ei & En & _) & _).
        rewrite Ep in Hxp. destruct (wf_parent s Hwf b q p Hq Hxp)
          as (tp & Htp & Hl & Hlt & Himpl & suffix & Hname).
        destruct (F2 p tp Htp) as (tp' & Htp' & (_ & _ & El' & _ & _ & En' & _)).
        exists tp'. split; [apply Hkeep; [by eapply Hne|done]|].
        rewrite El, El', Ei, En, En'. repeat split; try done. by exists suffix.
    + intros b x Hx Hxp. destruct (Hcase b x Hx) as [[-> ->]|[Hb Hm]].
      * rewrite Hpar in Hxp. by destruct parent.
      * destruct (F1 b x Hm) as (q & Hq & (_ & Ep & El & _ & Ei & _) & _).
        rewrite Ep in Hxp. rewrite El, Ei. by apply (wf_root s Hwf b q).
    + intros b x Hx. destruct (Hcase b x Hx) as [[-> ->]|[Hb Hm]]; [done|].
      destruct (F1 b x Hm) as (q & Hq & (_ & _ & _ & _ & _ & En & Ed & _) & _).
      rewrite En, Ed. by apply (wf_display s Hwf b q).
    + intros b x h Hx Hxh. destruct (Hcase b x Hx) as [[-> ->]|[Hb Hm]]; [congruence|].
      destruct (F1 b x Hm) as (q & Hq & I & Eh & _). rewrite Eh in Hxh.
      apply (handlerOf_sameIdentity q x h I). by apply (wf_handler s Hwf b q).
    + intros k v Hk. destruct (wf_registry s Hwf k v Hk) as [-> [q Hq]].
      split; [done|]. destruct (F2 v q Hq) as (q' & Hq' & _).
      exists q'. apply Hkeep; [by eapply Hne|done].
    + intros b x c Hx Hc. destruct (Hcase b x Hx) as [[-> ->]|[Hb Hm]].
      * rewrite Hin in Hc. by apply elem_of_nil in Hc.
      * destruct (F1 b x Hm) as (q & Hq & _ & _ & Hcs).
        destruct (Hcs c Hc) as [Hold|[-> Hnew]].
        -- destruct (wf_inner s Hwf b q c Hq Hold) as (tc & Htc & Hpc).
           destruct (F2 c tc Htc) as (tc' & Htc' & (_ & Ep & _)).
           exists tc'. split; [apply Hkeep; [by eapply Hne|done]|]. by rewrite Ep.
        -- exists t. split; [apply lookup_insert_eq|]. by rewrite Hpar.
  - intros b q Hq. destruct (F2 b q Hq) as (q' & Hq' & I).
    exists q'. split; [|done]. cbn. apply Hkeep; [by eapply Hne|done].
Qed.

Lemma persists_same_heap s s' : heap s' = heap s → persists s s'.
Proof. intros Hh a t H. exists t. rewrite Hh. split; [done|apply sameIdentity_refl]. Qed.

Lemma steady_counter (n : nat) s :
  (transactionId s ≤ n)%nat → steady s (with_transactionId n s).
Proof.
  intros Hn Hwf. split; [|split; [by apply persists_same_heap|done]].
  split; cbn; try apply Hwf.
  - intros a t H. destruct (wf_id s Hwf a t H) as (? & ? & ?). repeat split; try done. lia.
  - pose proof (wf_counter s Hwf). lia.
Qed.

(** [transactions[transaction.id] = transaction]. *)
Lemma steady_register a t s :
  heap s !! a = Some t → steady s (with_transactions (λ r, <[id t := a]> r) s).
Proof.
  intros Ht Hwf. split; [|split; [by apply persists_same_heap|done]].
  split; cbn; try apply Hwf.
  intros k v. rewrite lookup_insert. case_decide; [subst|apply Hwf].
  intros [= <-]. split; [by apply (wf_id s Hwf a t)|by exists t].
Qed.

(** [delete transactions[transaction.id]]. *)
Lemma steady_unregister a s : steady s (with_transactions (delete a) s).
Proof.
  intros Hwf. split; [|split; [by apply persists_same_heap|done]].
  split; cbn; try apply Hwf.
  intros k v. rewrite lookup_delete. case_decide; [done|apply Hwf].
Qed.

Lemma steadyM_ret {A} (a : A) : steadyM (ret a).
Proof. intros s. apply steady_refl. Qed.

Lemma steadyM_throw {A} e : steadyM (@throw A e).
Proof. intros s. apply steady_refl. Qed.

Lemma steadyM_gets {A} (f : State → A) : steadyM (gets f).
Proof. intros s. apply steady_refl. Qed.

Lemma steadyM_deref a : steadyM (deref a).
Proof. intros s. unfold deref. destruct (heap s !! a); apply steady_refl. Qed.

Lemma steadyM_modify (f : State → State) : (∀ s, steady s (f s)) → steadyM (modify f).
Proof. intros H s. apply H. Qed.

Lemma steadyM_bind {A B} (m : M A) (k : A → M B) :
  steadyM m → (∀ a, steadyM (k a)) → steadyM (bind m k).
Proof.
  intros Hm Hk s. unfold bind. specialize (Hm s).
  destruct (m s) as [[a|e] s1]; [|exact Hm].
  eapply steady_trans; [exact Hm|apply Hk].
Qed.

Lemma steady_emit ev s : steady s (emit ev s).
Proof. by apply steady_quiet. Qed.

Lemma steadyM_logger lvl tx msg : steadyM (logger lvl tx msg).
Proof. apply steadyM_modify, steady_emit. Qed.

Lemma steadyM_callHook h tx b : steadyM (callHook h tx b).
Proof.
  apply steadyM_bind; [apply steadyM_modify, steady_emit|].
  intros _. destruct b; [apply steadyM_ret|apply steadyM_throw].
Qed.

Lemma steadyM_thenDetached r j : steadyM (thenDetached r j).
Proof.
  unfold thenDetached. destruct (settle r).
  - destruct (isThenable r); apply steadyM_modify; intros s; by apply steady_quiet.
  - apply steadyM_modify, steady_emit.
  - apply steadyM_ret.
Qed.

Create HintDb steady.
#[local] Hint Resolve steady_refl steady_emit steadyM_ret steadyM_throw steadyM_gets
  steadyM_deref steadyM_logger steadyM_callHook steadyM_thenDetached
  touched_set_status touched_set_innerCommitStack touched_remove : steady.

Ltac steady_chain := repeat (apply steadyM_bind; [solve [auto with steady]|intros]).

Lemma steadyM_set (g : Transaction → Transaction) a :
  (∀ q, touched q (g q)) → steadyM (modify (with_heap (alter g a))).
Proof. intros Hg. apply steadyM_modify. intros s. by apply steady_alter. Qed.

Lemma steadyM_rollback tx err : steadyM (rollback tx err).
Proof.
  apply steadyM_bind; [|auto with steady]. apply steadyM_set. auto with steady.
Qed.

Lemma steadyM_processRollback tx err : steadyM (processRollback tx err).
Proof.
  apply steadyM_bind; [auto with steady|]. intros t.
  destruct (isNullish err); [auto with steady|].
  steady_chain. apply steadyM_rollback.
Qed.

Lemma steadyM_processCommit tx result : steadyM (processCommit tx result).
Proof.
  steady_chain. case_match; [steady_chain; auto with steady|].
  steady_chain. case_match; [steady_chain; auto with steady|].
  steady_chain. case_match; [auto with steady|].
  steady_chain.
  apply steadyM_bind; [apply steadyM_set; auto with steady|]. intros _.
  apply steadyM_bind; [|auto with steady].
  case_match; [|auto with steady].
  apply steadyM_set. auto with steady.
Qed.

Lemma steady_callback tx r s : steady s (callback tx r s).
Proof.
  apply steady_quiet; [apply callback_heap|apply callback_transactionId|].
  unfold callback. destruct (heap s !! tx) as [t|]; [|done].
  destruct (o_onCommit (options t)) as [[v|e]|]; cbn; try done.
  by destruct (settle v).
Qed.

Lemma steady_runDeferred_all (l : list Deferred) s :
  steady s (foldl (λ acc d, runDeferred d acc) s l).
Proof.
  revert s. induction l as [|d l IH]; intros s; cbn; [apply steady_refl|].
  eapply steady_trans; [apply (steady_callback (d_transaction d) (d_result d))|apply IH].
Qed.

Lemma steady_onCommit tx r s : steady s (onCommit tx r s).
Proof.
  unfold onCommit. destruct (heap s !! tx) as [t|]; [|apply steady_refl].
  destruct (o_onCommit (options t)); [|apply steady_refl].
  destruct (parentTransaction t) as [p|].
  - apply steady_alter. auto with steady.
  - eapply steady_trans; [apply steady_runDeferred_all|apply steady_callback].
Qed.

Lemma steady_onRollback tx s : steady s (onRollback tx s).
Proof.
  unfold onRollback. destruct (heap s !! tx) as [t|]; [|apply steady_refl].
  destruct (o_onRollback (options t)) as [[v|e]|]; [| |apply steady_refl].
  - destruct (settle v); by apply steady_quiet.
  - by apply steady_quiet.
Qed.

Lemma steady_runJobs (q : list Job) s : steady s (foldl (λ acc j, runJob j acc) s q).
Proof.
  revert s. induction q as [|j q IH]; intros s; cbn; [apply steady_refl|].
  eapply steady_trans; [|apply IH].
  destruct j; [apply steady_onCommit|apply steady_onRollback].
Qed.

Lemma steady_drain s : steady s (drain s).
Proof.
  unfold drain. eapply steady_trans; [|apply steady_runJobs]. by apply steady_quiet.
Qed.

Lemma steadyM_newTransaction c parent o : steadyM (newTransaction c parent o).
Proof.
  intros s. unfold newTransaction. rewrite bind_gets, bind_modify.
  destruct parent as [p|].
  - unfold bind at 1, deref. cbn [heap with_transactionId].
    destruct (heap s !! p) as [pt|] eqn:Hp; [|apply steady_counter; lia].
    rewrite bind_modify. cbn [ret snd].
    apply (steady_allocate _ (Some p)); try done.
    exists pt. repeat split; try done. by eexists.
  - rewrite bind_modify. cbn [ret snd].
    by apply (steady_allocate _ None).
Qed.

Lemma steadyM_createTransaction parent o : steadyM (createTransaction parent o).
Proof.
  apply steadyM_bind; [apply steadyM_gets|]. intros c.
  apply steadyM_bind; [apply steadyM_newTransaction|]. intros a.
  intros s. unfold bind, deref. destruct (heap s !! a) as [t|] eqn:Ht; [|apply steady_refl].
  cbn. by apply steady_register.
Qed.

Lemma steadyM_startInner tx o : steadyM (startInner tx o).
Proof.
  apply steadyM_bind; [apply steadyM_deref|]. intros t. apply steadyM_createTransaction.
Qed.

Lemma steadyM_defineTransaction arguments : steadyM (defineTransaction arguments).
Proof.
  unfold defineTransaction. apply steadyM_bind.
  - destruct (isString _ "REUSE").
    { destruct (argument 1 arguments); try apply steadyM_throw.
      apply steadyM_bind; [apply steadyM_gets|intros; apply steadyM_ret]. }
    destruct (isString _ "NEW").
    { destruct (isHandler _); [apply steadyM_throw|apply steadyM_ret]. }
    destruct (isString _ "REUSE_OR_NEW"); [apply steadyM_ret|apply steadyM_throw].
  - intros [parent o]. apply steadyM_bind; [apply steadyM_gets|]. intros d.
    apply steadyM_createTransaction.
Qed.

Lemma steadyM_reUseOrCreateTransaction arguments :
  steadyM (reUseOrCreateTransaction arguments).
Proof.
  assert (∀ x, steadyM (readFreeIdentifier x)) as Hread.
  { intros x s. unfold readFreeIdentifier. destruct (globals s !! x); apply steady_refl. }
  apply steadyM_bind; [apply Hread|]. intros p.
  apply steadyM_bind; [apply Hread|]. intros o. apply steadyM_defineTransaction.
Qed.

Lemma steadyS_processBegin tx : steadyS (processBegin tx).
Proof.
  intros s. unfold processBegin.
  assert (steadyM (let* t := deref tx in
                   logger info tx MsgBegin;;
                   callHook hookBegin tx (processBeginHook (impl t)))) as H.
  { steady_chain. auto with steady. }
  specialize (H s).
  destruct (bind (deref tx) _ s) as [[r|e] s']; exact H.
Qed.

Lemma handlerOf_new s a t :
  wellFormed s → heap s !! a = Some t → handlerOf t (newTransactionHandler s t).
Proof.
  intros Hwf Ht. repeat split.
  intros p. cbn. destruct (parentTransaction t) as [p'|] eqn:Hp; [|done]. cbn.
  destruct (heap s !! p') as [pt|] eqn:Hpt; [|done]. cbn.
  destruct (handler pt) as [hp|] eqn:Hh; [|done]. cbn. intros [= <-].
  destruct (wf_handler s Hwf p' pt hp Hpt Hh) as (E & _). rewrite E.
  by destruct (wf_id s Hwf p' pt Hpt) as (-> & _).
Qed.

(** The protected code may do what it likes as long as it keeps the shape
    too; the handler it is given is the transaction's own. *)
Lemma steadyM_processExecution tx processFn :
  (∀ h, steadyM (processFn h)) → steadyM (processExecution tx processFn).
Proof.
  intros Hfn s. unfold processExecution, bind at 1, deref.
  destruct (heap s !! tx) as [t|] eqn:Ht; [|apply steady_refl].
  rewrite bind_gets, bind_modify.
  eapply steady_trans.
  - intros Hwf.
    apply (steady_alter_at (set_handler (newTransactionHandler s t)) tx); [|exact Hwf].
    intros q Hq. apply touched_set_handler.
    assert (q = t) as -> by congruence. by apply (handlerOf_new s tx).
  - apply steadyM_bind; [apply Hfn|]. intros r.
    destruct (isObject r && isThenable r); apply steadyM_ret.
Qed.

Lemma steadyM_andDrain f v : steadyM (f v) → steadyM (andDrain f v).
Proof.
  intros H s. unfold andDrain. specialize (H s). destruct (f v s) as [r s'].
  eapply steady_trans; [exact H|apply steady_drain].
Qed.

Lemma steadyS_then_ p f : (∀ v, steadyM (f v)) → steadyS (then_ p f).
Proof.
  intros H s. unfold then_. destruct p as [v| |]; try apply steady_refl.
  specialize (H v s). by destruct (f v s) as [[r|e] s'].
Qed.

Lemma steadyS_catch_ p f : (∀ v, steadyM (f v)) → steadyS (catch_ p f).
Proof.
  intros H s. unfold catch_. destruct p as [|v|]; try apply steady_refl.
  specialize (H v s). by destruct (f v s) as [[r|e] s'].
Qed.

Lemma steadyS_settleExecution tx p1 pr : steadyS (settleExecution tx p1 pr).
Proof.
  intros s. unfold settleExecution.
  pose proof (steadyS_then_ p1 (andDrain (processCommit tx))
                (λ v, steadyM_andDrain _ v (steadyM_processCommit tx v)) s) as H2.
  destruct (then_ p1 _ s) as [p2 s2].
  pose proof (steadyS_then_ p2 (λ _, ret pr) (λ _, steadyM_ret pr) s2) as H3.
  destruct (then_ p2 _ s2) as [p3 s3].
  pose proof (steadyS_catch_ p3 (andDrain (processRollback tx))
                (λ v, steadyM_andDrain _ v (steadyM_processRollback tx v)) s3) as H4.
  eapply steady_trans; [exact H2|]. eapply steady_trans; [exact H3|exact H4].
Qed.

Lemma steadyS_execute tx processFn :
  (∀ h, steadyM (processFn h)) → steadyS (execute tx processFn).
Proof.
  intros Hfn s. unfold execute.
  pose proof (steadyS_processBegin tx s) as H0.
  destruct (processBegin tx s) as [p0 s0]. cbn [snd] in H0.
  eapply steady_trans; [exact H0|].
  destruct p0 as [v|e|]; try apply steadyS_settleExecution.
  pose proof (steadyM_processExecution tx processFn Hfn s0) as H1.
  destruct (processExecution tx processFn s0) as [[[returned pr]|e] s1]; cbn [snd] in H1;
    (eapply steady_trans; [exact H1|apply steadyS_settleExecution]).
Qed.

Lemma steadyS_thenableExecute th processFn :
  (∀ h, steadyM (processFn h)) → steadyS (thenableExecute th processFn).
Proof.
  intros Hfn s. unfold thenableExecute.
  pose proof (steadyS_execute (th_transaction th) processFn Hfn s) as H.
  destruct (execute _ processFn s) as [p s']. cbn [snd] in H.
  eapply steady_trans; [exact H|].
  unfold finally_. destruct p; cbn [snd]; try apply steady_refl; apply steady_unregister.
Qed.

Lemma steady_hookFulfils n s : steady s (hookFulfils n s).
Proof.
  unfold hookFulfils. destruct (awaited s !! n) as [j|]; [|apply steady_refl].
  eapply steady_trans;
    [by apply (steady_quiet s (with_awaited (delete n (awaited s)) s))|].
  destruct j; [apply steady_onCommit|apply steady_onRollback].
Qed.

Lemma steadyM_behaves b h : steadyM (behaves b h).
Proof. destruct b; [apply steadyM_ret|apply steadyM_throw]. Qed.

Lemma steady_step op s : steady s (step op s).
Proof.
  destruct op; cbn [step].
  - apply steadyM_defineTransaction.
  - apply steadyM_reUseOrCreateTransaction.
  - by apply steady_quiet.
  - apply steadyM_startInner.
  - apply steadyM_rollback.
  - apply steadyS_processBegin.
  - apply steadyM_processExecution, steadyM_behaves.
  - apply steadyM_processCommit.
  - apply steadyM_processRollback.
  - apply steady_drain.
  - apply steady_unregister.
  - apply steadyS_thenableExecute, steadyM_behaves.
  - apply steady_hookFulfils.
Qed.

Lemma steady_run ops s : steady s (run ops s).
Proof.
  revert s. induction ops as [|op ops IH]; intros s; cbn; [apply steady_refl|].
  eapply steady_trans; [apply steady_step|apply IH].
Qed.

Lemma wellFormed_initialState : wellFormed initialState.
Proof.
  split; cbn; try (intros ? ? ?; rewrite lookup_empty; done);
    try (intros ? ?; rewrite lookup_empty; done); try lia.
Qed.

Lemma wellFormed_run ops : wellFormed (run ops initialState).
Proof. apply steady_run, wellFormed_initialState. Qed.

(** ** The handler object *)

Lemma assign_all_other (l : list (string * nat)) (obj : gmap string HandlerProperty) n :
  n ∉ l.*1 →
  foldl (λ thisObj m, <[m.1 := HDelegate m.2]> thisObj) obj l !! n = obj !! n.
Proof.
  revert obj. induction l as [|[n' f'] l IH]; intros obj Hn; cbn; [done|].
  cbn in Hn. rewrite not_elem_of_cons in Hn. destruct Hn as [Hne Hn].
  rewrite IH by done. by rewrite lookup_insert_ne.
Qed.

Lemma assign_all_last (l1 l2 : list (string * nat)) (obj : gmap string HandlerProperty) n f :
  n ∉ l2.*1 →
  foldl (λ thisObj m, <[m.1 := HDelegate m.2]> thisObj) obj (l1 ++ (n, f) :: l2) !! n
  = Some (HDelegate f).
Proof.
  intros Hn. rewrite foldl_app. cbn. rewrite assign_all_other by done.
  apply lookup_insert_eq.
Qed.

Lemma assign_all_some (l : list (string * nat)) (obj : gmap string HandlerProperty) n :
  n ∈ l.*1 →
  ∃ f, (n, f) ∈ l
       ∧ foldl (λ thisObj m, <[m.1 := HDelegate m.2]> thisObj) obj l !! n
         = Some (HDelegate f).
Proof.
  revert obj. induction l as [|[n' f'] l IH]; intros obj Hn; cbn in *.
  - by apply elem_of_nil in Hn.
  - destruct (decide (n ∈ l.*1)) as [Hl|Hl].
    + destruct (IH (<[n':=HDelegate f']> obj) Hl) as (f & Hf & E).
      exists f. split; [by right|done].
    + apply elem_of_cons in Hn as [->|Hn]; [|done].
      exists f'. split; [by left|]. rewrite assign_all_other by done.
      apply lookup_insert_eq.
Qed.

Lemma ownHandlerProperties_id h : ownHandlerProperties h !! "id" = Some (HId (h_id h)).
Proof. reflexivity. Qed.

Lemma ownHandlerProperties_parent h :
  ownHandlerProperties h !! "parent" = Some (HParent (h_parent h)).
Proof. reflexivity. Qed.

Lemma ownHandlerProperties_rollback h : ownHandlerProperties h !! "rollback" = Some HRollback.
Proof. reflexivity. Qed.

(** [handler.id] is the number the constructor assigned unless a method
    named [id] was collected, which replaces it. *)
Lemma handlerId_kept h : "id" ∉ (h_methods h).*1 → handlerId h = Some (h_id h).
Proof.
  intros Hn. unfold handlerId, handlerObject. by rewrite assign_all_other.
Qed.

Lemma handlerId_replaced h : "id" ∈ (h_methods h).*1 → handlerId h = None.
Proof.
  intros Hn. unfold handlerId, handlerObject.
  by destruct (assign_all_some _ (ownHandlerProperties h) _ Hn) as (f & _ & ->).
Qed.

(** ** What holds in every state the library can reach *)

Lemma run_app ops ops' s : run (ops ++ ops') s = run ops' (run ops s).
Proof. apply foldl_app. Qed.

Lemma wellFormed_ancestor s :
  wellFormed s →
  ∀ n a t, heap s !! a = Some t → level t = n →
    ∃ r tr, ancestor s n a = Some r ∧ heap s !! r = Some tr
            ∧ parentTransaction tr = None.
Proof.
  intros Hwf. induction n as [|n IH]; intros a t Ht Hl.
  - exists a, t. repeat split; [done|].
    destruct (parentTransaction t) as [p|] eqn:Hp; [|done].
    destruct (wf_parent _ Hwf a t p Ht Hp) as (tp & _ & E & _). lia.
  - destruct (parentTransaction t) as [p|] eqn:Hp.
    + destruct (wf_parent _ Hwf a t p Ht Hp) as (tp & Htp & E & _).
      destruct (IH p tp Htp ltac:(lia)) as (r & tr & Hr & Htr & Hroot).
      exists r, tr. repeat split; [|done..]. cbn. rewrite Ht. cbn. by rewrite Hp.
    + destruct (wf_root _ Hwf a t Ht Hp). lia.
Qed.

(** X1: in every state reached from the freshly loaded module, a
    transaction has level 0 exactly when it has no parent, an inner
    transaction is one level below its parent, and following
    [parentTransaction] as many times as the level says ends at a root. *)
Theorem level_counts_the_ancestors (ops : list Op) (a : nat) (t : Transaction) :
  heap (run ops initialState) !! a = Some t →
  (parentTransaction t = None ↔ level t = 0)
  ∧ (∀ p, parentTransaction t = Some p →
       ∃ tp, heap (run ops initialState) !! p = Some tp ∧ level t = level tp + 1)
  ∧ (∃ r tr, ancestor (run ops initialState) (level t) a = Some r
             ∧ heap (run ops initialState) !! r = Some tr
             ∧ parentTransaction tr = None).
Proof.
  intros Ht. pose proof (wellFormed_run ops) as Hwf. split; [|split].
  - split.
    + intros Hp. by destruct (wf_root _ Hwf a t Ht Hp).
    + intros Hl. destruct (parentTransaction t) as [p|] eqn:Hp; [|done].
      destruct (wf_parent _ Hwf a t p Ht Hp) as (tp & _ & E & _). lia.
  - intros p Hp. destruct (wf_parent _ Hwf a t p Ht Hp) as (tp & Htp & E & _).
    by exists tp.
  - by apply (wellFormed_ancestor _ Hwf (level t) a t).
Qed.

(** X2: the id of a transaction is the value the counter had when it was
    constructed: it is positive and below the counter, no two transactions
    share one, and the counter never goes down. *)
Theorem ids_come_from_the_counter (ops ops' : list Op) (a b : nat) (ta tb : Transaction) :
  heap (run ops initialState) !! a = Some ta →
  heap (run ops initialState) !! b = Some tb →
  0 < id ta < transactionId (run ops initialState)
  ∧ (id ta = id tb → ta = tb)
  ∧ (transactionId (run ops initialState)
     ≤ transactionId (run (ops ++ ops') initialState))%nat.
Proof.
  intros Ha Hb. pose proof (wellFormed_run ops) as Hwf.
  destruct (wf_id _ Hwf a ta Ha) as (Ea & ? & ?).
  destruct (wf_id _ Hwf b tb Hb) as (Eb & ? & ?).
  split; [lia|]. split.
  - intros E. assert (a = b) as -> by congruence. congruence.
  - rewrite run_app. by apply (steady_run ops' (run ops initialState)).
Qed.

(** X3: what the constructor sets apart from [status] and the two lists
    ([id], [parentTransaction], [level], [options], [impl], [name],
    [display]) is never written again: whatever operations follow, the
    transaction has these fields as they were. *)
Theorem constructor_fields_are_final (ops ops' : list Op) (a : nat) (t : Transaction) :
  heap (run ops initialState) !! a = Some t →
  ∃ t', heap (run (ops ++ ops') initialState) !! a = Some t'
        ∧ id t' = id t ∧ parentTransaction t' = parentTransaction t
        ∧ level t' = level t ∧ options t' = options t ∧ impl t' = impl t
        ∧ name t' = name t ∧ display t' = display t.
Proof.
  intros Ht. rewrite run_app.
  destruct (steady_run ops' (run ops initialState) (wellFormed_run ops)) as (_ & Hp & _).
  destruct (Hp a t Ht) as (t' & Ht' & (?&?&?&?&?&?&?&?)). exists t'. by repeat split.
Qed.

(** X4: the registry [transactions] holds a transaction only under its
    own id: an entry found under [k] is a transaction the library
    constructed, and its [id] is [k]. *)
Theorem registry_is_keyed_by_id (ops : list Op) (k v : nat) :
  transactions (run ops initialState) !! k = Some v →
  ∃ t, heap (run ops initialState) !! v = Some t ∧ id t = k.
Proof.
  intros Hk. pose proof (wellFormed_run ops) as Hwf.
  destruct (wf_registry _ Hwf k v Hk) as (-> & [t Ht]).
  exists t. split; [done|]. by destruct (wf_id _ Hwf v t Ht).
Qed.

(** X5: [innerTransactions] of a transaction only ever holds its own
    inner transactions: each entry is a transaction whose
    [parentTransaction] is that transaction, one level below it and
    constructed after it. *)
Theorem innerTransactions_are_children (ops : list Op) (a c : nat) (t : Transaction) :
  heap (run ops initialState) !! a = Some t →
  c ∈ innerTransactions t →
  ∃ tc, heap (run ops initialState) !! c = Some tc
        ∧ parentTransaction tc = Some a ∧ level tc = level t + 1 ∧ id t < id tc.
Proof.
  intros Ht Hc. pose proof (wellFormed_run ops) as Hwf.
  destruct (wf_inner _ Hwf a t c Ht Hc) as (tc & Htc & Hp).
  destruct (wf_parent _ Hwf c tc a Htc Hp) as (tp & Htp & El & Hlt & _).
  assert (tp = t) as -> by congruence.
  exists tc. repeat split; [done..|].
  destruct (wf_id _ Hwf a t Ht) as (-> & _). by destruct (wf_id _ Hwf c tc Htc) as (-> & _).
Qed.

(** X6: the name of an inner transaction is its parent's name, a slash
    and a suffix, [display] is always [formatName] of the name, the
    hooks in [impl] are kept with the same parent as the transaction, and
    a handler, once made, holds the methods collected from the classes of
    its transaction; its [id] is the id of the transaction when none of
    them is named [id], and the delegate of such a method otherwise. *)
Theorem names_follow_the_parents (ops : list Op) (a : nat) (t : Transaction) :
  heap (run ops initialState) !! a = Some t →
  display t = formatName (name t)
  ∧ implParent (impl t) = parentTransaction t
  ∧ (∀ h, handler t = Some h →
       h_methods h = getInstanceMethods (prototypeChain t) (p_address transactionPrototype)
       ∧ ("id" ∉ (h_methods h).*1 → handlerObject h !! "id" = Some (HId (id t)))
       ∧ ("id" ∈ (h_methods h).*1 →
          ∃ f, ("id", f) ∈ h_methods h ∧ handlerObject h !! "id" = Some (HDelegate f)))
  ∧ (∀ p, parentTransaction t = Some p →
       ∃ tp suffix, heap (run ops initialState) !! p = Some tp
                    ∧ name t = (name tp ++ "/" ++ suffix)%string).
Proof.
  intros Ht. pose proof (wellFormed_run ops) as Hwf. repeat split.
  - exact (wf_display _ Hwf a t Ht).
  - destruct (parentTransaction t) as [p|] eqn:Hp.
    + by destruct (wf_parent _ Hwf a t p Ht Hp) as (tp & _ & _ & _ & ? & _).
    + by destruct (wf_root _ Hwf a t Ht Hp).
  - by destruct (wf_handler _ Hwf a t h Ht H) as (_ & ? & _).
  - intros Hn. destruct (wf_handler _ Hwf a t h Ht H) as (<- & _).
    unfold handlerObject. by rewrite assign_all_other.
  - intros Hn. unfold handlerObject. by apply assign_all_some.
  - intros p Hp. destruct (wf_parent _ Hwf a t p Ht Hp) as (tp & Htp & _ & _ & _ & sfx & E).
    by exists tp, sfx.
Qed.

Lemma level_counts_the_ancestors_witness :
  (parentTransaction (objectAt nested 3) = None ↔ level (objectAt nested 3) = 0)
  ∧ (∀ p, parentTransaction (objectAt nested 3) = Some p →
       ∃ tp, heap nested !! p = Some tp ∧ level (objectAt nested 3) = level tp + 1)
  ∧ (∃ r tr, ancestor nested (level (objectAt nested 3)) 3 = Some r
             ∧ heap nested !! r = Some tr ∧ parentTransaction tr = None).
Proof.
  apply (level_counts_the_ancestors nestedOps 3 (objectAt nested 3)).
  vm_compute. reflexivity.
Defined.

Lemma ids_come_from_the_counter_witness :
  0 < id (objectAt nested 2) < transactionId nested
  ∧ (id (objectAt nested 2) = id (objectAt nested 3) → objectAt nested 2 = objectAt nested 3)
  ∧ (transactionId nested
     ≤ transactionId (run (nestedOps ++ middleCommits) initialState))%nat.
Proof.
  apply (ids_come_from_the_counter nestedOps middleCommits 2 3); vm_compute; reflexivity.
Defined.

Lemma constructor_fields_are_final_witness :
  ∃ t', heap (run (nestedOps ++ middleCommits) initialState) !! 2 = Some t'
        ∧ id t' = id (objectAt nested 2)
        ∧ parentTransaction t' = parentTransaction (objectAt nested 2)
        ∧ level t' = level (objectAt nested 2) ∧ options t' = options (objectAt nested 2)
        ∧ impl t' = impl (objectAt nested 2)
        ∧ name t' = name (objectAt nested 2) ∧ display t' = display (objectAt nested 2).
Proof.
  apply (constructor_fields_are_final nestedOps middleCommits 2 (objectAt nested 2)).
  vm_compute. reflexivity.
Defined.

Lemma registry_is_keyed_by_id_witness :
  ∃ t, heap nested !! 3 = Some t ∧ id t = 3.
Proof. apply (registry_is_keyed_by_id nestedOps 3 3). vm_compute. reflexivity. Defined.

Lemma innerTransactions_are_children_witness :
  ∃ tc, heap nested !! 3 = Some tc
        ∧ parentTransaction tc = Some 2 ∧ level tc = level (objectAt nested 2) + 1
        ∧ id (objectAt nested 2) < id tc.
Proof.
  apply (innerTransactions_are_children nestedOps 2 3 (objectAt nested 2)).
  - vm_compute. reflexivity.
  - apply (bool_decide_unpack _). vm_compute. exact I.
Defined.

Lemma names_follow_the_parents_witness :
  (display (objectAt nested 3) = formatName (name (objectAt nested 3))
   ∧ implParent (impl (objectAt nested 3)) = parentTransaction (objectAt nested 3)
   ∧ ∃ tp suffix, heap nested !! 2 = Some tp
                  ∧ name (objectAt nested 3) = (name tp ++ "/" ++ suffix)%string)
  ∧ handler (objectAt extendedExecuting 1) = Some extendedHandler
  ∧ (∃ f, ("id", f) ∈ h_methods extendedHandler
          ∧ handlerObject extendedHandler !! "id" = Some (HDelegate f))
  ∧ handler (objectAt nested 2) = Some {| h_id := 2; h_parent := Some 1; h_methods := [] |}
  ∧ handlerObject {| h_id := 2; h_parent := Some 1; h_methods := [] |} !! "id"
    = Some (HId (id (objectAt nested 2))).
Proof.
  split; [|split; [vm_compute; reflexivity|split; [|split; [vm_compute; reflexivity|]]]].
  - destruct (names_follow_the_parents nestedOps 3 (objectAt nested 3))
      as (H1 & H2 & _ & H4); [vm_compute; reflexivity|].
    split; [exact H1|]. split; [exact H2|]. apply H4. vm_compute. reflexivity.
  - destruct (names_follow_the_parents extendedOps 1 (objectAt extendedExecuting 1))
      as (_ & _ & H3 & _); [vm_compute; reflexivity|].
    destruct (H3 extendedHandler) as (_ & _ & H); [vm_compute; reflexivity|].
    apply H. apply (bool_decide_unpack _). vm_compute. exact I.
  - destruct (names_follow_the_parents nestedOps 2 (objectAt nested 2))
      as (_ & _ & H3 & _); [vm_compute; reflexivity|].
    destruct (H3 {| h_id := 2; h_parent := Some 1; h_methods := [] |}) as (_ & H & _);
      [vm_compute; reflexivity|].
    apply H. apply (bool_decide_unpack _). vm_compute. exact I.
Defined.

(** ** The coordinator and the constructor, in full *)

(** The object the constructor builds for a root transaction. *)
Lemma createTransaction_root_run (o : Options) (s : State) :
  ∃ t,
    createTransaction None o s
    = (Ok {| th_transaction := transactionId s |},
       with_transactions (λ r, <[transactionId s := transactionId s]> r)
         (with_heap (λ h, <[transactionId s := t]> h)
            (with_transactionId (S (transactionId s)) s)))
    ∧ id t = transactionId s ∧ parentTransaction t = None ∧ level t = 0
    ∧ status t = running ∧ options t = o
    ∧ innerTransactions t = [] ∧ innerCommitStack t = []
    ∧ impl t = implOf (chosenClass o s) None
    ∧ name t = (nameOr (o_name o) "id" ++ " #" ++ pretty (transactionId s))%string
    ∧ display t = formatName (name t) ∧ handler t = None.
Proof.
  eexists. split.
  { unfold createTransaction, newTransaction.
    rewrite bind_gets, bind_assoc, bind_gets, bind_assoc, bind_modify.
    rewrite bind_assoc, bind_modify, bind_ret.
    erewrite bind_deref; [|cbn; apply lookup_insert_eq].
    rewrite bind_modify. reflexivity. }
  by repeat split.
Qed.

(** The object the constructor builds for an inner transaction, and what
    it does to the parent. *)
Lemma createTransaction_inner_run (p : nat) (tp : Transaction) (o : Options) (s : State) :
  heap s !! p = Some tp →
  ∃ t,
    createTransaction (Some p) o s
    = (Ok {| th_transaction := transactionId s |},
       with_transactions (λ r, <[transactionId s := transactionId s]> r)
         (with_heap (λ h, <[transactionId s := t]> (alter (pushInner (transactionId s)) p h))
            (with_transactionId (S (transactionId s)) s)))
    ∧ id t = transactionId s ∧ parentTransaction t = Some p ∧ level t = level tp + 1
    ∧ status t = running ∧ options t = o
    ∧ innerTransactions t = [] ∧ innerCommitStack t = []
    ∧ impl t = implOf (chosenClass o s) (Some p)
    ∧ name t = (name tp ++ "/"
                ++ nameOr (o_name o) ("Level " ++ pretty (level tp + 1)))%string
    ∧ display t = formatName (name t) ∧ handler t = None.
Proof.
  intros Hp. eexists. split.
  { unfold createTransaction, newTransaction.
    rewrite bind_gets, bind_assoc, bind_gets, bind_assoc, bind_modify, bind_assoc.
    rewrite (bind_deref p tp); [|exact Hp].
    rewrite bind_assoc, bind_modify, bind_ret.
    erewrite bind_deref; [|cbn; apply lookup_insert_eq].
    rewrite bind_modify. reflexivity. }
  by repeat split.
Qed.

Lemma chosenClass_assignDefault (o : Options) (s : State) :
  chosenClass (assignDefault (Some (DefaultTransactionImplementationClass s)) o) s
  = chosenClass o s.
Proof.
  unfold chosenClass, assignDefault. cbn.
  destruct (o_implementationClass o); [done|].
  by destruct (o_DefaultImplementationClass o) as [[c|]|].
Qed.

Lemma startTransaction_run (o : Arg) (s : State) :
  isHandler o = false →
  startTransaction o s
  = createTransaction None
      (assignDefault (Some (DefaultTransactionImplementationClass s)) (optionsOf o)) s.
Proof.
  intros Ho. unfold startTransaction, defineTransaction. cbn. rewrite Ho. reflexivity.
Qed.

(** X7: [defineTransaction('REUSE', handler, options)] with a handler
    whose [id] still holds the id of a registered transaction constructs
    an inner transaction of it: one level below, running, with the inner
    hooks of the chosen class, pushed at the end of the parent's
    [innerTransactions] and registered under the next id.  With a handler
    whose [id] a method named [id] replaced, the registry is asked for a
    key it cannot hold, and a root transaction is constructed, although the
    handler's transaction is registered. *)
Theorem defineTransaction_reuse_registered
    (s : State) (arguments : list Arg) (h : TransactionHandler) :
  argument 0 arguments = AValue (VStr "REUSE") →
  argument 1 arguments = AHandler h →
  let o := assignDefault (Some (DefaultTransactionImplementationClass s))
             (optionsOf (argument 2 arguments)) in
  (∀ p tp, "id" ∉ (h_methods h).*1 →
     transactions s !! h_id h = Some p → heap s !! p = Some tp → p < transactionId s →
     ∃ s' t tp',
       defineTransaction arguments s = (Ok {| th_transaction := transactionId s |}, s')
       ∧ heap s' !! transactionId s = Some t
       ∧ parentTransaction t = Some p ∧ level t = level tp + 1 ∧ status t = running
       ∧ options t = o
       ∧ impl t = implOf (chosenClass o s) (Some p)
       ∧ heap s' !! p = Some tp'
       ∧ innerTransactions tp' = (innerTransactions tp ++ [transactionId s])%list
       ∧ transactions s' !! transactionId s = Some (transactionId s)
       ∧ transactionId s' = S (transactionId s))
  ∧ ("id" ∈ (h_methods h).*1 → isNewRootWith s o (defineTransaction arguments s)).
Proof.
  intros H0 H1 o. split.
  - intros p tp Hid Hreg Hp Hlt.
    destruct (createTransaction_inner_run p tp o s Hp)
      as (t & E & _ & Hpar & Hlvl & Hst & Ho & _ & _ & Himpl & _).
    eexists _, t, (pushInner (transactionId s) tp).
    split.
    { unfold defineTransaction. rewrite H0, H1. cbn -[createTransaction handlerId].
      rewrite (handlerId_kept h Hid). cbn -[createTransaction].
      rewrite Hreg. exact E. }
    cbn. rewrite lookup_insert_eq, lookup_insert_ne by lia.
    rewrite lookup_alter_eq, Hp, lookup_insert_eq. by repeat split.
  - intros Hid. unfold defineTransaction. rewrite H0, H1. cbn -[createTransaction handlerId].
    rewrite (handlerId_replaced h Hid). exact (createTransaction_root_with _ s).
Qed.

(** X8: under [NEW] the options are the last argument: a call with three
    arguments ignores the second unless it is a handler, and is the call
    [startTransaction(options)]; [REUSE_OR_NEW] does the same whatever its
    second argument is. *)
Theorem new_reads_the_last_argument (s : State) (x o : Arg) :
  isHandler o = false →
  (isHandler x = false →
   defineTransaction [AValue (VStr "NEW"); x; o] s = startTransaction o s)
  ∧ defineTransaction [AValue (VStr "REUSE_OR_NEW"); x; o] s = startTransaction o s.
Proof.
  intros Ho. split.
  - intros Hx. unfold startTransaction, defineTransaction. cbn. by rewrite Hx, Ho.
  - unfold startTransaction, defineTransaction. cbn. by rewrite Ho.
Qed.

(** X9: the root transaction [startTransaction(options)] constructs: it
    has the next id, no parent, level 0 and status [running], and is
    registered under its id; the class is [implementationClass], else the
    [DefaultImplementationClass] of the options if it holds one, else the
    module's default; the transaction is an instance of that class with the
    main hooks of it, never the inner ones, the name
    [<name or 'id'> #<id>], empty lists and no handler, and its options are
    the given ones with a [DefaultImplementationClass] key added when they
    have none. *)
Theorem startTransaction_builds_a_root (s : State) (o : Arg) :
  isHandler o = false →
  ∃ s' t,
    startTransaction o s = (Ok {| th_transaction := transactionId s |}, s')
    ∧ heap s' !! transactionId s = Some t
    ∧ id t = transactionId s ∧ parentTransaction t = None ∧ level t = 0
    ∧ status t = running
    ∧ options t
      = assignDefault (Some (DefaultTransactionImplementationClass s)) (optionsOf o)
    ∧ prototypeChain t = c_chain (chosenClass (optionsOf o) s)
    ∧ processBeginHook (impl t) = c_processBegin (chosenClass (optionsOf o) s)
    ∧ processCommitHook (impl t) = c_processCommit (chosenClass (optionsOf o) s)
    ∧ processRollbackHook (impl t) = c_processRollback (chosenClass (optionsOf o) s)
    ∧ implParent (impl t) = None
    ∧ name t = (nameOr (o_name (optionsOf o)) "id" ++ " #" ++ pretty (transactionId s))%string
    ∧ display t = ("System Trans [" ++ name t ++ "]")%string
    ∧ innerTransactions t = [] ∧ innerCommitStack t = [] ∧ handler t = None
    ∧ is_Some (o_DefaultImplementationClass (options t))
    ∧ transactionId s' = S (transactionId s)
    ∧ transactions s' = <[transactionId s := transactionId s]> (transactions s)
    ∧ (∀ a, a ≠ transactionId s → heap s' !! a = heap s !! a).
Proof.
  intros Ho. rewrite (startTransaction_run o s Ho).
  set (o' := assignDefault (Some (DefaultTransactionImplementationClass s)) (optionsOf o)).
  destruct (createTransaction_root_run o' s)
    as (t & E & Hid & Hpar & Hlvl & Hst & Hopt & Hi & Hc & Himpl & Hn & Hd & Hh).
  destruct (createTransaction_root_with o' s)
    as (s1 & t1 & E1 & Ht1 & _ & _ & _ & _ & _ & _ & Hchain & _ & _ & _ & Hnext & Hreg
        & _ & Hother & _).
  rewrite E in E1. injection E1 as <-.
  cbn in Ht1. rewrite lookup_insert_eq in Ht1. injection Ht1 as <-.
  unfold o' in Himpl, Hchain. rewrite chosenClass_assignDefault in Himpl, Hchain.
  eexists _, t. split; [exact E|]. cbn [heap with_heap with_transactions].
  rewrite lookup_insert_eq.
  rewrite Himpl, Hopt. repeat split; try done.
Qed.

(** X10: the module's default class is copied into the options of a root
    when the root is created: after [setTransactionImplementationClass],
    an inner transaction of an earlier root is still instantiated from the
    earlier default, while a new root is instantiated from the new one. *)
Theorem default_class_is_fixed_at_the_root (s : State) (o innerOptions : Arg) (c' : Class) :
  isHandler o = false →
  o_implementationClass (optionsOf o) = None →
  o_DefaultImplementationClass (optionsOf o) = None →
  o_implementationClass (optionsOf innerOptions) = None →
  o_DefaultImplementationClass (optionsOf innerOptions) = None →
  let s2 := (setTransactionImplementationClass c' (startTransaction o s).2).2 in
  (∃ s3 t,
      startInner (transactionId s) innerOptions s2
      = (Ok {| th_transaction := S (transactionId s) |}, s3)
      ∧ heap s3 !! S (transactionId s) = Some t
      ∧ parentTransaction t = Some (transactionId s)
      ∧ impl t = implOf (DefaultTransactionImplementationClass s) (Some (transactionId s)))
  ∧ (∃ s3 t,
      startTransaction o s2 = (Ok {| th_transaction := S (transactionId s) |}, s3)
      ∧ heap s3 !! S (transactionId s) = Some t
      ∧ parentTransaction t = None
      ∧ impl t = implOf c' None).
Proof.
  intros Ho Hoi Hod Hii Hid s2.
  assert (∃ t, heap s2 !! transactionId s = Some t
               ∧ options t = assignDefault (Some (DefaultTransactionImplementationClass s))
                               (optionsOf o)
               ∧ transactionId s2 = S (transactionId s)
               ∧ DefaultTransactionImplementationClass s2 = c') as (t & Ht & Hopt & Hn & Hd).
  { subst s2. rewrite (startTransaction_run o s Ho).
    destruct (createTransaction_root_run
                (assignDefault (Some (DefaultTransactionImplementationClass s)) (optionsOf o)) s)
      as (t & E & _ & _ & _ & _ & Hopt & _).
    rewrite E. exists t. cbn. by rewrite lookup_insert_eq. }
  split.
  - rewrite (startInner_run _ t _ _ Ht).
    destruct (createTransaction_inner_run (transactionId s) t
                (assignDefault (readDefaultImplementationClass (options t))
                   (optionsOf innerOptions)) s2 Ht)
      as (t' & E & _ & Hpar & _ & _ & _ & _ & _ & Himpl & _).
    rewrite Hn in E. eexists _, t'. split; [exact E|]. cbn. rewrite lookup_insert_eq.
    repeat split; [done|]. rewrite Himpl. f_equal.
    unfold chosenClass, assignDefault, readDefaultImplementationClass. cbn.
    by rewrite Hii, Hid, Hopt; cbn; rewrite Hod.
  - rewrite (startTransaction_run o s2 Ho).
    destruct (createTransaction_root_run
                (assignDefault (Some (DefaultTransactionImplementationClass s2)) (optionsOf o)) s2)
      as (t' & E & _ & Hpar & _ & _ & _ & _ & _ & Himpl & _).
    rewrite Hn in E. eexists _, t'. split; [exact E|]. cbn. rewrite lookup_insert_eq.
    repeat split; [done|]. rewrite Himpl, chosenClass_assignDefault. f_equal.
    unfold chosenClass. by rewrite Hoi, Hod.
Qed.

Lemma defineTransaction_reuse_registered_witness :
  (∃ s' t tp',
     defineTransaction [AValue (VStr "REUSE"); AHandler handlerOfRoot; AOptions withOnCommit]
       executing
     = (Ok {| th_transaction := transactionId executing |}, s')
     ∧ heap s' !! transactionId executing = Some t
     ∧ parentTransaction t = Some 1 ∧ level t = level (objectAt executing 1) + 1
     ∧ status t = running
     ∧ options t = assignDefault (Some (DefaultTransactionImplementationClass executing))
                     withOnCommit
     ∧ impl t = implOf (chosenClass
                          (assignDefault
                             (Some (DefaultTransactionImplementationClass executing))
                             withOnCommit) executing) (Some 1)
     ∧ heap s' !! 1 = Some tp'
     ∧ innerTransactions tp'
       = (innerTransactions (objectAt executing 1) ++ [transactionId executing])%list
     ∧ transactions s' !! transactionId executing = Some (transactionId executing)
     ∧ transactionId s' = S (transactionId executing))
  ∧ handler (objectAt extendedExecuting 1) = Some extendedHandler
  ∧ transactions extendedExecuting !! 1 = Some 1
  ∧ isNewRootWith extendedExecuting
      (assignDefault (Some (DefaultTransactionImplementationClass extendedExecuting))
         (optionsOf (argument 2 [AValue (VStr "REUSE"); AHandler extendedHandler])))
      (defineTransaction [AValue (VStr "REUSE"); AHandler extendedHandler]
         extendedExecuting).
Proof.
  split; [|split; [vm_compute; reflexivity|split; [vm_compute; reflexivity|]]].
  - destruct (defineTransaction_reuse_registered executing
                [AValue (VStr "REUSE"); AHandler handlerOfRoot; AOptions withOnCommit]
                handlerOfRoot eq_refl eq_refl) as [H _].
    apply (H 1 (objectAt executing 1)).
    + apply (bool_decide_unpack _). vm_compute. exact I.
    + vm_compute. reflexivity.
    + vm_compute. reflexivity.
    + vm_compute. lia.
  - destruct (defineTransaction_reuse_registered extendedExecuting
                [AValue (VStr "REUSE"); AHandler extendedHandler]
                extendedHandler eq_refl eq_refl) as [_ H].
    apply H. apply (bool_decide_unpack _). vm_compute. exact I.
Defined.

Lemma new_reads_the_last_argument_witness :
  (isHandler (AValue VNull) = false →
   defineTransaction [AValue (VStr "NEW"); AValue VNull; AOptions withOnCommit] executing
   = startTransaction (AOptions withOnCommit) executing)
  ∧ defineTransaction [AValue (VStr "REUSE_OR_NEW"); AValue VNull; AOptions withOnCommit]
      executing
    = startTransaction (AOptions withOnCommit) executing.
Proof.
  apply (new_reads_the_last_argument executing (AValue VNull) (AOptions withOnCommit)).
  reflexivity.
Defined.

Lemma startTransaction_builds_a_root_witness :
  ∃ s' t,
    startTransaction (AOptions (withClass otherClass)) executing
    = (Ok {| th_transaction := transactionId executing |}, s')
    ∧ heap s' !! transactionId executing = Some t
    ∧ id t = transactionId executing ∧ parentTransaction t = None ∧ level t = 0
    ∧ status t = running
    ∧ options t
      = assignDefault (Some (DefaultTransactionImplementationClass executing))
          (optionsOf (AOptions (withClass otherClass)))
    ∧ prototypeChain t
      = c_chain (chosenClass (optionsOf (AOptions (withClass otherClass))) executing)
    ∧ processBeginHook (impl t)
      = c_processBegin (chosenClass (optionsOf (AOptions (withClass otherClass))) executing)
    ∧ processCommitHook (impl t)
      = c_processCommit (chosenClass (optionsOf (AOptions (withClass otherClass))) executing)
    ∧ processRollbackHook (impl t)
      = c_processRollback (chosenClass (optionsOf (AOptions (withClass otherClass))) executing)
    ∧ implParent (impl t) = None
    ∧ name t = (nameOr (o_name (optionsOf (AOptions (withClass otherClass)))) "id" ++ " #"
                ++ pretty (transactionId executing))%string
    ∧ display t = ("System Trans [" ++ name t ++ "]")%string
    ∧ innerTransactions t = [] ∧ innerCommitStack t = [] ∧ handler t = None
    ∧ is_Some (o_DefaultImplementationClass (options t))
    ∧ transactionId s' = S (transactionId executing)
    ∧ transactions s'
      = <[transactionId executing := transactionId executing]> (transactions executing)
    ∧ (∀ a, a ≠ transactionId executing → heap s' !! a = heap executing !! a).
Proof.
  apply (startTransaction_builds_a_root executing (AOptions (withClass otherClass))).
  reflexivity.
Defined.

Lemma default_class_is_fixed_at_the_root_witness :
  (∃ s3 t,
      startInner (transactionId initialState) (AOptions (named "inner"))
        (setTransactionImplementationClass otherClass
           (startTransaction (AOptions (named "outer")) initialState).2).2
      = (Ok {| th_transaction := S (transactionId initialState) |}, s3)
      ∧ heap s3 !! S (transactionId initialState) = Some t
      ∧ parentTransaction t = Some (transactionId initialState)
      ∧ impl t = implOf (DefaultTransactionImplementationClass initialState)
                   (Some (transactionId initialState)))
  ∧ (∃ s3 t,
      startTransaction (AOptions (named "outer"))
        (setTransactionImplementationClass otherClass
           (startTransaction (AOptions (named "outer")) initialState).2).2
      = (Ok {| th_transaction := S (transactionId initialState) |}, s3)
      ∧ heap s3 !! S (transactionId initialState) = Some t
      ∧ parentTransaction t = None
      ∧ impl t = implOf otherClass None).
Proof.
  apply (default_class_is_fixed_at_the_root initialState (AOptions (named "outer"))
           (AOptions (named "inner")) otherClass); reflexivity.
Defined.

(** ** [execute], from the begin step to the settlement *)


Lemma settleExecution_pending tx pr s : settleExecution tx Pending pr s = (Pending, s).
Proof. reflexivity. Qed.

Lemma settleExecution_commits tx t pr v r s :
  heap s !! tx = Some t → settle pr = Fulfilled v →
  ¬ anyInner s t running → parentRunning s t → ¬ anyInner s t rolledback →
  processCommitHook (impl t) = Returns r →
  settleExecution tx (settle pr) pr s
  = (Fulfilled v,
     drain (detachFromParent tx (parentTransaction t)
              (with_heap (alter (set_status committed) tx)
                 (detached r (JOnCommit tx v) (commitAnnounced tx s))))).
Proof.
  intros Ht Hv Hr Hp Hb Hhook. unfold settleExecution, then_, andDrain.
  rewrite Hv, (processCommit_passes _ _ _ Ht v Hr Hp Hb), Hhook.
  assert (settle v = Fulfilled v) as ->.
  { clear -Hv. induction pr; cbn in Hv; try done; try (by injection Hv as <-); auto. }
  unfold ret. by rewrite Hv.
Qed.

(** X11: when the begin hook lets the execution run, the protected code
    returns a promise that fulfils with [v], no inner transaction is still
    running or rolled back, the parent (if any) is still running and the
    commit hook returns, then [execute] fulfils with [v] and leaves the
    transaction [committed] and out of its parent's [innerTransactions],
    whatever the [onCommit] callback does. *)
Theorem execute_commits
    (s s1 : State) (tx : nat) (t t1 : Transaction)
    (processFn : TransactionHandler → M Value) (b x pr v r : Value) :
  heap s !! tx = Some t →
  processBeginHook (impl t) = Returns b → settle b = Fulfilled x →
  processFn (newTransactionHandler s t) (entered tx t s) = (Ok pr, s1) →
  isThenable pr = true → settle pr = Fulfilled v →
  heap s1 !! tx = Some t1 →
  ¬ anyInner s1 t1 running → parentRunning s1 t1 → ¬ anyInner s1 t1 rolledback →
  processCommitHook (impl t1) = Returns r →
  ∃ s', execute tx processFn s = (Fulfilled v, s')
        ∧ statusOf s' tx = Some committed
        ∧ EvHook hookCommit tx ∈ events s'
        ∧ (∀ p tp, parentTransaction t1 = Some p → heap s' !! p = Some tp →
                   tx ∉ innerTransactions tp).
Proof.
  intros Ht Hb Hx Hfn Hth Hv Ht1 Hr Hp Hrb Hhook.
  rewrite (execute_enters tx t processFn s Ht) by eauto.
  rewrite Hfn, (isThenable_isObject _ Hth).
  rewrite (settleExecution_commits tx t1 pr v r s1 Ht1 Hv Hr Hp Hrb Hhook).
  eexists. split; [reflexivity|]. split; [|split].
  - rewrite drain_statusOf, detachFromParent_statusOf. unfold statusOf. cbn.
    rewrite lookup_alter_eq, detached_heap. cbn. by rewrite Ht1.
  - eapply elem_of_prefix; [|apply drain_events].
    rewrite detachFromParent_events. cbn [events with_heap].
    eapply elem_of_prefix; [|apply detached_events]. cbn. set_solver.
  - intros p tp Hpar Htp.
    pose proof (drain_heap
                  (detachFromParent tx (parentTransaction t1)
                     (with_heap (alter (set_status committed) tx)
                        (detached r (JOnCommit tx v) (commitAnnounced tx s1)))) p) as E.
    rewrite Htp in E. rewrite Hpar in E. cbn in E.
    rewrite lookup_alter_eq in E.
    destruct (alter (set_status committed) tx _ !! p) as [q|] eqn:Hq; [|done].
    cbn in E. apply (inj Some) in E.
    apply eraseStack_fields in E as (_ & _ & _ & _ & -> & _). apply filter_ne_not_elem.
Qed.




Lemma onCommit_fires tx t cb result s :
  heap s !! tx = Some t → parentTransaction t = None →
  o_onCommit (options t) = Some cb →
  EvOnCommit tx result ∈ events (onCommit tx result s).
Proof.
  intros Ht Hp Hcb. unfold onCommit. rewrite Ht, Hcb, Hp. unfold callback.
  rewrite runDeferred_all_heap, Ht, Hcb.
  destruct cb as [v|e]; [destruct (settle v)|]; cbn; set_solver.
Qed.



(** X13: a promise of the protected code that rejects with undefined or
    null (as [Promise.reject()] does) makes the rollback step itself fail
    when it reads [err.message]: [execute] rejects with a TypeError, and
    nothing else happens: no log line, no rollback hook, no [onRollback],
    and the status stays as the protected code left it. *)
Theorem execute_rejected_without_a_reason
    (s s1 : State) (tx : nat) (t t1 : Transaction)
    (processFn : TransactionHandler → M Value) (b x pr e : Value) :
  heap s !! tx = Some t →
  processBeginHook (impl t) = Returns b → settle b = Fulfilled x →
  processFn (newTransactionHandler s t) (entered tx t s) = (Ok pr, s1) →
  isThenable pr = true → settle pr = Rejected e → isNullish e = true →
  heap s1 !! tx = Some t1 →
  execute tx processFn s = (Rejected VTypeError, drain s1)
  ∧ statusOf (drain s1) tx = Some (status t1)
  ∧ (microtasks s1 = [] → events (drain s1) = events s1).
Proof.
  intros Ht Hb Hx Hfn Hth He Hn Ht1.
  rewrite (execute_enters tx t processFn s Ht) by eauto.
  rewrite Hfn, (isThenable_isObject _ Hth), He.
  rewrite settleExecution_rejected, (processRollback_nullish _ _ _ Ht1 _ Hn).
  split; [done|]. split.
  - rewrite drain_statusOf. unfold statusOf. by rewrite Ht1.
  - intros Hq. unfold drain. by rewrite Hq.
Qed.


(** X15: protected code that throws [e] and protected code that returns
    a promise rejecting with [e] have the same outcome: the same
    settlement of [execute] and the same final state. *)
Theorem throwing_is_rejecting
    (s s1 : State) (tx : nat) (t : Transaction)
    (throwing rejecting : TransactionHandler → M Value) (b x pr e : Value) :
  heap s !! tx = Some t →
  processBeginHook (impl t) = Returns b → settle b = Fulfilled x →
  throwing (newTransactionHandler s t) (entered tx t s) = (Thrown e, s1) →
  rejecting (newTransactionHandler s t) (entered tx t s) = (Ok pr, s1) →
  isThenable pr = true → settle pr = Rejected e →
  execute tx throwing s = execute tx rejecting s.
Proof.
  intros Ht Hb Hx Hthrow Hrej Hth He.
  rewrite !(execute_enters tx t _ s Ht) by eauto.
  rewrite Hthrow, Hrej, (isThenable_isObject _ Hth), He.
  by rewrite !settleExecution_rejected.
Qed.








Lemma execute_commits_witness :
  ∃ s', execute 1 successfullProcess startedWithCallbacks = (Fulfilled VUndefined, s')
        ∧ statusOf s' 1 = Some committed
        ∧ EvHook hookCommit 1 ∈ events s'.
Proof.
  set (s := startedWithCallbacks).
  set (s1 := entered 1 (objectAt s 1) s).
  destruct (execute_commits s s1 1 (objectAt s 1) (objectAt s1 1) successfullProcess
              VUndefined VUndefined (VFulfils VUndefined) VUndefined VUndefined)
    as (s' & E & Hst & Hev & _); try (vm_compute; reflexivity).
  - intros (a & Ha & _). vm_compute in Ha. by apply elem_of_nil in Ha.
  - intros p Hp. vm_compute in Hp. discriminate.
  - intros (a & Ha & _). vm_compute in Ha. by apply elem_of_nil in Ha.
  - by exists s'.
Defined.


Lemma execute_rejected_without_a_reason_witness :
  execute 1 rejectsWithoutReason startedWithCallbacks
  = (Rejected VTypeError,
     drain (entered 1 (objectAt startedWithCallbacks 1) startedWithCallbacks))
  ∧ statusOf (drain (entered 1 (objectAt startedWithCallbacks 1) startedWithCallbacks)) 1
    = Some running.
Proof.
  set (s := startedWithCallbacks).
  set (s1 := entered 1 (objectAt s 1) s).
  destruct (execute_rejected_without_a_reason s s1 1 (objectAt s 1) (objectAt s1 1)
              rejectsWithoutReason VUndefined VUndefined (VRejects VUndefined) VUndefined)
    as (E & Hst & _); try (vm_compute; reflexivity).
  split; [exact E|exact Hst].
Defined.


Lemma throwing_is_rejecting_witness :
  execute 1 throwingProcess startedWithCallbacks
  = execute 1 failedProcess startedWithCallbacks.
Proof.
  set (s := startedWithCallbacks).
  apply (throwing_is_rejecting s (entered 1 (objectAt s 1) s) 1 (objectAt s 1)
           throwingProcess failedProcess VUndefined VUndefined
           (VRejects (VStr "A PROCESS ERROR")) (VStr "A PROCESS ERROR"));
    vm_compute; reflexivity.
Defined.


(** ** The methods a handler exposes *)

Lemma ownMethods_elem proto n f :
  (n, f) ∈ ownMethods proto ↔ n ≠ "constructor" ∧ (n, PMethod f) ∈ p_own proto.
Proof.
  unfold ownMethods. rewrite list_elem_of_omap. split.
  - intros ([n' p] & Hin & H). cbn in H.
    destruct (String.eqb n' "constructor") eqn:E; [done|].
    destruct p as [f'| |]; try done. cbn in H. injection H as -> ->.
    split; [|done]. intros ->. by rewrite String.eqb_refl in E.
  - intros [Hn Hin]. exists (n, PMethod f). split; [done|]. cbn.
    destruct (String.eqb n "constructor") eqn:E; [|done].
    by apply String.eqb_eq in E.
Qed.

Lemma getInstanceMethods_before_stop pre stopProto post stop :
  p_address stopProto = stop →
  Forall (λ proto, p_address proto ≠ stop) pre →
  getInstanceMethods (pre ++ stopProto :: post) stop = pre ≫= ownMethods.
Proof.
  intros Hs Hpre. induction Hpre as [|proto pre Hne _ IH]; cbn.
  - by rewrite decide_True.
  - by rewrite decide_False, IH.
Qed.

Lemma getInstanceMethods_without_stop chain stop :
  Forall (λ proto, p_address proto ≠ stop) chain →
  getInstanceMethods chain stop = chain ≫= ownMethods.
Proof.
  intros H. induction H as [|proto chain Hne _ IH]; cbn; [done|].
  by rewrite decide_False, IH.
Qed.

(** X17: [getInstanceMethods(obj, stop)] collects, class by class from
    the one nearest to the object, exactly the own properties that hold a
    function and are not named [constructor], and stops at [stop] without
    looking at it or at anything above it: with [Transaction.prototype] as
    [stop], no method of [Transaction] or of [Object.prototype] is
    collected, and neither is a getter or a property holding a value. *)
Theorem getInstanceMethods_collects_below_stop
    (pre post : list Prototype) (stopProto : Prototype) (stop : nat) :
  p_address stopProto = stop →
  Forall (λ proto, p_address proto ≠ stop) pre →
  getInstanceMethods (pre ++ stopProto :: post) stop = pre ≫= ownMethods
  ∧ ∀ n f, (n, f) ∈ getInstanceMethods (pre ++ stopProto :: post) stop
           ↔ n ≠ "constructor" ∧ ∃ proto, proto ∈ pre ∧ (n, PMethod f) ∈ p_own proto.
Proof.
  intros Hs Hpre. rewrite (getInstanceMethods_before_stop _ _ _ _ Hs Hpre).
  split; [done|]. intros n f. rewrite list_elem_of_bind. split.
  - intros (proto & Hin & Hp). apply ownMethods_elem in Hin as [Hn Hin]. eauto.
  - intros (Hn & proto & Hp & Hin). exists proto. split; [|done].
    by apply ownMethods_elem.
Qed.

(** X18: when [stop] is not on the prototype chain, the loop runs to the
    end of the chain: every prototype contributes, up to and including the
    last one. *)
Theorem getInstanceMethods_without_stop_takes_all (chain : list Prototype) (stop : nat) :
  Forall (λ proto, p_address proto ≠ stop) chain →
  ∀ n f, (n, f) ∈ getInstanceMethods chain stop
         ↔ n ≠ "constructor" ∧ ∃ proto, proto ∈ chain ∧ (n, PMethod f) ∈ p_own proto.
Proof.
  intros H n f. rewrite (getInstanceMethods_without_stop _ _ H), list_elem_of_bind. split.
  - intros (proto & Hin & Hp). apply ownMethods_elem in Hin as [Hn Hin]. eauto.
  - intros (Hn & proto & Hp & Hin). exists proto. split; [|done].
    by apply ownMethods_elem.
Qed.

(** X19: a handler has its four own properties and one delegate per
    collected name.  A name that no collected method bears keeps what the
    constructor assigned first; a name collected once or more holds the
    delegate of the last method collected under it, also when the name is
    [id], [rollback], [startInner] or [parent]. *)
Theorem handler_holds_the_last_method_of_a_name
    (h : TransactionHandler) (chain : list Prototype) (stop : nat) (n : string) :
  (n ∉ (getInstanceMethods chain stop).*1 →
   handlerProperties h chain stop !! n = ownHandlerProperties h !! n)
  ∧ (∀ l1 l2 f, getInstanceMethods chain stop = (l1 ++ (n, f) :: l2)%list →
                n ∉ l2.*1 →
                handlerProperties h chain stop !! n = Some (HDelegate f)).
Proof.
  unfold handlerProperties. split.
  - apply assign_all_other.
  - intros l1 l2 f -> Hn. by apply assign_all_last.
Qed.

Lemma getProperty_first proto rest n p :
  (n, p) ∈ p_own proto → NoDup (p_own proto).*1 →
  getProperty (proto :: rest) n = Some p.
Proof.
  intros Hin Hnd. cbn.
  destruct (list_find (λ entry, entry.1 = n) (p_own proto)) as [[i [n' p']]|] eqn:E.
  - apply list_find_Some in E as (Hi & Hn' & _). cbn in Hn'. subst n'. cbn.
    f_equal. apply list_elem_of_lookup_2 in Hi.
    apply list_elem_of_lookup in Hin as [j Hj].
    apply list_elem_of_lookup in Hi as [i' Hi'].
    assert ((p_own proto).*1 !! j = Some n) as Hj1 by (by rewrite list_lookup_fmap, Hj).
    assert ((p_own proto).*1 !! i' = Some n) as Hi1 by (by rewrite list_lookup_fmap, Hi').
    pose proof (NoDup_lookup _ _ _ _ Hnd Hj1 Hi1) as ->. congruence.
  - apply list_find_None in E. rewrite Forall_forall in E. by destruct (E _ Hin).
Qed.

(** X20: a method that a class overrides reaches the handler in its
    overridden form.  When a class and the class it extends, both below
    [Transaction], declare a method of the same name, the object itself
    resolves the name to the method of the nearer class, but the handler's
    delegate calls the method of the class it extends: the one collected
    last wins the assignment. *)
Theorem handler_delegates_to_the_overridden_method
    (h : TransactionHandler) (sub super stopProto : Prototype) (post : list Prototype)
    (stop : nat) (n : string) (fsub fsuper : nat) :
  p_address stopProto = stop → p_address sub ≠ stop → p_address super ≠ stop →
  NoDup (p_own sub).*1 → NoDup (p_own super).*1 →
  n ≠ "constructor" →
  (n, PMethod fsub) ∈ p_own sub → (n, PMethod fsuper) ∈ p_own super →
  getProperty (sub :: super :: stopProto :: post) n = Some (PMethod fsub)
  ∧ handlerProperties h (sub :: super :: stopProto :: post) stop !! n
    = Some (HDelegate fsuper).
Proof.
  intros Hs Hsub Hsuper Hnd1 Hnd2 Hn Hin1 Hin2. split.
  - by apply getProperty_first.
  - unfold handlerProperties.
    change (sub :: super :: stopProto :: post) with ([sub; super] ++ stopProto :: post)%list.
    rewrite (getInstanceMethods_before_stop [sub; super] stopProto post stop Hs)
      by (by repeat constructor).
    cbn [mbind list_bind]. rewrite app_nil_r.
    assert ((n, fsuper) ∈ ownMethods super) as Hm by (by apply ownMethods_elem).
    apply list_elem_of_split in Hm as (l1 & l2 & E). rewrite E.
    rewrite (assoc_L (++)). apply assign_all_last.
    intros Hin. apply list_elem_of_fmap in Hin as ([n' f'] & Hn' & Hin). cbn in Hn'. subst n'.
    assert ((n, f') ∈ ownMethods super) as Hm' by (rewrite E; set_solver).
    apply ownMethods_elem in Hm' as [_ Hm'].
    (* the name occurs once among the own properties of [super] *)
    assert (NoDup (ownMethods super).*1) as Hnd.
    { clear -Hnd2. unfold ownMethods. induction (p_own super) as [|[n0 p0] l IH]; cbn;
        [constructor|].
      cbn in Hnd2. apply NoDup_cons in Hnd2 as [Hn0 Hl]. specialize (IH Hl).
      destruct (String.eqb n0 "constructor"); [done|].
      destruct p0 as [f0| |]; cbn; [|done..].
      constructor; [|done]. intros Hin. apply Hn0.
      apply list_elem_of_fmap in Hin as ([n1 f1] & -> & Hin). cbn.
      apply list_elem_of_omap in Hin as ([n2 p2] & Hin & H). cbn in H.
      destruct (String.eqb n2 "constructor"); [done|].
      destruct p2; try done. cbn in H. injection H as -> ->.
      apply list_elem_of_fmap. by exists (n1, PMethod f1). }
    rewrite E, fmap_app, fmap_cons in Hnd. cbn in Hnd.
    apply NoDup_app in Hnd as (_ & _ & Hnd). apply NoDup_cons in Hnd as [Hnd _].
    apply Hnd. apply list_elem_of_fmap. by exists (n, f').
Qed.

Lemma getInstanceMethods_collects_below_stop_witness :
  getInstanceMethods extendedChain 1
  = [extendedPrototype; implementationPrototype] ≫= ownMethods
  ∧ ∀ n f, (n, f) ∈ getInstanceMethods extendedChain 1
           ↔ n ≠ "constructor"
             ∧ ∃ proto, proto ∈ [extendedPrototype; implementationPrototype]
                        ∧ (n, PMethod f) ∈ p_own proto.
Proof.
  apply (getInstanceMethods_collects_below_stop [extendedPrototype; implementationPrototype]
           [objectPrototype] transactionPrototype 1); [reflexivity|].
  repeat constructor; vm_compute; lia.
Defined.

Lemma getInstanceMethods_without_stop_takes_all_witness :
  ("toString", 3) ∈ getInstanceMethods extendedChain 7
  ↔ "toString" ≠ "constructor"
    ∧ ∃ proto, proto ∈ extendedChain ∧ ("toString", PMethod 3) ∈ p_own proto.
Proof.
  apply (getInstanceMethods_without_stop_takes_all extendedChain 7).
  repeat constructor; vm_compute; lia.
Defined.

Lemma handler_holds_the_last_method_of_a_name_witness :
  handlerProperties handlerOfRoot extendedChain 1 !! "rollback" = Some HRollback
  ∧ handlerProperties handlerOfRoot extendedChain 1 !! "id" = Some (HDelegate 32).
Proof.
  split.
  - destruct (handler_holds_the_last_method_of_a_name handlerOfRoot extendedChain 1
                "rollback") as [H _].
    rewrite H; [reflexivity|]. apply (bool_decide_unpack _). vm_compute. exact I.
  - destruct (handler_holds_the_last_method_of_a_name handlerOfRoot extendedChain 1 "id")
      as [_ H].
    apply (H [("query", 31)] [("query", 21)] 32); [reflexivity|].
    apply (bool_decide_unpack _). vm_compute. exact I.
Defined.

Lemma handler_delegates_to_the_overridden_method_witness :
  getProperty extendedChain "query" = Some (PMethod 31)
  ∧ handlerProperties handlerOfRoot extendedChain 1 !! "query" = Some (HDelegate 21).
Proof.
  apply (handler_delegates_to_the_overridden_method handlerOfRoot extendedPrototype
           implementationPrototype transactionPrototype [objectPrototype] 1 "query" 31 21);
    try reflexivity; try (vm_compute; lia); try discriminate;
    apply (bool_decide_unpack _); vm_compute; exact I.
Defined.

(** ** The handler's parent, and the order of the [onCommit] callbacks *)

(** X21: the handler the constructor makes for a transaction of a
    reachable state.  Unless the classes of the transaction declare a
    method of that name, its [id] is the transaction's id and its
    [parent] is the handler of the parent transaction, which is bound to
    the parent, and is missing for a root and for an inner transaction
    whose parent has no handler yet; every name under which a method was
    collected, [id] and [parent] among them, holds the delegate of such a
    method instead. *)
Theorem handler_parent_is_the_parents_handler (ops : list Op) (tx : nat) (t : Transaction) :
  heap (run ops initialState) !! tx = Some t →
  let h := newTransactionHandler (run ops initialState) t in
  let methods := getInstanceMethods (prototypeChain t) (p_address transactionPrototype) in
  ("id" ∉ methods.*1 → handlerObject h !! "id" = Some (HId tx))
  ∧ ("parent" ∉ methods.*1 →
     (parentTransaction t = None → handlerObject h !! "parent" = Some (HParent None))
     ∧ (∀ p tp, parentTransaction t = Some p →
          heap (run ops initialState) !! p = Some tp →
          handlerObject h !! "parent"
          = Some (HParent (match handler tp with Some _ => Some p | None => None end))
          ∧ ∀ hp, handler tp = Some hp → h_id hp = p))
  ∧ (∀ n, n ∈ methods.*1 →
       ∃ f, (n, f) ∈ methods ∧ handlerObject h !! n = Some (HDelegate f)).
Proof.
  intros Ht h methods. subst h methods. pose proof (wellFormed_run ops) as Hwf.
  assert (∀ p tp hp, heap (run ops initialState) !! p = Some tp →
                     handler tp = Some hp → h_id hp = p) as Hbound.
  { intros p tp hp Htp Hh. destruct (wf_handler _ Hwf p tp hp Htp Hh) as (-> & _).
    by destruct (wf_id _ Hwf p tp Htp). }
  split; [|split].
  - intros Hn. unfold handlerObject. cbn [h_methods newTransactionHandler].
    rewrite assign_all_other by done. rewrite ownHandlerProperties_id. cbn.
    destruct (wf_id _ Hwf tx t Ht) as (E & _). by rewrite E.
  - intros Hn. split.
    + intros Hp. unfold handlerObject. cbn [h_methods newTransactionHandler].
      rewrite assign_all_other by done. rewrite ownHandlerProperties_parent. cbn.
      by rewrite Hp.
    + intros p tp Hp Htp. split; [|intros hp; by apply Hbound].
      unfold handlerObject. cbn [h_methods newTransactionHandler].
      rewrite assign_all_other by done. rewrite ownHandlerProperties_parent.
      cbn. rewrite Hp. cbn. rewrite Htp. cbn.
      destruct (handler tp) as [hp|] eqn:Hh; [|done]. cbn.
      by rewrite (Hbound p tp hp Htp Hh).
  - intros n Hn. unfold handlerObject. by apply assign_all_some.
Qed.

Lemma onCommitCalls_app l1 l2 :
  onCommitCalls (l1 ++ l2) = (onCommitCalls l1 ++ onCommitCalls l2)%list.
Proof. apply omap_app. Qed.

Lemma callback_calls tx r s :
  onCommitCalls (events (callback tx r s))
  = (onCommitCalls (events s) ++ if hasOnCommit s tx then [(tx, r)] else [])%list.
Proof.
  unfold callback, hasOnCommit. destruct (heap s !! tx) as [t|]; [|by rewrite app_nil_r].
  destruct (o_onCommit (options t)) as [[v|e]|]; [destruct (settle v)| |]; cbn;
    rewrite ?onCommitCalls_app; cbn; rewrite ?app_nil_r;
    by rewrite <- ?(assoc_L (++)).
Qed.

Lemma hasOnCommit_same_heap s' s a : heap s' = heap s → hasOnCommit s' a = hasOnCommit s a.
Proof. unfold hasOnCommit. by intros ->. Qed.

Lemma runDeferred_all_calls (l : list Deferred) s :
  onCommitCalls (events (foldl (λ acc d, runDeferred d acc) s l))
  = (onCommitCalls (events s)
     ++ (deferredCall <$> filter (λ d, hasOnCommit s (d_transaction d)) l))%list.
Proof.
  revert s. induction l as [|d l IH]; intros s; cbn; [by rewrite app_nil_r|].
  rewrite IH. change (runDeferred d s) with (callback (d_transaction d) (d_result d) s).
  rewrite callback_calls.
  rewrite (list_filter_iff _ (λ d0, hasOnCommit s (d_transaction d0)));
    [|by intros d0;
         rewrite (hasOnCommit_same_heap (callback (d_transaction d) (d_result d) s) s)
           by apply callback_heap].
  destruct (hasOnCommit s (d_transaction d)) eqn:E; cbn.
  - by rewrite <- (assoc_L (++)).
  - by rewrite app_nil_r.
Qed.

(** X22: the commit continuation of an inner transaction with an
    [onCommit] option calls nothing: it appends to the parent's
    [innerCommitStack] what its own stack holds, then its own callback.
    The one of a root runs the callbacks of its stack in that order (those
    whose transaction has an [onCommit]), each with the result of its own
    transaction, and its own callback last. *)
Theorem onCommit_callbacks_run_in_commit_order
    (s : State) (tx : nat) (t : Transaction) (cb : Behaviour) (result : Value) :
  heap s !! tx = Some t →
  o_onCommit (options t) = Some cb →
  (∀ p tp, parentTransaction t = Some p → heap s !! p = Some tp →
     events (onCommit tx result s) = events s
     ∧ ∃ tp', heap (onCommit tx result s) !! p = Some tp'
              ∧ innerCommitStack tp'
                = (innerCommitStack tp ++ innerCommitStack t
                   ++ [{| d_transaction := tx; d_result := result |}])%list)
  ∧ (parentTransaction t = None →
     onCommitCalls (events (onCommit tx result s))
     = (onCommitCalls (events s)
        ++ (deferredCall <$> filter (λ d, hasOnCommit s (d_transaction d))
                               (innerCommitStack t))
        ++ [(tx, result)])%list).
Proof.
  intros Ht Hcb. split.
  - intros p tp Hp Htp. unfold onCommit. rewrite Ht, Hcb, Hp. split; [done|].
    cbn. rewrite lookup_alter_eq, Htp. by eexists.
  - intros Hp. unfold onCommit. rewrite Ht, Hcb, Hp.
    rewrite callback_calls.
    rewrite (hasOnCommit_same_heap _ s tx) by apply runDeferred_all_heap.
    assert (hasOnCommit s tx = true) as ->.
    { unfold hasOnCommit. rewrite Ht, Hcb. apply bool_decide_eq_true. eauto. }
    rewrite runDeferred_all_calls. by rewrite <- (assoc_L (++)).
Qed.

Lemma handler_parent_is_the_parents_handler_witness :
  handlerObject (newTransactionHandler nested (objectAt nested 3)) !! "id"
  = Some (HId 3)
  ∧ handlerObject (newTransactionHandler nested (objectAt nested 3)) !! "parent"
    = Some (HParent (Some 2))
  ∧ ∃ f, ("id", f) ∈ getInstanceMethods (prototypeChain (objectAt extendedExecuting 1))
                       (p_address transactionPrototype)
         ∧ handlerObject (newTransactionHandler extendedExecuting
                            (objectAt extendedExecuting 1)) !! "id"
           = Some (HDelegate f).
Proof.
  destruct (handler_parent_is_the_parents_handler nestedOps 3 (objectAt nested 3))
    as (Hid & Hparent & _); [vm_compute; reflexivity|].
  destruct (handler_parent_is_the_parents_handler extendedOps 1
              (objectAt extendedExecuting 1)) as (_ & _ & Hdel); [vm_compute; reflexivity|].
  split; [|split].
  - apply Hid. apply (bool_decide_unpack _). vm_compute. exact I.
  - destruct Hparent as [_ Hp]; [apply (bool_decide_unpack _); vm_compute; exact I|].
    destruct (Hp 2 (objectAt nested 2)) as [E _]; [vm_compute; reflexivity..|].
    exact E.
  - apply Hdel. apply (bool_decide_unpack _). vm_compute. exact I.
Defined.

Lemma onCommit_callbacks_run_in_commit_order_witness :
  onCommitCalls (events (onCommit 1 (VStr "root") rootAboutToCommit))
  = (onCommitCalls (events rootAboutToCommit)
     ++ (deferredCall <$> filter (λ d, hasOnCommit rootAboutToCommit (d_transaction d))
                            (innerCommitStack (objectAt rootAboutToCommit 1)))
     ++ [(1, VStr "root")])%list
  ∧ onCommitCalls (events (onCommit 1 (VStr "root") rootAboutToCommit))
    = [(3, VStr "leaf"); (2, VStr "middle"); (1, VStr "root")].
Proof.
  split; [|vm_compute; reflexivity].
  apply (onCommit_callbacks_run_in_commit_order rootAboutToCommit 1
           (objectAt rootAboutToCommit 1) (Returns (VBool true)) (VStr "root"));
    vm_compute; reflexivity.
Defined.

(** ** What the lists of a transaction hold *)

Lemma carried_refl s q : carried s q q.
Proof. repeat split; try done. intros d ?. by left. Qed.

Lemma orderly_carried s s' :
  (∀ b t', heap s' !! b = Some t' → ∃ q, heap s !! b = Some q ∧ carried s q t') →
  (∀ b q, heap s !! b = Some q → ∃ t', heap s' !! b = Some t' ∧ options t' = options q) →
  orderly s → orderly s'.
Proof.
  intros Hbwd Hfwd Ho.
  assert (∀ a, hasOnCommit s a = true → hasOnCommit s' a = true) as Hon.
  { intros a. unfold hasOnCommit. destruct (heap s !! a) as [q|] eqn:Hq; [|done].
    destruct (Hfwd a q Hq) as (t' & -> & ->). done. }
  split.
  - intros a t' H'. destruct (Hbwd a t' H') as (q & Hq & (-> & _)).
    by apply (or_nodup s Ho a q).
  - intros a t' c H' Hc. destruct (Hbwd a t' H') as (q & Hq & (Ein & _)).
    rewrite Ein in Hc. pose proof (or_open s Ho a q c Hq Hc) as Hst.
    unfold statusOf in *. destruct (heap s' !! c) as [tc'|] eqn:Hc'; [|done].
    destruct (Hbwd c tc' Hc') as (qc & Hqc & (_ & _ & Hcm & _)).
    rewrite Hqc in Hst. cbn in *. intros [= E]. apply Hst. f_equal. by apply Hcm.
  - intros a t' d H' Hd. destruct (Hbwd a t' H') as (q & Hq & (_ & _ & _ & Hst)).
    apply Hon. destruct (Hst d Hd) as [Hold|Hnew]; [|done].
    by apply (or_stack s Ho a q d).
Qed.

Lemma neat_refl s : neat s s.
Proof. split; [apply steady_refl|done]. Qed.

Lemma neat_trans s1 s2 s3 : neat s1 s2 → neat s2 s3 → neat s1 s3.
Proof.
  intros [S12 O12] [S23 O23]. split; [by eapply steady_trans|].
  intros Hwf Ho. destruct (S12 Hwf) as (Hwf2 & _). by apply O23, O12.
Qed.

Lemma neat_quiet s s' :
  heap s' = heap s → transactionId s' = transactionId s →
  transactions s' = transactions s → neat s s'.
Proof.
  intros Hh Hi Hr. split; [by apply steady_quiet|]. intros _.
  apply orderly_carried; rewrite Hh.
  - intros b t' H'. exists t'. split; [done|apply carried_refl].
  - intros b q Hq. by exists q.
Qed.

Lemma lookup_alter_inv (g : Transaction → Transaction) a (h : gmap nat Transaction) b t' :
  alter g a h !! b = Some t' →
  ∃ q, h !! b = Some q ∧ ((b ≠ a ∧ t' = q) ∨ (b = a ∧ t' = g q)).
Proof.
  rewrite lookup_alter. case_decide; subst.
  - destruct (h !! b) as [q|]; [|done]. cbn. intros [= <-]. exists q. eauto.
  - intros Hb. exists t'. eauto.
Qed.

Lemma lookup_alter_fwd (g : Transaction → Transaction) a (h : gmap nat Transaction) b q :
  h !! b = Some q → ∃ t', alter g a h !! b = Some t' ∧ (t' = q ∨ t' = g q).
Proof.
  intros Hq. rewrite lookup_alter. case_decide; subst; rewrite Hq; cbn; eauto.
Qed.

(** A setter that keeps the lists and the options and does not commit. *)
Lemma neat_alter_carried (g : Transaction → Transaction) a s :
  steady s (with_heap (alter g a) s) →
  (∀ q, heap s !! a = Some q → carried s q (g q)) →
  neat s (with_heap (alter g a) s).
Proof.
  intros Hs Hg. split; [exact Hs|]. intros _.
  apply orderly_carried; cbn.
  - intros b t' H'. apply lookup_alter_inv in H' as (q & Hq & [[_ ->]|[-> ->]]);
      exists q; (split; [done|]); [apply carried_refl|by apply Hg].
  - intros b q Hq. rewrite lookup_alter. case_decide; subst; rewrite Hq; cbn.
    + eexists. split; [done|]. by destruct (Hg q Hq) as (_ & -> & _).
    + by exists q.
Qed.

Lemma neat_alter_at (g : Transaction → Transaction) a s :
  (∀ q, heap s !! a = Some q → touched q (g q) ∧ carried s q (g q)) →
  neat s (with_heap (alter g a) s).
Proof.
  intros Hg. split; [apply steady_alter_at; intros q Hq; by apply Hg|]. intros _.
  apply orderly_carried; cbn.
  - intros b t' H'. apply lookup_alter_inv in H' as (q & Hq & [[_ ->]|[-> ->]]);
      exists q; (split; [done|]); [apply carried_refl|by apply Hg].
  - intros b q Hq. rewrite lookup_alter. case_decide; subst; rewrite Hq; cbn.
    + eexists. split; [done|]. by destruct (Hg q Hq) as (_ & _ & -> & _).
    + by exists q.
Qed.

Lemma carried_set_status_rolledback s q : carried s q (set_status rolledback q).
Proof. repeat split; try done. intros d ?. by left. Qed.

Lemma carried_set_handler s h q : carried s q (set_handler h q).
Proof. repeat split; try done. intros d ?. by left. Qed.

(** [onCommit] of an inner transaction: the parent's stack grows by
    entries that stand for transactions with an [onCommit]. *)
Lemma neat_defer tx t cb result p s :
  heap s !! tx = Some t → o_onCommit (options t) = Some cb →
  neat s (with_heap
            (alter (λ q, set_innerCommitStack
                           (innerCommitStack q ++ innerCommitStack t
                              ++ [{| d_transaction := tx; d_result := result |}]) q) p) s).
Proof.
  intros Ht Hcb. split; [apply steady_alter; auto with steady|]. intros _ Ho.
  apply (orderly_carried s); [| |exact Ho]; cbn.
  - intros b t' H'. apply lookup_alter_inv in H' as (q & Hq & [[_ ->]|[-> ->]]);
      exists q; (split; [done|]); [apply carried_refl|].
    repeat split; try done. intros d. cbn. rewrite !elem_of_app, list_elem_of_singleton.
    intros [Hd|[Hd| ->]]; [by left| |]; right.
    + by apply (or_stack s Ho tx t d).
    + cbn. unfold hasOnCommit. rewrite Ht, Hcb. apply bool_decide_eq_true. eauto.
  - intros b q Hq. rewrite lookup_alter. case_decide; subst; rewrite Hq; cbn; by eexists.
Qed.

Lemma commit_lookup tx t s b t' :
  heap s !! tx = Some t →
  heap (detachFromParent tx (parentTransaction t)
          (with_heap (alter (set_status committed) tx) s)) !! b = Some t' →
  ∃ q, heap s !! b = Some q
       ∧ options t' = options q ∧ innerCommitStack t' = innerCommitStack q
       ∧ (b ≠ tx → status t' = status q)
       ∧ ((innerTransactions t' = innerTransactions q ∧ parentTransaction t ≠ Some b)
          ∨ innerTransactions t' = filter (λ a, a ≠ tx) (innerTransactions q)).
Proof.
  intros Ht. unfold detachFromParent. destruct (parentTransaction t) as [p|]; cbn.
  - intros H'. apply lookup_alter_inv in H' as (q1 & H1 & Hc).
    apply lookup_alter_inv in H1 as (q & Hq & Hc1). exists q. split; [done|].
    destruct Hc as [[Hne ->]|[-> ->]], Hc1 as [[Hne1 ->]|[-> ->]]; cbn;
      repeat split; try done; try (left; split; [done|congruence]); by right.
  - intros H1. apply lookup_alter_inv in H1 as (q & Hq & Hc1). exists q. split; [done|].
    destruct Hc1 as [[Hne1 ->]|[-> ->]]; cbn; repeat split; try done; by left.
Qed.

Lemma commit_lookup_fwd tx parent s b q :
  heap s !! b = Some q →
  ∃ t', heap (detachFromParent tx parent
                (with_heap (alter (set_status committed) tx) s)) !! b = Some t'
        ∧ options t' = options q.
Proof.
  intros Hq. destruct (lookup_alter_fwd (set_status committed) tx _ _ _ Hq) as (q1 & H1 & E1).
  assert (options q1 = options q) as Eo by (by destruct E1 as [->| ->]).
  unfold detachFromParent. destruct parent as [p|]; cbn; [|by exists q1].
  destruct (lookup_alter_fwd
              (λ q0, set_innerTransactions (filter (λ a, a ≠ tx) (innerTransactions q0)) q0)
              p _ _ _ H1) as (t' & H' & E').
  exists t'. split; [done|]. by destruct E' as [->| ->].
Qed.

(** The commit itself: the status becomes [committed] and the parent
    drops the transaction from its list, in one step. *)
Lemma neat_commit tx t s :
  heap s !! tx = Some t →
  neat s (detachFromParent tx (parentTransaction t)
            (with_heap (alter (set_status committed) tx) s)).
Proof.
  intros Ht. split.
  { eapply steady_trans; [apply (steady_alter (set_status committed) tx); auto with steady|].
    unfold detachFromParent. destruct (parentTransaction t); [|apply steady_refl].
    apply steady_alter. auto with steady. }
  intros Hwf Ho. split.
  - intros a t' H'. destruct (commit_lookup _ _ _ _ _ Ht H') as (q & Hq & _ & _ & _ & Hin).
    pose proof (or_nodup s Ho a q Hq) as Hnd.
    destruct Hin as [[-> _]| ->]; [done|by apply NoDup_filter].
  - intros a t' c H' Hc.
    destruct (commit_lookup _ _ _ _ _ Ht H') as (q & Hq & _ & _ & _ & Hin).
    assert (c ∈ innerTransactions q ∧ c ≠ tx) as [Hcq Hne].
    { destruct Hin as [[E Hp]|E]; rewrite E in Hc.
      - split; [done|]. intros ->.
        destruct (wf_inner s Hwf a q tx Hq Hc) as (tc & Htc & Hpc). congruence.
      - by apply list_elem_of_filter in Hc as [? ?]. }
    pose proof (or_open s Ho a q c Hq Hcq) as Hst. unfold statusOf in *.
    destruct (heap (detachFromParent _ _ _) !! c) as [tc'|] eqn:Hc'; [|done].
    destruct (commit_lookup _ _ _ _ _ Ht Hc') as (qc & Hqc & _ & _ & Es & _).
    rewrite Hqc in Hst. cbn in *. by rewrite (Es Hne).
  - intros a t' d H' Hd.
    destruct (commit_lookup _ _ _ _ _ Ht H') as (q & Hq & _ & Est & _).
    rewrite Est in Hd. pose proof (or_stack s Ho a q d Hq Hd) as Hon.
    unfold hasOnCommit in *. destruct (heap s !! d_transaction d) as [qd|] eqn:Hqd; [|done].
    by destruct (commit_lookup_fwd tx (parentTransaction t) s _ _ Hqd) as (td' & -> & ->).
Qed.

(** The constructor: the new object is running, with empty lists. *)
Lemma neat_allocate (t : Transaction) (parent : option nat) (s : State) :
  id t = transactionId s → handler t = None → innerTransactions t = [] →
  innerCommitStack t = [] → status t = running →
  display t = formatName (name t) → parentTransaction t = parent →
  match parent with
  | Some p => ∃ pt, heap s !! p = Some pt ∧ level t = level pt + 1
                    ∧ implParent (impl t) = Some p
                    ∧ ∃ suffix, name t = (name pt ++ "/" ++ suffix)%string
  | None => level t = 0 ∧ implParent (impl t) = None
  end →
  neat s
    (with_heap (λ h, <[transactionId s := t]>
                       (match parent with
                        | Some p => alter (pushInner (transactionId s)) p h
                        | None => h
                        end))
       (with_transactionId (S (transactionId s)) s)).
Proof.
  intros Hid Hh Hin Hst Hrun Hd Hpar Hp. split; [by apply steady_allocate|].
  intros Hwf Ho. set (i := transactionId s) in *.
  set (hm := match parent with
             | Some p => alter (pushInner i) p (heap s)
             | None => heap s
             end).
  assert (∀ b q, heap s !! b = Some q → b ≠ i) as Hne.
  { intros b q Hq ->. destruct (wf_id s Hwf _ _ Hq) as (_ & _ & ?). unfold i in *. lia. }
  assert (∀ b q', hm !! b = Some q' →
            ∃ q, heap s !! b = Some q ∧ status q' = status q ∧ options q' = options q
                 ∧ innerCommitStack q' = innerCommitStack q
                 ∧ (innerTransactions q' = innerTransactions q
                    ∨ innerTransactions q' = (innerTransactions q ++ [i])%list)) as F1.
  { intros b q'. unfold hm. destruct parent as [p|].
    - intros H'. apply lookup_alter_inv in H' as (q & Hq & [[_ ->]|[-> ->]]);
        exists q; repeat split; try done; [by left|by right].
    - intros Hb. exists q'. repeat split; try done. by left. }
  assert (∀ b q, heap s !! b = Some q →
            ∃ q', hm !! b = Some q' ∧ status q' = status q ∧ options q' = options q) as F2.
  { intros b q Hq. unfold hm. destruct parent as [p|]; [|by exists q].
    destruct (lookup_alter_fwd (pushInner i) p _ _ _ Hq) as (q' & H' & [->| ->]);
      by eexists. }
  assert (∀ b x, <[i:=t]> hm !! b = Some x →
            (b = i ∧ x = t) ∨ (b ≠ i ∧ hm !! b = Some x)) as Hcase.
  { intros b x. rewrite lookup_insert. case_decide; [subst|].
    - intros [= <-]. by left.
    - intros Hx. by right. }
  assert (∀ c, is_Some (heap s !! c) → statusOf s c = status <$> <[i:=t]> hm !! c) as Hsame.
  { intros c [qc Hqc]. unfold statusOf. rewrite lookup_insert_ne by (by eapply not_eq_sym, Hne).
    destruct (F2 c qc Hqc) as (qc' & H' & Es & _). rewrite H', Hqc. cbn. by rewrite Es. }
  split; cbn [heap with_heap with_transactionId].
  - intros b x Hx. destruct (Hcase b x Hx) as [[-> ->]|[Hb Hm]].
    + rewrite Hin. constructor.
    + destruct (F1 b x Hm) as (q & Hq & _ & _ & _ & [->| ->]);
        pose proof (or_nodup s Ho b q Hq) as Hnd; [done|].
      apply NoDup_app. split; [done|]. split; [|apply NoDup_singleton].
      intros c Hc Hci. apply list_elem_of_singleton in Hci as ->.
      destruct (wf_inner s Hwf b q i Hq Hc) as (tc & Htc & _). by eapply Hne.
  - intros b x c Hx Hc. unfold statusOf. cbn [heap with_heap with_transactionId].
    destruct (Hcase b x Hx) as [[-> ->]|[Hb Hm]].
    + rewrite Hin in Hc. by apply elem_of_nil in Hc.
    + destruct (F1 b x Hm) as (q & Hq & _ & _ & _ & [E|E]); rewrite E in Hc.
      * destruct (wf_inner s Hwf b q c Hq Hc) as (tc & Htc & _).
        rewrite <- Hsame by eauto. by apply (or_open s Ho b q).
      * apply elem_of_app in Hc as [Hc|Hc].
        -- destruct (wf_inner s Hwf b q c Hq Hc) as (tc & Htc & _).
           rewrite <- Hsame by eauto. by apply (or_open s Ho b q).
        -- apply list_elem_of_singleton in Hc as ->. rewrite lookup_insert_eq. cbn.
           by rewrite Hrun.
  - intros b x d Hx Hdx. destruct (Hcase b x Hx) as [[-> ->]|[Hb Hm]].
    + rewrite Hst in Hdx. by apply elem_of_nil in Hdx.
    + destruct (F1 b x Hm) as (q & Hq & _ & _ & E & _). rewrite E in Hdx.
      pose proof (or_stack s Ho b q d Hq Hdx) as Hon. unfold hasOnCommit in *.
      change (heap (with_heap _ _)) with (<[i:=t]> hm).
      destruct (heap s !! d_transaction d) as [qd|] eqn:Hqd; [|done].
      rewrite lookup_insert_ne by (by eapply not_eq_sym, Hne).
      destruct (F2 _ qd Hqd) as (qd' & H' & _ & Eo). by rewrite H', Eo.
Qed.

Lemma neat_counter (n : nat) s :
  (transactionId s ≤ n)%nat → neat s (with_transactionId n s).
Proof.
  intros Hn. split; [by apply steady_counter|]. intros _.
  apply orderly_carried; cbn.
  - intros b t' H'. exists t'. split; [done|apply carried_refl].
  - intros b q Hq. by exists q.
Qed.

Lemma neat_registry (f : gmap nat nat → gmap nat nat) s :
  steady s (with_transactions f s) → neat s (with_transactions f s).
Proof.
  intros H. split; [done|]. intros _.
  apply orderly_carried; cbn.
  - intros b t' H'. exists t'. split; [done|apply carried_refl].
  - intros b q Hq. by exists q.
Qed.

Lemma neatM_ret {A} (a : A) : neatM (ret a).
Proof. intros s. apply neat_refl. Qed.

Lemma neatM_throw {A} e : neatM (@throw A e).
Proof. intros s. apply neat_refl. Qed.

Lemma neatM_gets {A} (f : State → A) : neatM (gets f).
Proof. intros s. apply neat_refl. Qed.

Lemma neatM_deref a : neatM (deref a).
Proof. intros s. unfold deref. destruct (heap s !! a); apply neat_refl. Qed.

Lemma neatM_modify (f : State → State) : (∀ s, neat s (f s)) → neatM (modify f).
Proof. intros H s. apply H. Qed.

Lemma neatM_bind {A B} (m : M A) (k : A → M B) :
  neatM m → (∀ a, neatM (k a)) → neatM (bind m k).
Proof.
  intros Hm Hk s. unfold bind. specialize (Hm s).
  destruct (m s) as [[a|e] s1]; [|exact Hm].
  eapply neat_trans; [exact Hm|apply Hk].
Qed.

Lemma neat_emit ev s : neat s (emit ev s).
Proof. by apply neat_quiet. Qed.

Lemma neatM_logger lvl tx msg : neatM (logger lvl tx msg).
Proof. apply neatM_modify, neat_emit. Qed.

Lemma neatM_callHook h tx b : neatM (callHook h tx b).
Proof.
  apply neatM_bind; [apply neatM_modify, neat_emit|].
  intros _. destruct b; [apply neatM_ret|apply neatM_throw].
Qed.

Lemma neat_detached r j s : neat s (detached r j s).
Proof. unfold detached. destruct (settle r), (isThenable r); by apply neat_quiet. Qed.

Lemma neatM_thenDetached r j : neatM (thenDetached r j).
Proof. intros s. rewrite thenDetached_run. apply neat_detached. Qed.

Create HintDb neat.
#[local] Hint Resolve neat_refl neat_emit neatM_ret neatM_throw neatM_gets
  neatM_deref neatM_logger neatM_callHook neatM_thenDetached : neat.

Ltac neat_chain := repeat (apply neatM_bind; [solve [auto with neat]|intros]).

Lemma neatM_rollback tx err : neatM (rollback tx err).
Proof.
  apply neatM_bind; [|auto with neat]. apply neatM_modify. intros s.
  apply neat_alter_at. intros q _. split; [auto with steady|].
  apply carried_set_status_rolledback.
Qed.

Lemma neatM_processRollback tx err : neatM (processRollback tx err).
Proof.
  apply neatM_bind; [auto with neat|]. intros t.
  destruct (isNullish err); [auto with neat|].
  neat_chain. apply neatM_rollback.
Qed.

Lemma neatM_processCommit tx result : neatM (processCommit tx result).
Proof.
  intros s. unfold processCommit, bind at 1, deref.
  destruct (heap s !! tx) as [t|] eqn:Ht; [|apply neat_refl].
  rewrite bind_gets.
  destruct (someStatus s running (innerTransactions t));
    [unfold logger; rewrite bind_modify; apply neat_emit|].
  rewrite bind_gets.
  destruct (match parentTransaction t with Some _ => _ | None => _ end);
    [unfold logger; rewrite bind_modify; apply neat_emit|].
  rewrite bind_gets.
  destruct (someStatus s rolledback (innerTransactions t)); [apply neat_refl|].
  unfold logger, callHook. rewrite !bind_modify.
  destruct (processCommitHook (impl t)) as [r|e];
    [|by apply neat_quiet].
  rewrite bind_assoc, bind_modify, bind_ret, bind_thenDetached, bind_modify.
  eapply neat_trans; [apply (neat_quiet s (detached r (JOnCommit tx result)
                                            (commitAnnounced tx s)))|].
  - by rewrite detached_heap.
  - unfold detached. by destruct (settle r), (isThenable r).
  - unfold detached. by destruct (settle r), (isThenable r).
  - pose proof (neat_commit tx t (detached r (JOnCommit tx result) (commitAnnounced tx s)))
      as H.
    rewrite detached_heap in H. specialize (H Ht).
    unfold detachFromParent in H. by destruct (parentTransaction t).
Qed.

Lemma neat_callback tx r s : neat s (callback tx r s).
Proof.
  apply neat_quiet; [apply callback_heap|apply callback_transactionId|].
  unfold callback. destruct (heap s !! tx) as [t|]; [|done].
  destruct (o_onCommit (options t)) as [[v|e]|]; cbn; try done.
  by destruct (settle v).
Qed.

Lemma neat_runDeferred_all (l : list Deferred) s :
  neat s (foldl (λ acc d, runDeferred d acc) s l).
Proof.
  revert s. induction l as [|d l IH]; intros s; cbn; [apply neat_refl|].
  eapply neat_trans; [apply (neat_callback (d_transaction d) (d_result d))|apply IH].
Qed.

Lemma neat_onCommit tx r s : neat s (onCommit tx r s).
Proof.
  unfold onCommit. destruct (heap s !! tx) as [t|] eqn:Ht; [|apply neat_refl].
  destruct (o_onCommit (options t)) as [cb|] eqn:Hcb; [|apply neat_refl].
  destruct (parentTransaction t) as [p|].
  - by apply (neat_defer tx t cb).
  - eapply neat_trans; [apply neat_runDeferred_all|apply neat_callback].
Qed.

Lemma neat_onRollback tx s : neat s (onRollback tx s).
Proof.
  unfold onRollback. destruct (heap s !! tx) as [t|]; [|apply neat_refl].
  destruct (o_onRollback (options t)) as [[v|e]|]; [| |apply neat_refl].
  - destruct (settle v); by apply neat_quiet.
  - by apply neat_quiet.
Qed.

Lemma neat_runJobs (q : list Job) s : neat s (foldl (λ acc j, runJob j acc) s q).
Proof.
  revert s. induction q as [|j q IH]; intros s; cbn; [apply neat_refl|].
  eapply neat_trans; [|apply IH].
  destruct j; [apply neat_onCommit|apply neat_onRollback].
Qed.

Lemma neat_drain s : neat s (drain s).
Proof.
  unfold drain. eapply neat_trans; [|apply neat_runJobs]. by apply neat_quiet.
Qed.

Lemma neatM_newTransaction c parent o : neatM (newTransaction c parent o).
Proof.
  intros s. unfold newTransaction. rewrite bind_gets, bind_modify.
  destruct parent as [p|].
  - unfold bind at 1, deref. cbn [heap with_transactionId].
    destruct (heap s !! p) as [pt|] eqn:Hp; [|apply neat_counter; lia].
    rewrite bind_modify. cbn [ret snd].
    apply (neat_allocate _ (Some p)); try done.
    exists pt. repeat split; try done. by eexists.
  - rewrite bind_modify. cbn [ret snd].
    by apply (neat_allocate _ None).
Qed.

Lemma neatM_createTransaction parent o : neatM (createTransaction parent o).
Proof.
  apply neatM_bind; [apply neatM_gets|]. intros c.
  apply neatM_bind; [apply neatM_newTransaction|]. intros a.
  intros s. unfold bind, deref. destruct (heap s !! a) as [t|] eqn:Ht; [|apply neat_refl].
  cbn. by apply neat_registry, steady_register.
Qed.

Lemma neatM_startInner tx o : neatM (startInner tx o).
Proof.
  apply neatM_bind; [apply neatM_deref|]. intros t. apply neatM_createTransaction.
Qed.

Lemma neatM_defineTransaction arguments : neatM (defineTransaction arguments).
Proof.
  unfold defineTransaction. apply neatM_bind.
  - destruct (isString _ "REUSE").
    { destruct (argument 1 arguments); try apply neatM_throw.
      apply neatM_bind; [apply neatM_gets|intros; apply neatM_ret]. }
    destruct (isString _ "NEW").
    { destruct (isHandler _); [apply neatM_throw|apply neatM_ret]. }
    destruct (isString _ "REUSE_OR_NEW"); [apply neatM_ret|apply neatM_throw].
  - intros [parent o]. apply neatM_bind; [apply neatM_gets|]. intros d.
    apply neatM_createTransaction.
Qed.

Lemma neatM_reUseOrCreateTransaction arguments :
  neatM (reUseOrCreateTransaction arguments).
Proof.
  assert (∀ x, neatM (readFreeIdentifier x)) as Hread.
  { intros x s. unfold readFreeIdentifier. destruct (globals s !! x); apply neat_refl. }
  apply neatM_bind; [apply Hread|]. intros p.
  apply neatM_bind; [apply Hread|]. intros o. apply neatM_defineTransaction.
Qed.

Lemma neatS_processBegin tx : neatS (processBegin tx).
Proof.
  intros s. unfold processBegin.
  assert (neatM (let* t := deref tx in
                 logger info tx MsgBegin;;
                 callHook hookBegin tx (processBeginHook (impl t)))) as H.
  { neat_chain. auto with neat. }
  specialize (H s).
  destruct (bind (deref tx) _ s) as [[r|e] s']; exact H.
Qed.

Lemma neatM_processExecution tx processFn :
  (∀ h, neatM (processFn h)) → neatM (processExecution tx processFn).
Proof.
  intros Hfn s. unfold processExecution, bind at 1, deref.
  destruct (heap s !! tx) as [t|] eqn:Ht; [|apply neat_refl].
  rewrite bind_gets, bind_modify.
  eapply neat_trans.
  - apply (neat_alter_carried (set_handler (newTransactionHandler s t)) tx);
      [|intros q Hq; apply carried_set_handler].
    intros Hwf.
    apply (steady_alter_at (set_handler (newTransactionHandler s t)) tx); [|exact Hwf].
    intros q Hq. apply touched_set_handler.
    assert (q = t) as -> by congruence. by apply (handlerOf_new s tx).
  - apply neatM_bind; [apply Hfn|]. intros r.
    destruct (isObject r && isThenable r); apply neatM_ret.
Qed.

Lemma neatM_andDrain f v : neatM (f v) → neatM (andDrain f v).
Proof.
  intros H s. unfold andDrain. specialize (H s). destruct (f v s) as [r s'].
  eapply neat_trans; [exact H|apply neat_drain].
Qed.

Lemma neatS_then_ p f : (∀ v, neatM (f v)) → neatS (then_ p f).
Proof.
  intros H s. unfold then_. destruct p as [v| |]; try apply neat_refl.
  specialize (H v s). by destruct (f v s) as [[r|e] s'].
Qed.

Lemma neatS_catch_ p f : (∀ v, neatM (f v)) → neatS (catch_ p f).
Proof.
  intros H s. unfold catch_. destruct p as [|v|]; try apply neat_refl.
  specialize (H v s). by destruct (f v s) as [[r|e] s'].
Qed.

Lemma neatS_settleExecution tx p1 pr : neatS (settleExecution tx p1 pr).
Proof.
  intros s. unfold settleExecution.
  pose proof (neatS_then_ p1 (andDrain (processCommit tx))
                (λ v, neatM_andDrain _ v (neatM_processCommit tx v)) s) as H2.
  destruct (then_ p1 _ s) as [p2 s2].
  pose proof (neatS_then_ p2 (λ _, ret pr) (λ _, neatM_ret pr) s2) as H3.
  destruct (then_ p2 _ s2) as [p3 s3].
  pose proof (neatS_catch_ p3 (andDrain (processRollback tx))
                (λ v, neatM_andDrain _ v (neatM_processRollback tx v)) s3) as H4.
  eapply neat_trans; [exact H2|]. eapply neat_trans; [exact H3|exact H4].
Qed.

Lemma neatS_execute tx processFn :
  (∀ h, neatM (processFn h)) → neatS (execute tx processFn).
Proof.
  intros Hfn s. unfold execute.
  pose proof (neatS_processBegin tx s) as H0.
  destruct (processBegin tx s) as [p0 s0]. cbn [snd] in H0.
  eapply neat_trans; [exact H0|].
  destruct p0 as [v|e|]; try apply neatS_settleExecution.
  pose proof (neatM_processExecution tx processFn Hfn s0) as H1.
  destruct (processExecution tx processFn s0) as [[[returned pr]|e] s1]; cbn [snd] in H1;
    (eapply neat_trans; [exact H1|apply neatS_settleExecution]).
Qed.

Lemma neatS_thenableExecute th processFn :
  (∀ h, neatM (processFn h)) → neatS (thenableExecute th processFn).
Proof.
  intros Hfn s. unfold thenableExecute.
  pose proof (neatS_execute (th_transaction th) processFn Hfn s) as H.
  destruct (execute _ processFn s) as [p s']. cbn [snd] in H.
  eapply neat_trans; [exact H|].
  unfold finally_. destruct p; cbn [snd]; try apply neat_refl;
    apply neat_registry, steady_unregister.
Qed.

Lemma neat_hookFulfils n s : neat s (hookFulfils n s).
Proof.
  unfold hookFulfils. destruct (awaited s !! n) as [j|]; [|apply neat_refl].
  eapply neat_trans;
    [by apply (neat_quiet s (with_awaited (delete n (awaited s)) s))|].
  destruct j; [apply neat_onCommit|apply neat_onRollback].
Qed.

Lemma neatM_behaves b h : neatM (behaves b h).
Proof. destruct b; [apply neatM_ret|apply neatM_throw]. Qed.

Lemma neat_step op s : neat s (step op s).
Proof.
  destruct op; cbn [step].
  - apply neatM_defineTransaction.
  - apply neatM_reUseOrCreateTransaction.
  - by apply neat_quiet.
  - apply neatM_startInner.
  - apply neatM_rollback.
  - apply neatS_processBegin.
  - apply neatM_processExecution, neatM_behaves.
  - apply neatM_processCommit.
  - apply neatM_processRollback.
  - apply neat_drain.
  - apply neat_registry, steady_unregister.
  - apply neatS_thenableExecute, neatM_behaves.
  - apply neat_hookFulfils.
Qed.

Lemma neat_run ops s : neat s (run ops s).
Proof.
  revert s. induction ops as [|op ops IH]; intros s; cbn; [apply neat_refl|].
  eapply neat_trans; [apply neat_step|apply IH].
Qed.

Lemma orderly_initialState : orderly initialState.
Proof.
  split; cbn; [intros a t|intros a t c|intros a t d]; by rewrite lookup_empty.
Qed.

Lemma orderly_run ops : orderly (run ops initialState).
Proof.
  apply (neat_run ops initialState); [apply wellFormed_initialState|].
  apply orderly_initialState.
Qed.

(** X23: in every reachable state [innerTransactions] lists each inner
    transaction at most once, and never one that is [committed]: what the
    pre-checks of a commit find there is [running] or [rolledback]. *)
Theorem innerTransactions_lists_what_has_not_committed
    (ops : list Op) (a c : nat) (t : Transaction) :
  heap (run ops initialState) !! a = Some t →
  c ∈ innerTransactions t →
  NoDup (innerTransactions t)
  ∧ (statusOf (run ops initialState) c = Some running
     ∨ statusOf (run ops initialState) c = Some rolledback).
Proof.
  intros Ht Hc. pose proof (orderly_run ops) as Ho. pose proof (wellFormed_run ops) as Hwf.
  split; [by apply (or_nodup _ Ho a t)|].
  pose proof (or_open _ Ho a t c Ht Hc) as Hst.
  destruct (wf_inner _ Hwf a t c Ht Hc) as (tc & Htc & _).
  unfold statusOf in *. rewrite Htc in *. cbn in *.
  destruct (status tc); [by left|done|by right].
Qed.

(** X24: in every reachable state an entry of an [innerCommitStack]
    stands for a transaction that exists and has an [onCommit] option, so
    that the callback a root runs from its stack always has something to
    call. *)
Theorem innerCommitStack_holds_callable_entries
    (ops : list Op) (a : nat) (t : Transaction) (d : Deferred) :
  heap (run ops initialState) !! a = Some t →
  d ∈ innerCommitStack t →
  ∃ td cb, heap (run ops initialState) !! d_transaction d = Some td
           ∧ o_onCommit (options td) = Some cb.
Proof.
  intros Ht Hd. pose proof (or_stack _ (orderly_run ops) a t d Ht Hd) as Hon.
  unfold hasOnCommit in Hon.
  destruct (heap (run ops initialState) !! d_transaction d) as [td|]; [|done].
  apply bool_decide_eq_true in Hon as [cb Hcb]. by exists td, cb.
Qed.

Lemma innerTransactions_lists_what_has_not_committed_witness :
  NoDup (innerTransactions (objectAt nested 2))
  ∧ (statusOf nested 3 = Some running ∨ statusOf nested 3 = Some rolledback).
Proof.
  apply (innerTransactions_lists_what_has_not_committed nestedOps 2 3 (objectAt nested 2)).
  - vm_compute. reflexivity.
  - apply (bool_decide_unpack _). vm_compute. exact I.
Defined.

Lemma innerCommitStack_holds_callable_entries_witness :
  ∃ td cb, heap rootAboutToCommit !! 3 = Some td ∧ o_onCommit (options td) = Some cb.
Proof.
  apply (innerCommitStack_holds_callable_entries nestedWithOnCommit 1
           (objectAt rootAboutToCommit 1) {| d_transaction := 3; d_result := VStr "leaf" |}).
  - vm_compute. reflexivity.
  - apply (bool_decide_unpack _). vm_compute. exact I.
Defined.

(** ** [startInner], and what [execute] leaves alone *)

(** X25: [startInner(innerOptions)] constructs an inner transaction
    whatever the status of the transaction it is called on: running, one
    level below, named [<parent's name>/<name or 'Level n'>], with the
    inner hooks of the chosen class and never the main ones, appended to
    the parent's [innerTransactions] and registered; the parent's status is
    neither checked nor changed. *)
Theorem startInner_builds_an_inner
    (s : State) (tx : nat) (t : Transaction) (innerOptions : Arg) :
  heap s !! tx = Some t → tx < transactionId s →
  ∃ s' ti tp' cls,
    startInner tx innerOptions s = (Ok {| th_transaction := transactionId s |}, s')
    ∧ heap s' !! transactionId s = Some ti
    ∧ parentTransaction ti = Some tx ∧ level ti = level t + 1 ∧ status ti = running
    ∧ name ti = (name t ++ "/" ++ nameOr (o_name (optionsOf innerOptions))
                                    ("Level " ++ pretty (level t + 1)))%string
    ∧ cls = chosenClass (assignDefault (readDefaultImplementationClass (options t))
                           (optionsOf innerOptions)) s
    ∧ processBeginHook (impl ti) = c_processInnerBegin cls
    ∧ processCommitHook (impl ti) = c_processInnerCommit cls
    ∧ processRollbackHook (impl ti) = c_processInnerRollback cls
    ∧ heap s' !! tx = Some tp'
    ∧ innerTransactions tp' = (innerTransactions t ++ [transactionId s])%list
    ∧ status tp' = status t
    ∧ transactions s' !! transactionId s = Some (transactionId s).
Proof.
  intros Ht Hlt. rewrite (startInner_run _ t _ _ Ht).
  destruct (createTransaction_inner_run tx t
              (assignDefault (readDefaultImplementationClass (options t))
                 (optionsOf innerOptions)) s Ht)
    as (ti & E & _ & Hpar & Hlvl & Hst & Ho & _ & _ & Himpl & Hn & _).
  eexists _, ti, (pushInner (transactionId s) t), _.
  split; [exact E|]. cbn. rewrite lookup_insert_eq, lookup_insert_ne by lia.
  rewrite lookup_alter_eq, Ht, lookup_insert_eq, Himpl. by repeat split.
Qed.

Lemma sameModule_refl s : sameModule s s.
Proof. by repeat split. Qed.

Lemma sameModule_trans s1 s2 s3 : sameModule s1 s2 → sameModule s2 s3 → sameModule s1 s3.
Proof.
  intros (A1 & B1 & C1 & D1 & E1) (A2 & B2 & C2 & D2 & E2).
  repeat split; try congruence; intros H; [by apply E1, E2|by apply E2, E1].
Qed.

Lemma sameModule_quiet s s' :
  heap s' = heap s → transactionId s' = transactionId s → transactions s' = transactions s →
  DefaultTransactionImplementationClass s' = DefaultTransactionImplementationClass s →
  globals s' = globals s → sameModule s s'.
Proof. intros Hh. repeat split; try done; by rewrite Hh. Qed.

Lemma sameModule_alter (g : Transaction → Transaction) a s :
  sameModule s (with_heap (alter g a) s).
Proof.
  split; [done|]. split; [done|]. split; [done|]. split; [done|].
  intros b. cbn. rewrite lookup_alter. case_decide; subst; [|done].
  destruct (heap s !! _); cbn; [|done]. split; intros _; eauto.
Qed.

Lemma sameModule_emit ev s : sameModule s (emit ev s).
Proof. by apply sameModule_quiet. Qed.

Lemma sameModuleM_bind {A B} (m : M A) (k : A → M B) :
  sameModuleM m → (∀ a, sameModuleM (k a)) → sameModuleM (bind m k).
Proof.
  intros Hm Hk s. unfold bind. specialize (Hm s).
  destruct (m s) as [[a|e] s1]; [|exact Hm].
  eapply sameModule_trans; [exact Hm|apply Hk].
Qed.

Lemma sameModule_callback tx r s : sameModule s (callback tx r s).
Proof.
  unfold callback. destruct (heap s !! tx) as [t|]; [|apply sameModule_refl].
  destruct (o_onCommit (options t)) as [[v|e]|]; [destruct (settle v)| |];
    by apply sameModule_quiet.
Qed.

Lemma sameModule_runDeferred_all (l : list Deferred) s :
  sameModule s (foldl (λ acc d, runDeferred d acc) s l).
Proof.
  revert s. induction l as [|d l IH]; intros s; cbn; [apply sameModule_refl|].
  eapply sameModule_trans; [apply (sameModule_callback (d_transaction d) (d_result d))|].
  apply IH.
Qed.

Lemma sameModule_runJob j s : sameModule s (runJob j s).
Proof.
  destruct j as [tx r|tx]; cbn.
  - unfold onCommit. destruct (heap s !! tx) as [t|]; [|apply sameModule_refl].
    destruct (o_onCommit (options t)); [|apply sameModule_refl].
    destruct (parentTransaction t); [apply sameModule_alter|].
    eapply sameModule_trans; [apply sameModule_runDeferred_all|apply sameModule_callback].
  - unfold onRollback. destruct (heap s !! tx) as [t|]; [|apply sameModule_refl].
    destruct (o_onRollback (options t)) as [[v|e]|]; [destruct (settle v)| |];
      by apply sameModule_quiet.
Qed.

Lemma sameModule_drain s : sameModule s (drain s).
Proof.
  unfold drain. eapply sameModule_trans; [by apply (sameModule_quiet s (with_microtasks [] s))|].
  generalize (with_microtasks [] s). induction (microtasks s) as [|j q IH]; intros s0; cbn;
    [apply sameModule_refl|].
  eapply sameModule_trans; [apply sameModule_runJob|apply IH].
Qed.

Lemma sameModule_detached r j s : sameModule s (detached r j s).
Proof.
  unfold detached. destruct (settle r), (isThenable r); by apply sameModule_quiet.
Qed.

Lemma sameModule_processCommit tx result s : sameModule s (processCommit tx result s).2.
Proof.
  unfold processCommit, bind at 1, deref.
  destruct (heap s !! tx) as [t|] eqn:Ht; [|apply sameModule_refl].
  rewrite bind_gets.
  destruct (someStatus s running (innerTransactions t));
    [unfold logger; rewrite bind_modify; apply sameModule_emit|].
  rewrite bind_gets.
  destruct (match parentTransaction t with Some _ => _ | None => _ end);
    [unfold logger; rewrite bind_modify; apply sameModule_emit|].
  rewrite bind_gets.
  destruct (someStatus s rolledback (innerTransactions t)); [apply sameModule_refl|].
  unfold logger, callHook. rewrite !bind_modify.
  destruct (processCommitHook (impl t)) as [r|e]; [|by apply sameModule_quiet].
  rewrite bind_assoc, bind_modify, bind_ret, bind_thenDetached, bind_modify.
  eapply sameModule_trans;
    [apply (sameModule_trans _ (commitAnnounced tx s));
       [by apply sameModule_quiet|apply (sameModule_detached r (JOnCommit tx result))]|].
  eapply sameModule_trans; [apply (sameModule_alter (set_status committed) tx)|].
  destruct (parentTransaction t); [rewrite bind_modify; apply sameModule_alter|].
  apply sameModule_refl.
Qed.

Lemma sameModule_processRollback tx err s : sameModule s (processRollback tx err s).2.
Proof.
  unfold processRollback, bind at 1, deref.
  destruct (heap s !! tx) as [t|] eqn:Ht; [|apply sameModule_refl].
  destruct (isNullish err); [apply sameModule_refl|].
  unfold logger, callHook. rewrite !bind_modify.
  destruct (processRollbackHook (impl t)) as [r|e]; [|by apply sameModule_quiet].
  rewrite bind_assoc, bind_modify, bind_ret, bind_thenDetached.
  unfold rollback. rewrite bind_modify. cbn [snd throw].
  eapply sameModule_trans;
    [apply (sameModule_trans _ (rollbackAnnounced tx err s));
       [by apply sameModule_quiet|apply (sameModule_detached r (JOnRollback tx))]|].
  apply sameModule_alter.
Qed.

Lemma sameModule_settleExecution tx p1 pr s : sameModule s (settleExecution tx p1 pr s).2.
Proof.
  unfold settleExecution, then_, catch_, andDrain.
  destruct p1 as [v|e|]; [| |apply sameModule_refl].
  - pose proof (sameModule_processCommit tx v s) as Hc.
    destruct (processCommit tx v s) as [[r|e] s1]; cbn [snd] in Hc.
    + assert (sameModule s (drain s1)) as Hd
        by (eapply sameModule_trans; [exact Hc|apply sameModule_drain]).
      destruct (settle r) as [v'|e'|]; cbn; [|  |exact Hd].
      * destruct (settle pr) as [v''|e''|]; [exact Hd| |exact Hd].
        pose proof (sameModule_processRollback tx e'' (drain s1)) as Hr.
        destruct (processRollback tx e'' (drain s1)) as [[r'|e3] s2]; cbn [snd] in *;
          [destruct (settle r')|]; cbn;
          (eapply sameModule_trans; [exact Hd|]);
          (eapply sameModule_trans; [exact Hr|apply sameModule_drain]).
      * pose proof (sameModule_processRollback tx e' (drain s1)) as Hr.
        destruct (processRollback tx e' (drain s1)) as [[r'|e3] s2]; cbn [snd] in *;
          [destruct (settle r')|]; cbn;
          (eapply sameModule_trans; [exact Hd|]);
          (eapply sameModule_trans; [exact Hr|apply sameModule_drain]).
    + assert (sameModule s (drain s1)) as Hd
        by (eapply sameModule_trans; [exact Hc|apply sameModule_drain]).
      cbn.
      pose proof (sameModule_processRollback tx e (drain s1)) as Hr.
      destruct (processRollback tx e (drain s1)) as [[r'|e3] s2]; cbn [snd] in *;
        [destruct (settle r')|]; cbn;
        (eapply sameModule_trans; [exact Hd|]);
        (eapply sameModule_trans; [exact Hr|apply sameModule_drain]).
  - cbn. pose proof (sameModule_processRollback tx e s) as Hr.
    destruct (processRollback tx e s) as [[r'|e3] s2]; cbn [snd] in *;
      [destruct (settle r')|]; cbn;
      (eapply sameModule_trans; [exact Hr|apply sameModule_drain]).
Qed.

Lemma sameModule_execute tx processFn s :
  (∀ h, sameModuleM (processFn h)) → sameModule s (execute tx processFn s).2.
Proof.
  intros Hfn. unfold execute, processBegin, bind at 1, deref.
  destruct (heap s !! tx) as [t|] eqn:Ht.
  - unfold logger, callHook. rewrite !bind_modify. fold (begun tx s).
    assert (sameModule s (begun tx s)) as Hb by (by apply sameModule_quiet).
    destruct (processBeginHook (impl t)) as [b|e]; cbn [ret throw];
      [|eapply sameModule_trans; [exact Hb|apply sameModule_settleExecution]].
    destruct (settle b) as [x|e|];
      [|eapply sameModule_trans; [exact Hb|apply sameModule_settleExecution]..].
    unfold processExecution. rewrite (bind_deref tx t); [|exact Ht].
    rewrite bind_gets, bind_modify. unfold bind.
    set (h := newTransactionHandler (begun tx s) t).
    pose proof (Hfn h (with_heap (alter (set_handler h) tx) (begun tx s))) as H1.
    assert (sameModule s (with_heap (alter (set_handler h) tx) (begun tx s))) as H0
      by (eapply sameModule_trans; [exact Hb|apply sameModule_alter]).
    destruct (processFn h _) as [[pr|e] s1]; cbn [snd] in H1;
      [destruct (isObject pr && isThenable pr)|]; cbn [ret];
      (eapply sameModule_trans; [exact H0|]);
      (eapply sameModule_trans; [exact H1|apply sameModule_settleExecution]).
  - cbn [throw]. apply (sameModule_settleExecution tx (Rejected VTypeError) VUndefined s).
Qed.

(** X26: [execute] constructs no transaction and writes neither the
    counter, the registry nor the default class, provided the protected
    code does not; the promise handed out by [createTransaction] then
    changes the registry in one way only: when it settles, the entry of its
    own transaction is deleted, and every other entry stays. *)
Theorem execute_leaves_the_module_alone
    (s : State) (th : Thenable) (processFn : TransactionHandler → M Value) :
  (∀ h, sameModuleM (processFn h)) →
  sameModule s (execute (th_transaction th) processFn s).2
  ∧ ((thenableExecute th processFn s).1 = Pending →
     transactions (thenableExecute th processFn s).2 = transactions s)
  ∧ ((thenableExecute th processFn s).1 ≠ Pending →
     transactions (thenableExecute th processFn s).2
     = delete (th_transaction th) (transactions s)).
Proof.
  intros Hfn. pose proof (sameModule_execute (th_transaction th) processFn s Hfn) as H.
  split; [exact H|]. destruct H as (_ & Hr & _).
  unfold thenableExecute. destruct (execute (th_transaction th) processFn s) as [p s'].
  cbn [snd] in Hr. unfold finally_.
  destruct p; cbn; split; try done; intros _; by rewrite Hr.
Qed.

Lemma startInner_builds_an_inner_witness :
  ∃ s' ti tp' cls,
    startInner 1 (AOptions (named "inner")) committedRoot
    = (Ok {| th_transaction := transactionId committedRoot |}, s')
    ∧ heap s' !! transactionId committedRoot = Some ti
    ∧ parentTransaction ti = Some 1 ∧ level ti = level (objectAt committedRoot 1) + 1
    ∧ status ti = running
    ∧ name ti = (name (objectAt committedRoot 1) ++ "/"
                 ++ nameOr (o_name (named "inner"))
                      ("Level " ++ pretty (level (objectAt committedRoot 1) + 1)))%string
    ∧ cls = chosenClass
              (assignDefault
                 (readDefaultImplementationClass (options (objectAt committedRoot 1)))
                 (named "inner")) committedRoot
    ∧ processBeginHook (impl ti) = c_processInnerBegin cls
    ∧ processCommitHook (impl ti) = c_processInnerCommit cls
    ∧ processRollbackHook (impl ti) = c_processInnerRollback cls
    ∧ heap s' !! 1 = Some tp'
    ∧ innerTransactions tp'
      = (innerTransactions (objectAt committedRoot 1) ++ [transactionId committedRoot])%list
    ∧ status tp' = status (objectAt committedRoot 1)
    ∧ transactions s' !! transactionId committedRoot = Some (transactionId committedRoot).
Proof.
  apply (startInner_builds_an_inner committedRoot 1 (objectAt committedRoot 1)
           (AOptions (named "inner"))).
  - vm_compute. reflexivity.
  - vm_compute. lia.
Defined.

Lemma execute_leaves_the_module_alone_witness :
  sameModule startedWithCallbacks (execute 1 failedProcess startedWithCallbacks).2
  ∧ transactions (thenableExecute root failedProcess startedWithCallbacks).2
    = delete 1 (transactions startedWithCallbacks).
Proof.
  destruct (execute_leaves_the_module_alone startedWithCallbacks root failedProcess)
    as (H1 & _ & H3).
  - intros h s. apply sameModule_refl.
  - split; [exact H1|]. apply H3. vm_compute. discriminate.
Defined.
